(** * ros2_workspace_manager: the dependency-aware selection and graph core

    A shallow embedding of [src/workspace_manager/gui/main_window.py]:
    manifest scanning ([refresh_packages]), the selection propagation driven
    by the check boxes, the dependency closure and the layering of the
    dependency graph dialog, the arrow heads and the highlight classes.

    Conventions.  A Python [dict] is a [gmap]; a Python [set] is a [gset];
    a loop [for x in s] over a set runs over [elements s].  An exception
    that nothing catches is an error of the [result] monad: the [KeyError]
    of a lookup [d[k]], what [ET.parse] raises besides [ParseError], and the
    [RecursionError] of calls nested deeper than the interpreter allows
    ([OutOfFuel]). *)

From Stdlib Require Import Reals Lra.
From stdpp Require Import ssreflect gmap strings list fin_maps fin_sets relations.
From stdpp Require Import sorting.

#[local] Set Warnings "-rewrite-rw,-clear-no-such-hyp".

Local Open Scope string_scope.
Local Open Scope list_scope.

(** ** Errors *)

(** [LookupError], [ValueError] and [OSError] are what [ET.parse] raises
    besides [ParseError]: on a declared encoding Python does not know, on a
    multi-byte encoding expat does not support, on a file that cannot be
    read.  [OutOfFuel] is [RecursionError]. *)
Inductive exn := KeyError | OutOfFuel | LookupError | ValueError | OSError.

Inductive result (A : Type) :=
  | Ok (a : A)
  | Err (e : exn).
Arguments Ok {A} a.
Arguments Err {A} e.

#[global] Instance exn_eq_dec : EqDecision exn.
Proof. solve_decision. Defined.

#[global] Instance result_eq_dec {A} `{EqDecision A} : EqDecision (result A).
Proof. solve_decision. Defined.

#[global] Instance result_ret : MRet result := λ A a, Ok a.
#[global] Instance result_bind : MBind result := λ A B k m,
  match m with
  | Ok a => k a
  | Err e => Err e
  end.

(** [for x in l: body(x)] over a state threaded through the iterations. *)
Fixpoint for_each {A S} (l : list A) (body : A → S → result S) (s : S) : result S :=
  match l with
  | [] => Ok s
  | x :: l' => s' ← body x s ; for_each l' body s'
  end.

(** ** Manifests (package.xml) *)

(** A child element of the manifest's root: its tag and its text
    ([None] for an empty element, as [Element.text] is). *)
Record element := Element { tag : string; text : option string }.

(** What [ET.parse] makes of a file: [ET.ParseError], the children of the
    root element in document order, or another exception, which
    [except (ET.ParseError, AttributeError)] does not catch. *)
Inductive document :=
  | ParseError
  | Tree (children : list element)
  | Raises (e : exn).

Record manifest_file := Manifest { xml_path : string; content : document }.

(** [root.find(t)]: the first child with that tag. *)
Definition find (t : string) (children : list element) : option element :=
  head (filter (λ e, tag e = t) children).

(** [root.findall(t)] *)
Definition findall (t : string) (children : list element) : list element :=
  filter (λ e, tag e = t) children.

(** Truth value of [dep.text] and of a package name: [None] and the empty
    string are false. *)
Definition truthy (o : option string) : bool :=
  match o with
  | Some s => negb (String.eqb s "")
  | None => false
  end.

(** [get_package_name_from_xml]: [None] stands for the caught [ParseError]
    and for the [AttributeError] of [root.find('name').text] on a missing
    name; any other exception of [ET.parse] leaves the function. *)
Definition get_package_name_from_xml (f : manifest_file) : result (option string) :=
  match content f with
  | ParseError => Ok None
  | Tree children =>
      match find "name" children with
      | Some e => Ok (text e)
      | None => Ok None
      end
  | Raises e => Err e
  end.

Definition dep_types : list string :=
  ["depend"; "build_depend"; "build_export_depend"; "exec_depend"; "test_depend"].

(** [get_package_dependencies] *)
Definition get_package_dependencies (f : manifest_file) : result (gset string) :=
  match content f with
  | ParseError => Ok ∅
  | Tree children =>
      Ok (foldl (λ deps dep_type,
                   foldl (λ deps dep,
                            match text dep with
                            | Some t => if truthy (Some t) then deps ∪ {[t]} else deps
                            | None => deps
                            end)
                         deps (findall dep_type children))
                ∅ dep_types)
  | Raises e => Err e
  end.

(** ** The window's state *)

(** The fields of [WorkspaceManagerGUI] the core reads and writes: the checked
    state of each package's check box and the two dependency maps.
    [top_level_calls] is a trace beside them: [on_package_checkbox_changed]
    appends the package and the direction ([true] for select) of every
    propagation it starts with a fresh [visited] set. *)
Record gui := Gui {
  package_checkboxes : gmap string bool;
  package_dependencies : gmap string (gset string);
  reverse_dependencies : gmap string (gset string);
  top_level_calls : list (string * bool)
}.

(** [d.get(k, set())] *)
Definition get_set (d : gmap string (gset string)) (k : string) : gset string :=
  default ∅ (d !! k).

(** ** refresh_packages *)

(** First pass: one iteration of the walk over the manifests found. *)
Record scan := Scan {
  available_packages : gmap string manifest_file;
  available_order : list string;
  scan_dependencies : gmap string (gset string);
  scan_reverse : gmap string (gset string)
}.

Definition scan_empty : scan := Scan ∅ [] ∅ ∅.

Definition first_pass_step (sc : scan) (f : manifest_file) : result scan :=
  package_name ← get_package_name_from_xml f ;
  Ok (match package_name with
      | Some package_name =>
          if truthy (Some package_name) then
            Scan (<[package_name := f]> (available_packages sc))
                 (if decide (package_name ∈ available_order sc)
                  then available_order sc
                  else available_order sc ++ [package_name])
                 (<[package_name := ∅]> (scan_dependencies sc))
                 (<[package_name := ∅]> (scan_reverse sc))
          else sc
      | None => sc
      end).

Definition first_pass (walk : list manifest_file) : result scan :=
  for_each walk (λ f sc, first_pass_step sc f) scan_empty.

(** [self.reverse_dependencies[dep].add(package_name)] *)
Definition reverse_add (package_name : string) (dep : string)
    (rev : gmap string (gset string)) : result (gmap string (gset string)) :=
  match rev !! dep with
  | Some s => Ok (<[dep := s ∪ {[package_name]}]> rev)
  | None => Err KeyError
  end.

(** Second pass: one iteration of [for package_name, xml_path in
    available_packages.items()]. *)
Definition second_pass_step (avail : gmap string manifest_file) (package_name : string)
    (st : gmap string (gset string) * gmap string (gset string))
    : result (gmap string (gset string) * gmap string (gset string)) :=
  match avail !! package_name with
  | None => Err KeyError
  | Some f =>
      deps ← get_package_dependencies f ;
      let workspace_deps := deps ∩ dom avail in
      let fwd := <[package_name := workspace_deps]> st.1 in
      rev ← for_each (elements workspace_deps) (reverse_add package_name) st.2 ;
      Ok (fwd, rev)
  end.

(** Third pass: the check boxes, ticked without notification for the
    packages of [last_selected_packages] (the handler is connected after
    [setChecked]).  The source walks the names sorted, which orders the
    table rows and leaves the resulting dict the same. *)
Definition make_checkboxes (names : list string) (last_selected : list string)
    : gmap string bool :=
  foldl (λ cbs package_name,
           <[package_name := bool_decide (package_name ∈ last_selected)]> cbs)
        ∅ names.

Definition refresh_packages (walk : list manifest_file) (last_selected : list string)
    : result gui :=
  sc ← first_pass walk ;
  '(fwd, rev) ← for_each (available_order sc)
                   (second_pass_step (available_packages sc))
                   (scan_dependencies sc, scan_reverse sc) ;
  Ok (Gui (make_checkboxes (available_order sc) last_selected) fwd rev []).

(** ** Selection propagation *)

Definition set_checkbox (package_name : string) (b : bool) (s : gui) : gui :=
  Gui (<[package_name := b]> (package_checkboxes s))
      (package_dependencies s) (reverse_dependencies s) (top_level_calls s).

Definition log_call (package_name : string) (b : bool) (s : gui) : gui :=
  Gui (package_checkboxes s) (package_dependencies s) (reverse_dependencies s)
      (top_level_calls s ++ [(package_name, b)]).

(** The four procedures call each other: [QCheckBox.setChecked] emits
    [stateChanged] when, and only when, the state changes, and the slot
    connected in [refresh_packages] runs [on_package_checkbox_changed] before
    [setChecked] returns.  [visited] is one set shared by all the calls of a
    propagation, so every call returns it.  [fuel] bounds the depth of the
    nested calls, as the interpreter's recursion limit does: a run that
    nests deeper ends in [OutOfFuel], the source's [RecursionError]. *)
Fixpoint select_dependencies (fuel : nat) (package_name : string)
    (visited : gset string) (s : gui) {struct fuel} : result (gset string * gui) :=
  match fuel with
  | O => Err OutOfFuel
  | S fuel =>
      if decide (package_name ∈ visited) then Ok (visited, s)
      else
        let visited := visited ∪ {[package_name]} in
        s ← (if decide (package_name ∈ dom (package_checkboxes s))
             then setChecked fuel package_name true s
             else Ok s) ;
        for_each (elements (get_set (package_dependencies s) package_name))
                 (λ dep vs, select_dependencies fuel dep vs.1 vs.2)
                 (visited, s)
  end
with deselect_dependent_packages (fuel : nat) (package_name : string)
    (visited : gset string) (s : gui) {struct fuel} : result (gset string * gui) :=
  match fuel with
  | O => Err OutOfFuel
  | S fuel =>
      if decide (package_name ∈ visited) then Ok (visited, s)
      else
        let visited := visited ∪ {[package_name]} in
        for_each (elements (get_set (reverse_dependencies s) package_name))
                 (λ dep vs,
                    if decide (dep ∈ dom (package_checkboxes vs.2))
                    then s' ← setChecked fuel dep false vs.2 ;
                         deselect_dependent_packages fuel dep vs.1 s'
                    else Ok vs)
                 (visited, s)
  end
with setChecked (fuel : nat) (package_name : string) (b : bool) (s : gui)
    {struct fuel} : result gui :=
  match fuel with
  | O => Err OutOfFuel
  | S fuel =>
      if decide (package_checkboxes s !! package_name = Some b) then Ok s
      else on_package_checkbox_changed fuel package_name
             (set_checkbox package_name b s)
  end
with on_package_checkbox_changed (fuel : nat) (package_name : string) (s : gui)
    {struct fuel} : result gui :=
  match fuel with
  | O => Err OutOfFuel
  | S fuel =>
      match package_checkboxes s !! package_name with
      | None => Err KeyError
      | Some true =>
          vs ← select_dependencies fuel package_name ∅ (log_call package_name true s) ;
          Ok vs.2
      | Some false =>
          vs ← deselect_dependent_packages fuel package_name ∅
                 (log_call package_name false s) ;
          Ok vs.2
      end
  end.

(** ** show_dependency_graph: the closure of the selected packages *)

(** [for d in deps.get(p, set()): if d not in nodes: stack.append(d)].
    The stack is kept with its top first: the head of the list is the last
    element of the Python list, the one [stack.pop()] takes. *)
Definition push_dependencies (deps : gmap string (gset string)) (nodes : gset string)
    (p : string) (stack : list string) : list string :=
  foldl (λ stack d, if decide (d ∈ nodes) then stack else d :: stack)
        stack (elements (get_set deps p)).

Fixpoint closure_loop (fuel : nat) (deps : gmap string (gset string))
    (nodes : gset string) (stack : list string) : result (gset string) :=
  match fuel with
  | O => Err OutOfFuel
  | S fuel =>
      match stack with
      | [] => Ok nodes
      | p :: stack =>
          if decide (p ∈ nodes) then closure_loop fuel deps nodes stack
          else
            let nodes := nodes ∪ {[p]} in
            closure_loop fuel deps nodes (push_dependencies deps nodes p stack)
      end
  end.

(** Every package name the loop can meet: the seeds and the members of the
    dependency sets. *)
Definition closure_universe (deps : gmap string (gset string)) (seeds : list string)
    : gset string :=
  list_to_set seeds ∪ ⋃ ((map_to_list deps).*2).

(** The loop pops once per iteration; the bound below covers every run. *)
Definition closure_fuel (deps : gmap string (gset string)) (seeds : list string) : nat :=
  S (length seeds
     + size (closure_universe deps seeds) * S (size (closure_universe deps seeds))).

Definition closure (deps : gmap string (gset string)) (seeds : list string)
    : result (gset string) :=
  closure_loop (closure_fuel deps seeds) deps ∅ (reverse seeds).


(** [edges] of [show_dependency_graph]: the forward edges inside [nodes]. *)
Definition induced_edges (deps : gmap string (gset string)) (nodes : gset string)
    : list (string * string) :=
  src ← elements nodes ;
  dep ← elements (get_set deps src) ;
  if decide (dep ∈ nodes) then [(src, dep)] else [].

(** ** _build_dependency_scene: the layers *)

Definition lookup_key {V} (d : gmap string V) (k : string) : result V :=
  match d !! k with
  | Some v => Ok v
  | None => Err KeyError
  end.

(** [deps_map = {n: set() for n in nodes}; for s, d in edges: deps_map[s].add(d)] *)
Definition build_deps_map (nodes : gset string) (edges : list (string * string))
    : result (gmap string (gset string)) :=
  for_each edges
    (λ e deps_map, ds ← lookup_key deps_map e.1 ; Ok (<[e.1 := ds ∪ {[e.2]}]> deps_map))
    (gset_to_gmap ∅ nodes).

(** [indeg = {n: 0 for n in nodes}; for s in nodes: for d in deps_map[s]:
    indeg[d] += 1] *)
Definition build_indeg (nodes : gset string) (deps_map : gmap string (gset string))
    : result (gmap string Z) :=
  for_each (elements nodes)
    (λ s indeg,
       ds ← lookup_key deps_map s ;
       for_each (elements ds)
         (λ d indeg, k ← lookup_key indeg d ; Ok (<[d := (k + 1)%Z]> indeg))
         indeg)
    (gset_to_gmap 0%Z nodes).

Record peel_state := Peel {
  peel_indeg : gmap string Z;
  peel_seen : gset string;
  next_level : list string
}.

(** The body of [for v in deps_map[u]]. *)
Definition decrement (v : string) (st : peel_state) : result peel_state :=
  k ← lookup_key (peel_indeg st) v ;
  let k := (k - 1)%Z in
  Ok (Peel (<[v := k]> (peel_indeg st)) (peel_seen st)
           (if decide (k = 0%Z) then next_level st ++ [v] else next_level st)).

(** The body of [for u in current]. *)
Definition peel (deps_map : gmap string (gset string)) (u : string) (st : peel_state)
    : result peel_state :=
  let st := Peel (peel_indeg st) (peel_seen st ∪ {[u]}) (next_level st) in
  ds ← lookup_key deps_map u ;
  for_each (elements ds) decrement st.

(** [while current: ...] *)
Fixpoint layers_loop (fuel : nat) (deps_map : gmap string (gset string))
    (levels : list (list string)) (current : list string)
    (indeg : gmap string Z) (seen : gset string)
    : result (list (list string) * gset string) :=
  match fuel with
  | O => Err OutOfFuel
  | S fuel =>
      match current with
      | [] => Ok (levels, seen)
      | _ =>
          let levels := levels ++ [current] in
          st ← for_each current (peel deps_map) (Peel indeg seen []) ;
          layers_loop fuel deps_map levels (next_level st) (peel_indeg st) (peel_seen st)
      end
  end.

(** [levels] of [_build_dependency_scene].  Every pass of the loop peels at
    least one node that was not seen, so [S (size nodes)] passes are
    enough. *)
Definition topologicalLayers (nodes : gset string) (edges : list (string * string))
    : result (list (list string)) :=
  deps_map ← build_deps_map nodes edges ;
  indeg ← build_indeg nodes deps_map ;
  let current := filter (λ n, indeg !! n = Some 0%Z) (elements nodes) in
  ls ← layers_loop (S (size nodes)) deps_map [] current indeg ∅ ;
  let remain := filter (λ n, n ∉ ls.2) (elements nodes) in
  Ok (match remain with
      | [] => ls.1
      | _ => ls.1 ++ [remain]
      end).

(** ** _build_dependency_scene: the arrow heads *)

(** Scene coordinates.  The anchor points are sums of multiples of the
    spacings and of the node sizes (240, 80, 140, 18): they and their
    differences are exact in binary floating point, so the reals stand for
    them.  The length, the quotients and the corners of the arrow head are
    computed over the reals where the source rounds in binary64: the two
    agree where every operation is exact, as at coincident anchors, and not
    in general. *)
Record QPointF := Point { px : R; py : R }.

(** [a / b], [None] for Python's [ZeroDivisionError]. *)
Definition py_div (a b : R) : option R :=
  if Req_dec_T b 0 then None else Some (a / b)%R.

Definition arrow_length (start end_ : QPointF) : R :=
  let dx := (px end_ - px start)%R in
  let dy := (py end_ - py start)%R in
  Rmax (sqrt (dx * dx + dy * dy)) 1.

(** The [try] block of the edge loop: the polygon handed to [addPolygon],
    or [None] when an exception leaves [arrow_item = None]. *)
Definition arrowhead (start end_ : QPointF) : option (list QPointF) :=
  let dx := (px end_ - px start)%R in
  let dy := (py end_ - py start)%R in
  let length := arrow_length start end_ in
  ux ← py_div dx length ;
  uy ← py_div dy length ;
  let arrow_size := 8%R in
  let p1 := end_ in
  let p2 := Point (px end_ - ux * arrow_size - uy * arrow_size / 2)
                  (py end_ - uy * arrow_size + ux * arrow_size / 2) in
  let p3 := Point (px end_ - ux * arrow_size + uy * arrow_size / 2)
                  (py end_ - uy * arrow_size - ux * arrow_size / 2) in
  Some [p1; p2; p3].

(** ** DependencyGraphScene.update_node_highlights *)

Inductive highlight := incoming | outgoing.

Record node_item := NodeItem {
  isSelected : bool;
  is_initially_selected : bool;
  highlight_type : option highlight
}.

Definition set_highlight_type (h : option highlight) (item : node_item) : node_item :=
  NodeItem (isSelected item) (is_initially_selected item) h.

Record scene := Scene {
  node_items : gmap string node_item;
  scene_edges : list (string * string)
}.

(** The two sets collected by [for src, dest in self.edges]. *)
Definition incoming_nodes (edges : list (string * string)) (selected_node : string)
    : gset string :=
  foldl (λ acc e, if decide (e.2 = selected_node) then acc ∪ {[e.1]} else acc) ∅ edges.

Definition outgoing_nodes (edges : list (string * string)) (selected_node : string)
    : gset string :=
  foldl (λ acc e, if decide (e.1 = selected_node) then acc ∪ {[e.2]} else acc) ∅ edges.

Definition update_node_highlights (sc : scene) : scene :=
  let selected_nodes : gset string :=
    dom (filter (λ kv, isSelected kv.2 = true) (node_items sc)) in
  match elements selected_nodes with
  | [] => Scene (set_highlight_type None <$> node_items sc) (scene_edges sc)
  | selected_node :: _ =>
      let inc := incoming_nodes (scene_edges sc) selected_node in
      let out := outgoing_nodes (scene_edges sc) selected_node in
      Scene (map_imap (λ package_name item,
                         Some (if decide (package_name ∈ selected_nodes)
                               then set_highlight_type None item
                               else if decide (package_name ∈ inc)
                               then set_highlight_type (Some incoming) item
                               else if decide (package_name ∈ out)
                               then set_highlight_type (Some outgoing) item
                               else set_highlight_type None item))
                      (node_items sc))
            (scene_edges sc)
  end.

(** The class a node is drawn in: the branch [_update_colors] takes.  The
    initially selected and the plain node carry no highlight. *)
Inductive node_tag := focused | tag_incoming | tag_outgoing | tag_none.

Definition classify (item : node_item) : node_tag :=
  if isSelected item then focused
  else match highlight_type item with
       | Some incoming => tag_incoming
       | Some outgoing => tag_outgoing
       | None => tag_none
       end.

(** * Specification vocabulary *)

(** A forward edge of a dependency map: [p] depends on [d]. *)
Definition depends_on (deps : gmap string (gset string)) (p d : string) : Prop :=
  d ∈ get_set deps p.

(** Reachable in zero or more forward edges. *)
Definition reachable (deps : gmap string (gset string)) : relation string :=
  rtc (depends_on deps).

(** The state [refresh_packages] leaves: the three dicts have the same keys
    and every dependency set stays inside them. *)
Record gui_wf (s : gui) : Prop := GuiWf {
  wf_forward_dom : dom (package_dependencies s) = dom (package_checkboxes s);
  wf_reverse_dom : dom (reverse_dependencies s) = dom (package_checkboxes s);
  wf_forward_closed : ∀ p d, d ∈ get_set (package_dependencies s) p →
                             d ∈ dom (package_checkboxes s);
  wf_reverse_closed : ∀ p d, d ∈ get_set (reverse_dependencies s) p →
                             d ∈ dom (package_checkboxes s)
}.

Definition checked (s : gui) (p : string) : Prop :=
  package_checkboxes s !! p = Some true.

(** An edge list as a relation, cycles, and the layer a node is in. *)
Definition edge_of (edges : list (string * string)) (s d : string) : Prop :=
  (s, d) ∈ edges.

Definition on_cycle (edges : list (string * string)) (n : string) : Prop :=
  tc (edge_of edges) n n.

Definition acyclic (edges : list (string * string)) : Prop :=
  ∀ n, ¬ on_cycle edges n.

Definition induced (nodes : gset string) (edges : list (string * string)) : Prop :=
  ∀ s d, (s, d) ∈ edges → s ∈ nodes ∧ d ∈ nodes.

Definition in_layer (levels : list (list string)) (i : nat) (n : string) : Prop :=
  ∃ layer, levels !! i = Some layer ∧ n ∈ layer.

Definition in_final_layer (levels : list (list string)) (n : string) : Prop :=
  ∃ layer, last levels = Some layer ∧ n ∈ layer.

(** A manifest that [ET.parse] rejects with [ParseError], or that has no
    name element. *)
Definition malformed (f : manifest_file) : Prop :=
  content f = ParseError ∨
  ∃ children, content f = Tree children ∧ find "name" children = None.

(** A manifest on which [ET.parse] returns or raises [ParseError]: the scan
    gets past it. *)
Definition readable (f : manifest_file) : Prop :=
  match content f with
  | Raises _ => False
  | _ => True
  end.

(** * Invariants used in the proofs *)

(** What the first pass knows after any prefix of the walk. *)
Record scan_inv (sc : scan) : Prop := ScanInv {
  scan_parsed : ∀ p f, available_packages sc !! p = Some f →
                  ∃ children, content f = Tree children;
  scan_keys : dom (available_packages sc) = list_to_set (available_order sc);
  scan_nodup : NoDup (available_order sc);
  scan_fwd_dom : dom (scan_dependencies sc) = dom (available_packages sc);
  scan_rev_dom : dom (scan_reverse sc) = dom (available_packages sc);
  scan_fwd_empty : ∀ p, get_set (scan_dependencies sc) p = ∅;
  scan_rev_empty : ∀ p, get_set (scan_reverse sc) p = ∅
}.

(** The state of the second pass after the packages [done]. *)
Record second_inv (avail : gmap string manifest_file) (done : list string)
    (st : gmap string (gset string) * gmap string (gset string)) : Prop := SecondInv {
  second_fwd_dom : dom st.1 = dom avail;
  second_rev_dom : dom st.2 = dom avail;
  second_fwd_done : ∀ p f, p ∈ done → avail !! p = Some f →
                    ∃ deps, get_package_dependencies f = Ok deps ∧
                            get_set st.1 p = deps ∩ dom avail;
  second_fwd_todo : ∀ p, p ∉ done → get_set st.1 p = ∅;
  second_transpose : ∀ a b, a ∈ get_set st.2 b ↔ b ∈ get_set st.1 a
}.

(** The packages reachable from one of the seeds. *)
Definition reachable_from (deps : gmap string (gset string)) (seeds : list string)
    (x : string) : Prop :=
  ∃ s, s ∈ seeds ∧ reachable deps s x.

(** [F] is the one node of the scene that is selected (the scene supports a
    single selection). *)
Definition only_selected (items : gmap string node_item) (F : string) : Prop :=
  (∃ item, items !! F = Some item ∧ isSelected item = true) ∧
  ∀ n item, items !! n = Some item → isSelected item = true → n = F.

(** The predecessors of [v] among [nodes] that are not in [S], and their
    number: the in-degree [v] has once the nodes of [S] are peeled. *)
Definition preds_left (deps_map : gmap string (gset string)) (nodes S : gset string)
    (v : string) : gset string :=
  filter (λ u, v ∈ get_set deps_map u) (nodes ∖ S).

Definition cnt (deps_map : gmap string (gset string)) (nodes S : gset string)
    (v : string) : nat :=
  size (preds_left deps_map nodes S v).

(** The state of the peeling between two nodes: [pending] are the nodes of
    in-degree zero that wait (the rest of [current], then [next_level]). *)
Record peel_inv (deps_map : gmap string (gset string)) (nodes : gset string)
    (st_indeg : gmap string Z) (st_seen : gset string) (pending : list string)
    : Prop := PeelInv {
  peel_seen_nodes : st_seen ⊆ nodes;
  peel_indeg_dom : dom st_indeg = nodes;
  peel_indeg_cnt : ∀ v, v ∈ nodes →
                   st_indeg !! v = Some (Z.of_nat (cnt deps_map nodes st_seen v));
  peel_pending_nodup : NoDup pending;
  peel_pending_fresh : ∀ v, v ∈ pending → v ∈ nodes ∧ v ∉ st_seen;
  peel_zero : ∀ v, v ∈ nodes →
              (cnt deps_map nodes st_seen v = 0%nat ↔ v ∈ st_seen ∨ v ∈ pending)
}.

(** The layers made so far are the nodes seen, each in one layer, and every
    edge into a layer comes from an earlier one. *)
Record levels_inv (edges : list (string * string)) (levels : list (list string))
    (st_seen : gset string) : Prop := LevelsInv {
  levels_seen : ∀ n, n ∈ st_seen ↔ ∃ i, in_layer levels i n;
  levels_unique : ∀ i j n, in_layer levels i n → in_layer levels j n → i = j;
  levels_rank : ∀ j s d, in_layer levels j d → (s, d) ∈ edges →
                ∃ i, (i < j)%nat ∧ in_layer levels i s
}.

(** What [topologicalLayers] returns, in terms of the layers peeled by the
    loop and of the nodes it saw: the peeled layers, then the nodes never
    seen as one more layer when there are any. *)
Record layering (nodes : gset string) (edges : list (string * string))
    (levels peeled : list (list string)) (st_seen : gset string) : Prop := Layering {
  layering_inv : levels_inv edges peeled st_seen;
  layering_seen_nodes : st_seen ⊆ nodes;
  layering_stuck : ∀ v, v ∈ nodes → v ∉ st_seen →
                   ∃ s, (s, v) ∈ edges ∧ s ∈ nodes ∧ s ∉ st_seen;
  layering_levels :
    levels = match filter (λ n, n ∉ st_seen) (elements nodes) with
             | [] => peeled
             | remain => peeled ++ [remain]
             end
}.

(** The graph X→Y, Y→X, X→Z: a cycle with a node hanging from it. *)
Definition cycle_tail_nodes : gset string := {["X"; "Y"; "Z"]}.

Definition cycle_tail_edges : list (string * string) :=
  [("X", "Y"); ("Y", "X"); ("X", "Z")].

(** The packages whose check box is in state [b]. *)
Definition boxes_in (b : bool) (s : gui) : gset string :=
  dom (filter (λ kv : string * bool, kv.2 = b) (package_checkboxes s)).

Record same_graph (s s' : gui) : Prop := SameGraph {
  same_forward : package_dependencies s' = package_dependencies s;
  same_reverse : reverse_dependencies s' = reverse_dependencies s;
  same_boxes : dom (package_checkboxes s') = dom (package_checkboxes s)
}.

(** What a propagation towards state [b] does to the window: the graph and
    the set of boxes stay, a box in state [b] stays in state [b], and the
    trace grows by one call of direction [b] for each box that changed. *)
Record propagated (b : bool) (s s' : gui) : Prop := Propagated {
  prop_graph : same_graph s s';
  prop_keeps : ∀ q, package_checkboxes s !! q = Some b →
                    package_checkboxes s' !! q = Some b;
  prop_calls : ∃ new, top_level_calls s' = top_level_calls s ++ new ∧
                      (∀ e, e ∈ new → e.2 = b) ∧
                      (length new + size (boxes_in (negb b) s')
                       = size (boxes_in (negb b) s))%nat
}.

(** What [select_dependencies] has done when it returns [r] from the
    state [s] with [v] visited. *)
Record select_post (s : gui) (v : gset string) (r : gset string * gui) : Prop :=
  SelectPost {
  sel_propagated : propagated true s r.2;
  sel_visited : v ⊆ r.1;
  sel_checked : ∀ q, q ∈ r.1 → q ∉ v → checked r.2 q;
  sel_closed : ∀ q d, q ∈ r.1 → q ∉ v →
                 d ∈ get_set (package_dependencies s) q → d ∈ r.1;
  sel_bound : r.1 ⊆ v ∪ dom (package_checkboxes s)
}.

(** What [deselect_dependent_packages] has done when it returns [r] from the
    state [s] with [v] visited.  The packages in [roots] are those the call
    was made for: it visits them and leaves their own box alone. *)
Record deselect_post (s : gui) (v roots : gset string) (r : gset string * gui)
    : Prop := DeselectPost {
  des_propagated : propagated false s r.2;
  des_visited : v ⊆ r.1;
  des_unchecked : ∀ q, q ∈ r.1 → q ∉ v → q ∉ roots →
                    package_checkboxes r.2 !! q = Some false;
  des_closed : ∀ q d, q ∈ r.1 → q ∉ v →
                 d ∈ get_set (reverse_dependencies s) q → d ∈ r.1
}.


(** The workspace of the first scenario: A depends on B, B depends on C. *)
Definition scenario_walk : list manifest_file :=
  [ Manifest "src/a/package.xml"
      (Tree [Element "name" (Some "A"); Element "depend" (Some "B")]);
    Manifest "src/b/package.xml"
      (Tree [Element "name" (Some "B"); Element "depend" (Some "C")]);
    Manifest "src/c/package.xml" (Tree [Element "name" (Some "C")]) ].

(** The window after scanning it with nothing selected before. *)
Definition scenario_gui : gui :=
  Gui {[ "A" := false; "B" := false; "C" := false ]}
      {[ "A" := {[ "B" ]}; "B" := {[ "C" ]}; "C" := ∅ ]}
      {[ "A" := ∅; "B" := {[ "A" ]}; "C" := {[ "B" ]} ]}
      [].

(** A manifest that is not XML, and a scene of four nodes with B selected. *)
Definition broken_manifest : manifest_file :=
  Manifest "src/broken/package.xml" ParseError.

(** A manifest whose XML declaration names an encoding Python does not
    know ([encoding="bogus"]): [ET.parse] raises [LookupError]. *)
Definition undecodable_manifest : manifest_file :=
  Manifest "src/undecodable/package.xml" (Raises LookupError).

Definition focus_B_items : gmap string node_item :=
  {[ "A" := NodeItem false false None;
     "B" := NodeItem true true None;
     "C" := NodeItem false true (Some incoming);
     "D" := NodeItem false false (Some outgoing) ]}.

Definition chain_nodes : gset string := {[ "A"; "B"; "C" ]}.

Definition chain_edges : list (string * string) := [("A", "B"); ("B", "C")].

(** Reachable in zero or more reverse edges: [q] depends on [p], directly or
    through other packages. *)
Definition dependents_of (s : gui) : relation string :=
  rtc (depends_on (reverse_dependencies s)).

(** [s'] differs from [s] only in boxes that satisfy [Q]. *)
Definition frame (Q : string → Prop) (s s' : gui) : Prop :=
  same_graph s s' ∧
  ∀ q, package_checkboxes s' !! q ≠ package_checkboxes s !! q → Q q.

(** ** select_all_packages, deselect_all_packages *)

(** Python's [sorted] on a list of strings. *)
Definition sorted (l : list string) : list string := merge_sort String.le l.

(** The key order of [self.package_checkboxes]: [refresh_packages] fills the
    dict in the order of [sorted(available_packages.keys())]. *)
Definition checkbox_order (s : gui) : list string :=
  sorted (elements (dom (package_checkboxes s))).

(** [for checkbox in self.package_checkboxes.values(): checkbox.setChecked(b)];
    every [setChecked] may start propagations through the handler. *)
Definition set_all_packages (fuel : nat) (b : bool) (s : gui) : result gui :=
  for_each (checkbox_order s) (λ package_name s, setChecked fuel package_name b s) s.

Definition select_all_packages (fuel : nat) (s : gui) : result gui :=
  set_all_packages fuel true s.

Definition deselect_all_packages (fuel : nat) (s : gui) : result gui :=
  set_all_packages fuel false s.

(** The selection is closed under dependencies: a ticked package has all
    its dependencies ticked. *)
Definition dependency_closed (s : gui) : Prop :=
  ∀ a b, checked s a → b ∈ get_set (package_dependencies s) a → checked s b.

(** The reverse map is the transpose of the forward map. *)
Definition transposed (s : gui) : Prop :=
  ∀ a b, a ∈ get_set (reverse_dependencies s) b ↔
         b ∈ get_set (package_dependencies s) a.

(** ** Reading the scan back *)

(** The manifest whose dependencies count for the name [n]: the last one in
    the walk that declares it. *)
Definition manifest_of (walk : list manifest_file) (n : string) : option manifest_file :=
  last (filter (λ f, get_package_name_from_xml f = Ok (Some n)) walk).

(** [[pkg for pkg, cb in self.package_checkboxes.items() if cb.isChecked()]]:
    the list [save_config] stores as [last_selected_packages]. *)
Definition selected_packages (s : gui) : list string :=
  filter (λ pkg, package_checkboxes s !! pkg = Some true) (checkbox_order s).

(** ** show_dependency_graph *)

(** [nodes] of [show_dependency_graph]: the closure of the ticked packages,
    or every package when none is ticked. *)
Definition graph_nodes (s : gui) : result (gset string) :=
  match selected_packages s with
  | [] => Ok (dom (package_checkboxes s))
  | selected => closure (package_dependencies s) selected
  end.

(** [show_dependency_graph] from the line that collects [selected] to the
    [levels] of the scene it builds (the graph is taken as scanned: the
    rescan of an empty graph is left out). *)
Definition dependency_graph_layers (s : gui) : result (list (list string)) :=
  nodes ← graph_nodes s ;
  topologicalLayers nodes (induced_edges (package_dependencies s) nodes).

(** The peeled layers are tight: none is empty or repeats a node, and every
    node of a layer but the first has a predecessor in the layer just
    before. *)
Record layers_tight (edges : list (string * string)) (peeled : list (list string))
    : Prop := LayersTight {
  tight_nonempty : ∀ layer, layer ∈ peeled → layer ≠ [];
  tight_nodup : ∀ layer, layer ∈ peeled → NoDup layer;
  tight_pred : ∀ j v, in_layer peeled (S j) v →
                 ∃ u, in_layer peeled j u ∧ (u, v) ∈ edges
}.

(** ** The edges of the scene *)

(** The pens an edge is drawn with: the default colour of the theme, the
    yellow of the edges into the selected node, the red of the edges out of
    it. *)
Inductive edge_color := default_color | yellow_color | red_color.

(** An entry of [scene.edge_items]: the two ends, and the pen of the line
    (the arrow head gets the same pen). *)
Record edge_item := EdgeItem {
  edge_src : string;
  edge_dest : string;
  pen_color : edge_color;
  pen_width : nat
}.

Definition set_pen (c : edge_color) (w : nat) (e : edge_item) : edge_item :=
  EdgeItem (edge_src e) (edge_dest e) c w.

(** [_reset_edge_colors] *)
Definition _reset_edge_colors (edge_items : list edge_item) : list edge_item :=
  set_pen default_color 1 <$> edge_items.

(** [_update_edge_colors] *)
Definition _update_edge_colors (selected_node : string)
    (incoming_nodes outgoing_nodes : gset string) (edge_items : list edge_item)
    : list edge_item :=
  (λ e, if decide (edge_dest e = selected_node ∧ edge_src e ∈ incoming_nodes)
        then set_pen yellow_color 2 e
        else if decide (edge_src e = selected_node ∧ edge_dest e ∈ outgoing_nodes)
        then set_pen red_color 2 e
        else set_pen default_color 1 e) <$> edge_items.

(** What [update_node_highlights] does to the edge items: its calls of
    [_reset_edge_colors] and [_update_edge_colors]. *)
Definition update_edge_highlights (sc : scene) (edge_items : list edge_item)
    : list edge_item :=
  let selected_nodes : gset string :=
    dom (filter (λ kv, isSelected kv.2 = true) (node_items sc)) in
  match elements selected_nodes with
  | [] => _reset_edge_colors edge_items
  | selected_node :: _ =>
      _update_edge_colors selected_node
        (incoming_nodes (scene_edges sc) selected_node)
        (outgoing_nodes (scene_edges sc) selected_node) edge_items
  end.

(** ** _build_dependency_scene: positions *)

Definition X_SPACING : nat := 240.
Definition Y_SPACING : nat := 80.
Definition RECT_W : nat := 140.
Definition RECT_H : nat := 36.

(** Python's [enumerate]. *)
Definition enumerate {A} (l : list A) : list (nat * A) := zip (seq 0 (length l)) l.

(** [for j, n in enumerate(sorted(layer)): pos[n] = QPointF(i * X_SPACING,
    j * Y_SPACING)], the coordinates kept as the integers they are. *)
Definition layer_positions (i : nat) (layer : list string)
    (pos : gmap string (nat * nat)) : gmap string (nat * nat) :=
  foldl (λ pos jn, <[jn.2 := (i * X_SPACING, jn.1 * Y_SPACING)]> pos)
        pos (enumerate (sorted layer)).

(** [pos] of [_build_dependency_scene] *)
Definition node_positions (levels : list (list string)) : gmap string (nat * nat) :=
  foldl (λ pos il, layer_positions il.1 il.2 pos) ∅ (enumerate levels).

(** ** Concrete windows and scenes *)

(** The window of the scenario with every box ticked. *)
Definition scenario_gui_selected : gui :=
  Gui {[ "A" := true; "B" := true; "C" := true ]}
      {[ "A" := {[ "B" ]}; "B" := {[ "C" ]}; "C" := ∅ ]}
      {[ "A" := ∅; "B" := {[ "A" ]}; "C" := {[ "B" ]} ]}
      [].

(** A scene of three nodes, none selected, with highlights left over from
    an earlier selection, and the edge items of the chain. *)
Definition unfocused_items : gmap string node_item :=
  {[ "A" := NodeItem false false (Some incoming);
     "B" := NodeItem false true (Some outgoing);
     "C" := NodeItem false false None ]}.

Definition chain_edge_items : list edge_item :=
  [EdgeItem "A" "B" yellow_color 2; EdgeItem "B" "C" red_color 2].

(** The depth of a package of the scenario above the package without
    dependency. *)
Definition scenario_rank (p : string) : nat :=
  if decide (p = "A") then 2 else if decide (p = "B") then 1 else 0.

(** * Proofs *)

Local Open Scope nat_scope.

(** ** The error monad *)

Lemma bind_Ok {A B} (m : result A) (k : A → result B) (b : B) :
  m ≫= k = Ok b ↔ ∃ a, m = Ok a ∧ k a = Ok b.
Proof.
  destruct m as [a|e]; simpl; split.
  - eauto.
  - by intros (? & [= ->] & ?).
  - done.
  - by intros (? & ? & ?).
Qed.

Lemma bind_Ok_l {A B} (a : A) (k : A → result B) : Ok a ≫= k = k a.
Proof. done. Qed.

Lemma for_each_app {A S} (l1 l2 : list A) (body : A → S → result S) (s : S) :
  for_each (l1 ++ l2) body s = for_each l1 body s ≫= for_each l2 body.
Proof.
  revert s. induction l1 as [|x l1 IH]; intros s; simpl; [done|].
  destruct (body x s); simpl; auto.
Qed.

(** ** refresh_packages *)

Section refresh.

Implicit Types (walk : list manifest_file) (sc : scan) (f : manifest_file).


Lemma get_set_insert d k v k' :
  get_set (<[k := v]> d) k' = if decide (k = k') then v else get_set d k'.
Proof.
  unfold get_set. rewrite lookup_insert. by destruct (decide (k = k')).
Qed.

Lemma get_set_elem d k x : x ∈ get_set d k ↔ ∃ v, d !! k = Some v ∧ x ∈ v.
Proof.
  unfold get_set. destruct (d !! k) as [v|]; simpl.
  - naive_solver.
  - split; [set_solver | by intros (? & ? & ?)].
Qed.

Lemma scan_inv_empty : scan_inv scan_empty.
Proof.
  split; simpl; try set_solver; try apply NoDup_nil_2.
Qed.

Lemma get_package_name_Tree f n :
  get_package_name_from_xml f = Ok (Some n) → ∃ children, content f = Tree children.
Proof. unfold get_package_name_from_xml. destruct (content f); [done|eauto|done]. Qed.

Lemma get_package_name_Err f e :
  get_package_name_from_xml f = Err e ↔ content f = Raises e.
Proof.
  unfold get_package_name_from_xml. destruct (content f) as [|children|e'].
  - done.
  - by destruct (find "name" children).
  - split; by intros [= ->].
Qed.

Lemma get_package_name_readable f :
  readable f → ∃ o, get_package_name_from_xml f = Ok o.
Proof.
  unfold readable, get_package_name_from_xml.
  destruct (content f) as [|children|e]; [eauto| |done].
  destruct (find "name" children); eauto.
Qed.

Lemma get_package_dependencies_Tree f children :
  content f = Tree children → ∃ deps, get_package_dependencies f = Ok deps.
Proof. unfold get_package_dependencies. intros ->. eauto. Qed.

Lemma first_pass_step_Ok sc f sc' :
  first_pass_step sc f = Ok sc' ↔
  ∃ o, get_package_name_from_xml f = Ok o ∧
       sc' = match o with
             | Some n =>
                 if truthy (Some n) then
                   Scan (<[n := f]> (available_packages sc))
                        (if decide (n ∈ available_order sc)
                         then available_order sc
                         else available_order sc ++ [n])
                        (<[n := ∅]> (scan_dependencies sc))
                        (<[n := ∅]> (scan_reverse sc))
                 else sc
             | None => sc
             end.
Proof.
  unfold first_pass_step. rewrite bind_Ok. split.
  - intros (o & Ho & [= <-]). eauto.
  - intros (o & Ho & ->). eauto.
Qed.

Lemma first_pass_step_inv sc f sc' :
  scan_inv sc → first_pass_step sc f = Ok sc' → scan_inv sc'.
Proof.
  intros [Hp Hk Hn Hf Hr Hfe Hre] (o & Ho & ->)%first_pass_step_Ok.
  destruct o as [n|]; [|by split].
  destruct (truthy (Some n)); [|by split].
  split; simpl.
  - intros q g. rewrite lookup_insert_Some.
    intros [[<- <-]|[_ Hg]]; [by eapply get_package_name_Tree|by eapply Hp].
  - rewrite dom_insert_L Hk. destruct (decide (n ∈ available_order sc)).
    + set_solver.
    + rewrite list_to_set_app_L. set_solver.
  - destruct (decide (n ∈ available_order sc)); [done|].
    apply NoDup_app. split_and!; [done| |apply NoDup_singleton].
    intros x Hx Hx'%list_elem_of_singleton. by subst.
  - by rewrite !dom_insert_L Hf.
  - by rewrite !dom_insert_L Hr.
  - intros q. rewrite get_set_insert. by destruct (decide (n = q)).
  - intros q. rewrite get_set_insert. by destruct (decide (n = q)).
Qed.

Lemma for_each_first_pass_inv walk sc sc' :
  scan_inv sc → for_each walk (λ f sc, first_pass_step sc f) sc = Ok sc' → scan_inv sc'.
Proof.
  revert sc. induction walk as [|f walk IH]; intros sc H; simpl.
  - by intros [= <-].
  - intros (sc1 & H1 & H2)%bind_Ok. eapply IH; [|done]. by eapply first_pass_step_inv.
Qed.

Lemma first_pass_inv walk sc : first_pass walk = Ok sc → scan_inv sc.
Proof. apply for_each_first_pass_inv, scan_inv_empty. Qed.

(** The names the first pass keeps are those of the manifests that parse to
    a non-empty name. *)
Lemma for_each_first_pass_names walk sc sc' n :
  for_each walk (λ f sc, first_pass_step sc f) sc = Ok sc' →
  n ∈ dom (available_packages sc') ↔
  n ∈ dom (available_packages sc) ∨
  ∃ f, f ∈ walk ∧ get_package_name_from_xml f = Ok (Some n) ∧ truthy (Some n) = true.
Proof.
  revert sc. induction walk as [|f walk IH]; intros sc; simpl.
  - intros [= <-]. split; [auto|]. intros [?|(? & ?%elem_of_nil & ?)]; done.
  - intros (sc1 & (o & Hm & ->)%first_pass_step_Ok & H2)%bind_Ok. rewrite (IH _ H2).
    destruct o as [m|].
    + destruct (truthy (Some m)) eqn:Ht; simpl.
      * rewrite dom_insert_L. split.
        -- intros [[->%elem_of_singleton|?]%elem_of_union|(g & ? & ?)].
           ++ right. exists f. split; [left|done].
           ++ by left.
           ++ right. exists g. split; [by right|done].
        -- intros [?|(g & [->|?]%elem_of_cons & Hg & ?)].
           ++ left. set_solver.
           ++ left. rewrite Hm in Hg. injection Hg as ->. set_solver.
           ++ right. eauto.
      * split.
        -- intros [?|(g & ? & ?)]; [by left|]. right. exists g. split; [by right|done].
        -- intros [?|(g & [->|?]%elem_of_cons & Hg & Hg')]; [by left| |right; eauto].
           rewrite Hm in Hg. injection Hg as <-. simpl in Ht. congruence.
    + split.
      * intros [?|(g & ? & ?)]; [by left|]. right. exists g. split; [by right|done].
      * intros [?|(g & [->|?]%elem_of_cons & Hg & Hg')]; [by left| |right; eauto].
        congruence.
Qed.

(** The first pass ends on manifests [ET.parse] gets past, and stops at the
    first one it does not. *)
Lemma for_each_first_pass_total walk sc :
  Forall readable walk → ∃ sc', for_each walk (λ f sc, first_pass_step sc f) sc = Ok sc'.
Proof.
  revert sc. induction walk as [|f walk IH]; intros sc Hw; cbn [for_each]; [eauto|].
  apply Forall_cons in Hw as [Hf Hw].
  destruct (get_package_name_readable f Hf) as (o & Ho).
  assert (∃ sc1, first_pass_step sc f = Ok sc1) as [sc1 ->]
    by (unfold first_pass_step; rewrite Ho; simpl; eauto).
  rewrite bind_Ok_l. apply IH, Hw.
Qed.

Lemma for_each_first_pass_aborts w1 f e w2 sc :
  Forall readable w1 → content f = Raises e →
  for_each (w1 ++ f :: w2) (λ f sc, first_pass_step sc f) sc = Err e.
Proof.
  intros Hw Hf. rewrite for_each_app.
  destruct (for_each_first_pass_total w1 sc Hw) as (sc1 & ->).
  rewrite bind_Ok_l. cbn [for_each].
  apply get_package_name_Err in Hf. unfold first_pass_step. by rewrite Hf.
Qed.

Lemma for_each_first_pass_Err walk sc e :
  for_each walk (λ f sc, first_pass_step sc f) sc = Err e →
  ∃ f, f ∈ walk ∧ content f = Raises e.
Proof.
  revert sc. induction walk as [|f walk IH]; intros sc; cbn [for_each]; [done|].
  destruct (first_pass_step sc f) as [sc1|e'] eqn:Hstep; simpl.
  - intros (g & Hg & He)%IH. exists g. split; [by right|done].
  - intros [= ->]. exists f. split; [left|].
    unfold first_pass_step in Hstep.
    destruct (get_package_name_from_xml f) as [o|e'] eqn:Ho; [done|].
    simpl in Hstep. injection Hstep as ->. by apply get_package_name_Err.
Qed.

(** [for dep in workspace_deps: self.reverse_dependencies[dep].add(package_name)] *)
Lemma for_each_reverse_add p (l : list string) (rev : gmap string (gset string)) :
  (∀ d, d ∈ l → d ∈ dom rev) →
  ∃ rev', for_each l (reverse_add p) rev = Ok rev' ∧
          dom rev' = dom rev ∧
          ∀ d, get_set rev' d =
               if decide (d ∈ l) then get_set rev d ∪ {[p]} else get_set rev d.
Proof.
  revert rev. induction l as [|x l IH]; intros rev Hl; simpl.
  - exists rev. split_and!; [done..|]. intros d.
    destruct (decide (d ∈ [])) as [?%elem_of_nil|]; done.
  - assert (x ∈ dom rev) as [s Hs]%elem_of_dom by (apply Hl; left).
    assert (reverse_add p x rev = Ok (<[x := s ∪ {[p]}]> rev)) as ->
      by (unfold reverse_add; by rewrite Hs).
    simpl.
    destruct (IH (<[x := s ∪ {[p]}]> rev)) as (rev' & Hrun & Hdom & Hget).
    { intros d Hd. rewrite dom_insert_L. apply elem_of_union_r, Hl. by right. }
    exists rev'. split_and!; [done| |].
    + rewrite Hdom dom_insert_L. apply elem_of_dom_2 in Hs. set_solver.
    + intros d. rewrite Hget get_set_insert.
      assert (get_set rev x = s) as Hx by (unfold get_set; by rewrite Hs).
      clear Hs Hget Hrun. subst s. repeat case_decide; subst; set_solver.
Qed.

Lemma second_pass_step_inv avail done p st :
  (∀ q f, avail !! q = Some f → ∃ children, content f = Tree children) →
  p ∈ dom avail → p ∉ done → second_inv avail done st →
  ∃ st', second_pass_step avail p st = Ok st' ∧ second_inv avail (done ++ [p]) st'.
Proof.
  intros Hparsed [f Hf]%elem_of_dom Hp [Hfd Hrd Hdone Htodo Htr].
  unfold second_pass_step. rewrite Hf.
  destruct (Hparsed p f Hf) as (children & Hc).
  destruct (get_package_dependencies_Tree f children Hc) as (deps & Hdeps).
  rewrite Hdeps bind_Ok_l. cbv zeta.
  set (W := deps ∩ dom avail).
  destruct (for_each_reverse_add p (elements W) st.2) as (rev' & -> & Hdom & Hget).
  { intros d Hd%elem_of_elements. rewrite Hrd. set_solver. }
  simpl. eexists. split; [done|]. split; simpl.
  - rewrite dom_insert_L Hfd. apply elem_of_dom_2 in Hf. set_solver.
  - by rewrite Hdom.
  - intros q g [Hq|Hq%list_elem_of_singleton]%elem_of_app Hg; rewrite get_set_insert.
    + destruct (decide (p = q)) as [->|]; [|by eapply Hdone].
      simplify_eq. exists deps. by split.
    + subst q. rewrite decide_True //. simplify_eq. exists deps. by split.
  - intros q Hq. rewrite get_set_insert.
    destruct (decide (p = q)) as [->|]; [|apply Htodo; set_solver].
    exfalso. apply Hq. set_solver.
  - intros a b. rewrite Hget !get_set_insert.
    specialize (Htodo p Hp).
    destruct (decide (b ∈ elements W)) as [Hb|Hb], (decide (p = a)) as [->|Hne];
      rewrite ?elem_of_elements in Hb; rewrite ?elem_of_union ?elem_of_singleton ?Htr;
      try (rewrite Htodo); try set_solver.
Qed.

Lemma for_each_second_pass avail l done st :
  (∀ q f, avail !! q = Some f → ∃ children, content f = Tree children) →
  NoDup (done ++ l) → (∀ p, p ∈ l → p ∈ dom avail) → second_inv avail done st →
  ∃ st', for_each l (second_pass_step avail) st = Ok st' ∧
         second_inv avail (done ++ l) st'.
Proof.
  intros Hparsed.
  revert done st. induction l as [|p l IH]; intros done st Hnd Hl Hinv; simpl.
  - exists st. by rewrite app_nil_r.
  - destruct (second_pass_step_inv avail done p st) as (st1 & -> & Hinv1); [done|..|done|].
    { apply Hl. left. }
    { apply NoDup_app in Hnd as (_ & Hd & _). intros ?. eapply Hd; [done|left]. }
    simpl. destruct (IH (done ++ [p]) st1) as (st' & -> & Hinv').
    + by rewrite -assoc.
    + intros q Hq. apply Hl. by right.
    + done.
    + exists st'. split; [done|]. by rewrite -assoc in Hinv'.
Qed.

Lemma dom_make_checkboxes names last :
  dom (make_checkboxes names last) = list_to_set names.
Proof.
  unfold make_checkboxes.
  enough (∀ m : gmap string bool,
    dom (foldl (λ cbs n, <[n := bool_decide (n ∈ last)]> cbs) m names)
    = dom m ∪ list_to_set names) as ->; [set_solver|].
  induction names as [|n names IH]; intros m; simpl; [set_solver|].
  rewrite IH dom_insert_L. set_solver.
Qed.

(** The whole of [refresh_packages] once the first pass has got past every
    manifest: the rest never raises, and its result is described by the
    manifests that parse. *)
Lemma refresh_packages_spec walk last sc :
  first_pass walk = Ok sc →
  ∃ s, refresh_packages walk last = Ok s ∧
       let avail := available_packages sc in
       dom (package_checkboxes s) = dom avail ∧
       dom (package_dependencies s) = dom avail ∧
       dom (reverse_dependencies s) = dom avail ∧
       (∀ p f, avail !! p = Some f →
          ∃ deps, get_package_dependencies f = Ok deps ∧
                  get_set (package_dependencies s) p = deps ∩ dom avail) ∧
       (∀ a b, a ∈ get_set (reverse_dependencies s) b ↔
               b ∈ get_set (package_dependencies s) a) ∧
       top_level_calls s = [] ∧
       package_checkboxes s = make_checkboxes (available_order sc) last.
Proof.
  intros Hsc. unfold refresh_packages. rewrite Hsc bind_Ok_l.
  pose proof (first_pass_inv walk sc Hsc) as [Hp Hk Hn Hf Hr Hfe Hre].
  destruct (for_each_second_pass (available_packages sc) (available_order sc) []
              (scan_dependencies sc, scan_reverse sc)) as ([fwd rev] & -> & Hinv).
  - done.
  - done.
  - intros p Hp'. rewrite Hk. set_solver.
  - split; simpl; [done|done| |done|].
    + intros p f Hp'. by apply elem_of_nil in Hp'.
    + intros a b. rewrite Hfe Hre. set_solver.
  - simpl in Hinv. destruct Hinv as [Hfd Hrd Hdone _ Htr]. simpl in *.
    eexists. split; [done|]. simpl. split_and!; try done.
    + by rewrite dom_make_checkboxes.
    + intros p f Hp'. eapply Hdone; [|done].
      apply elem_of_dom_2 in Hp'. rewrite Hk in Hp'. set_solver.
Qed.

Lemma refresh_packages_Ok walk last s :
  refresh_packages walk last = Ok s → ∃ sc, first_pass walk = Ok sc.
Proof. unfold refresh_packages. intros (sc & Hsc & _)%bind_Ok. eauto. Qed.

(** The scan returns on manifests [ET.parse] gets past; it aborts on the
    first manifest on which [ET.parse] raises another exception than
    [ParseError], with that exception, and raises nothing else. *)
Lemma refresh_packages_total walk last :
  Forall readable walk → ∃ s, refresh_packages walk last = Ok s.
Proof.
  intros Hw. destruct (for_each_first_pass_total walk scan_empty Hw) as (sc & Hsc).
  destruct (refresh_packages_spec walk last sc Hsc) as (s & Hs & _). eauto.
Qed.

Lemma refresh_packages_aborts w1 f e w2 last :
  Forall readable w1 → content f = Raises e →
  refresh_packages (w1 ++ f :: w2) last = Err e.
Proof.
  intros Hw Hf. unfold refresh_packages, first_pass.
  by rewrite (for_each_first_pass_aborts w1 f e w2 scan_empty Hw Hf).
Qed.

Lemma refresh_packages_Err walk last e :
  refresh_packages walk last = Err e → ∃ f, f ∈ walk ∧ content f = Raises e.
Proof.
  intros He. destruct (first_pass walk) as [sc|e'] eqn:Hsc.
  - destruct (refresh_packages_spec walk last sc Hsc) as (s & Hs & _). congruence.
  - unfold refresh_packages in He. rewrite Hsc in He. injection He as ->.
    by eapply for_each_first_pass_Err.
Qed.

Lemma refresh_packages_wf walk last s :
  refresh_packages walk last = Ok s → gui_wf s.
Proof.
  intros Hs. destruct (refresh_packages_Ok walk last s Hs) as (sc & Hsc).
  destruct (refresh_packages_spec walk last sc Hsc) as (s' & Hs' & H).
  rewrite Hs in Hs'. injection Hs' as <-. simpl in H.
  destruct H as (Hc & Hf & Hr & Hdeps & Htr & _).
  split.
  - by rewrite Hf Hc.
  - by rewrite Hr Hc.
  - intros p d Hd. rewrite Hc.
    assert (p ∈ dom (package_dependencies s)) as Hp.
    { apply get_set_elem in Hd as (? & ?%elem_of_dom_2 & _). done. }
    rewrite Hf in Hp. apply elem_of_dom in Hp as [f Hp].
    destruct (Hdeps p f Hp) as (deps & _ & Heq). rewrite Heq in Hd. set_solver.
  - intros p d Hd%Htr. rewrite Hc -Hf.
    apply get_set_elem in Hd as (? & ?%elem_of_dom_2 & _). done.
Qed.

End refresh.

(** C8: after [refresh_packages] on parsed manifests (each one a document
    [ET.parse] returned or rejected with [ParseError]), the reverse map is
    the transpose of the forward map ([a] is in [reverse[b]] exactly when [b]
    is in [forward[a]], an absent entry read as the empty set), the two maps
    have the same keys, and these keys are the names of the manifests that
    parse to a name. *)
Theorem refresh_reverse_is_transpose (walk : list manifest_file) (last : list string) :
  Forall readable walk →
  ∃ s, refresh_packages walk last = Ok s ∧
       (∀ a b, a ∈ get_set (reverse_dependencies s) b ↔
               b ∈ get_set (package_dependencies s) a) ∧
       dom (reverse_dependencies s) = dom (package_dependencies s) ∧
       (∀ p, p ∈ dom (package_dependencies s) ↔
             ∃ f, f ∈ walk ∧ get_package_name_from_xml f = Ok (Some p) ∧
                  truthy (Some p) = true).
Proof.
  intros Hw. destruct (for_each_first_pass_total walk scan_empty Hw) as (sc & Hsc).
  destruct (refresh_packages_spec walk last sc Hsc) as (s & Hs & H). simpl in H.
  destruct H as (_ & Hf & Hr & _ & Htr & _).
  exists s. split_and!; [done|done|by rewrite Hr Hf|].
  intros p. rewrite Hf (for_each_first_pass_names walk scan_empty sc p Hsc). simpl.
  rewrite dom_empty_L. set_solver.
Qed.

Lemma first_pass_step_malformed sc f : malformed f → first_pass_step sc f = Ok sc.
Proof.
  intros Hf. unfold first_pass_step, get_package_name_from_xml.
  destruct Hf as [->|(children & -> & ->)]; done.
Qed.

Lemma first_pass_skip_malformed w1 w2 f :
  malformed f → first_pass (w1 ++ f :: w2) = first_pass (w1 ++ w2).
Proof.
  intros Hf. unfold first_pass. rewrite !for_each_app.
  destruct (for_each w1 _ scan_empty) as [sc|e]; [|done].
  rewrite !bind_Ok_l. cbn [for_each]. by rewrite first_pass_step_malformed.
Qed.

(** A manifest that [ET.parse] rejects with [ParseError], or that has no
    name, makes [get_package_name_from_xml] fail (the caught error, [None]);
    the scan that meets it anywhere in the walk does what the scan without
    that manifest does: it ends normally when the other manifests let it,
    and the package is in neither map and adds no edge. *)
Theorem malformed_manifest_excluded (w1 w2 : list manifest_file) (f : manifest_file)
    (last : list string) :
  malformed f → Forall readable (w1 ++ w2) →
  get_package_name_from_xml f = Ok None ∧
  (∃ s, refresh_packages (w1 ++ f :: w2) last = Ok s) ∧
  refresh_packages (w1 ++ f :: w2) last = refresh_packages (w1 ++ w2) last.
Proof.
  intros Hf Hw.
  assert (refresh_packages (w1 ++ f :: w2) last = refresh_packages (w1 ++ w2) last) as Heq.
  { unfold refresh_packages. by rewrite first_pass_skip_malformed. }
  split_and!.
  - unfold get_package_name_from_xml. by destruct Hf as [->|(children & -> & ->)].
  - rewrite Heq. by apply refresh_packages_total.
  - done.
Qed.

(** C5: a manifest that does not parse because its XML declaration names
    an encoding Python does not know makes [ET.parse] raise [LookupError];
    [except (ET.ParseError, AttributeError)] does not catch it, so
    [get_package_name_from_xml] raises instead of failing with [None], and
    the scan of the workspace A→B→C with that manifest added aborts with the
    exception where the scan without it returns. *)
Theorem unknown_encoding_aborts_scan :
  get_package_name_from_xml undecodable_manifest = Err LookupError ∧
  get_package_dependencies undecodable_manifest = Err LookupError ∧
  refresh_packages (scenario_walk ++ [undecodable_manifest]) [] = Err LookupError ∧
  refresh_packages (undecodable_manifest :: scenario_walk) [] = Err LookupError ∧
  refresh_packages scenario_walk [] = Ok scenario_gui.
Proof.
  split_and!; [done|done|vm_compute; reflexivity..].
Qed.

(** ** show_dependency_graph: closure *)

Section closure_proofs.

Variable deps : gmap string (gset string).

Lemma push_dependencies_elem nodes p stack x :
  x ∈ push_dependencies deps nodes p stack ↔
  x ∈ stack ∨ (x ∈ get_set deps p ∧ x ∉ nodes).
Proof.
  unfold push_dependencies. rewrite -(elem_of_elements (get_set deps p)).
  generalize (elements (get_set deps p)) as l. intros l. revert stack.
  induction l as [|d l IH]; intros stack; simpl.
  - set_solver.
  - rewrite IH. destruct (decide (d ∈ nodes)); set_solver.
Qed.

Lemma push_dependencies_length nodes p stack :
  length (push_dependencies deps nodes p stack) ≤ length stack + size (get_set deps p).
Proof.
  unfold push_dependencies, size, set_size. simpl.
  generalize (elements (get_set deps p)) as l. intros l. revert stack.
  induction l as [|d l IH]; intros stack; simpl; [lia|].
  etrans; [apply IH|]. destruct (decide (d ∈ nodes)); simpl; lia.
Qed.

(** A set that holds every package the loop can push. *)
Definition covers (U : gset string) : Prop :=
  ∀ p d, d ∈ get_set deps p → d ∈ U.

Lemma closure_loop_spec (U : gset string) (fuel : nat) :
  covers U →
  ∀ nodes stack,
    nodes ⊆ U → (∀ x, x ∈ stack → x ∈ U) →
    length stack + size (U ∖ nodes) * S (size U) < fuel →
    (∀ p d, p ∈ nodes → d ∈ get_set deps p → d ∈ nodes ∨ d ∈ stack) →
    ∃ nodes',
      closure_loop fuel deps nodes stack = Ok nodes' ∧
      nodes ⊆ nodes' ∧
      (∀ x, x ∈ stack → x ∈ nodes') ∧
      (∀ p d, p ∈ nodes' → d ∈ get_set deps p → d ∈ nodes') ∧
      (∀ x, x ∈ nodes' → x ∈ nodes ∨ ∃ r, r ∈ stack ∧ reachable deps r x).
Proof.
  intros HU. induction fuel as [|fuel IH]; intros nodes stack Hn Hs Hfuel Hinv; [lia|].
  destruct stack as [|p stack]; simpl.
  - exists nodes. split_and!; [done|done|by intros ? ?%elem_of_nil| |by left].
    intros p d Hp Hd. destruct (Hinv p d Hp Hd) as [|?%elem_of_nil]; done.
  - destruct (decide (p ∈ nodes)) as [Hp|Hp].
    + destruct (IH nodes stack) as (nodes' & Hrun & Hsub & Hst & Hcl & Hre).
      * done.
      * intros x Hx. apply Hs. by right.
      * simpl in Hfuel. lia.
      * intros q d Hq Hd. destruct (Hinv q d Hq Hd) as [|[->|]%elem_of_cons]; auto.
      * exists nodes'. split_and!; [done|done| |done|].
        -- intros x [->|]%elem_of_cons; [set_solver|auto].
        -- intros x Hx. destruct (Hre x Hx) as [|(r & Hr & Hrx)]; [by left|].
           right. exists r. split; [by right|done].
    + assert (p ∈ U) as HpU by (apply Hs; left).
      destruct (IH (nodes ∪ {[p]}) (push_dependencies deps (nodes ∪ {[p]}) p stack))
        as (nodes' & Hrun & Hsub & Hst & Hcl & Hre).
      * set_solver.
      * intros x [Hx|[Hx _]]%push_dependencies_elem; [apply Hs; by right|by eapply HU].
      * pose proof (push_dependencies_length (nodes ∪ {[p]}) p stack) as Hlen.
        assert (size (get_set deps p) ≤ size U) as Hdeg.
        { apply subseteq_size. intros d Hd. by eapply HU. }
        assert (size (U ∖ nodes) = S (size (U ∖ (nodes ∪ {[p]})))) as Hsz.
        { replace (U ∖ nodes) with ({[p]} ∪ U ∖ (nodes ∪ {[p]})).
          - rewrite size_union; [|set_solver]. by rewrite size_singleton.
          - apply set_eq. intros x. rewrite !elem_of_union !elem_of_difference
              elem_of_union !elem_of_singleton.
            destruct (decide (x = p)) as [->|]; naive_solver. }
        simpl in Hfuel. rewrite Hsz in Hfuel. nia.
      * intros q d [Hq|Hq%elem_of_singleton]%elem_of_union Hd; [|subst q].
        -- destruct (Hinv q d Hq Hd) as [|[->|]%elem_of_cons].
           ++ left. set_solver.
           ++ left. set_solver.
           ++ right. apply push_dependencies_elem. by left.
        -- destruct (decide (d ∈ nodes ∪ {[p]})); [by left|].
           right. apply push_dependencies_elem. by right.
      * exists nodes'. split_and!; [done|set_solver| |done|].
        -- intros x [->|Hx]%elem_of_cons; [set_solver|].
           apply Hst, push_dependencies_elem. by left.
        -- intros x Hx.
           destruct (Hre x Hx) as [[|Hxp%elem_of_singleton]%elem_of_union|(r & Hr & Hrx)].
           ++ by left.
           ++ subst x. right. exists p. split; [left|done].
           ++ right. apply push_dependencies_elem in Hr as [Hr|[Hr _]].
              ** exists r. split; [by right|done].
              ** exists p. split; [left|]. by eapply rtc_l.
Qed.

Lemma closure_universe_covers seeds : covers (closure_universe deps seeds).
Proof.
  intros p d (ds & Hp & Hd)%get_set_elem. unfold closure_universe.
  apply elem_of_union_r, elem_of_union_list. exists ds. split; [|done].
  apply list_elem_of_fmap. exists (p, ds). split; [done|].
  by apply elem_of_map_to_list.
Qed.

(** [closure] ends within its fuel, and computes the packages reachable
    from the seeds. *)
Lemma closure_spec seeds :
  ∃ nodes, closure deps seeds = Ok nodes ∧
           ∀ x, x ∈ nodes ↔ reachable_from deps seeds x.
Proof.
  unfold closure.
  destruct (closure_loop_spec (closure_universe deps seeds) (closure_fuel deps seeds)
              (closure_universe_covers seeds) ∅ (reverse seeds))
    as (nodes & Hrun & _ & Hst & Hcl & Hre).
  - set_solver.
  - intros x Hx%elem_of_reverse. unfold closure_universe. set_solver.
  - unfold closure_fuel. rewrite length_reverse.
    assert (size (closure_universe deps seeds ∖ ∅) ≤ size (closure_universe deps seeds))
      by (apply subseteq_size; set_solver).
    nia.
  - set_solver.
  - exists nodes. split; [done|]. intros x. split.
    + intros Hx. destruct (Hre x Hx) as [H0|(r & Hr & Hrx)].
      * by apply not_elem_of_empty in H0.
      * exists r. split; [|done]. by apply elem_of_reverse.
    + intros (r & Hr & Hrx).
      assert (r ∈ nodes) as Hrn by (apply Hst; by apply elem_of_reverse).
      clear Hr. induction Hrx as [|a b c Hab _ IHr]; [done|].
      apply IHr. by eapply Hcl.
Qed.

End closure_proofs.

(** C7: for every dependency map and seed list, [closure] ends (within the
    fuel the definition gives it, cycles or not), its result holds every
    seed, and the closure of that result is the result again. *)
Theorem closure_extensive_idempotent (deps : gmap string (gset string))
    (seeds : list string) :
  ∃ nodes, closure deps seeds = Ok nodes ∧
           (∀ x, x ∈ seeds → x ∈ nodes) ∧
           closure deps (elements nodes) = Ok nodes.
Proof.
  destruct (closure_spec deps seeds) as (nodes & Hrun & Hn).
  exists nodes. split_and!; [done| |].
  - intros x Hx. apply Hn. exists x. split; [done|]. apply rtc_refl.
  - destruct (closure_spec deps (elements nodes)) as (nodes2 & -> & Hn2).
    f_equal. apply set_eq. intros x. rewrite Hn2. split.
    + intros (r & (r0 & Hr0 & Hr0r)%elem_of_elements%Hn & Hrx).
      apply Hn. exists r0. split; [done|]. by etrans.
    + intros Hx. exists x. split; [by apply elem_of_elements|]. apply rtc_refl.
Qed.

(** ** The arrow heads *)

Lemma arrow_length_ge_1 start end_ : (1 <= arrow_length start end_)%R.
Proof. unfold arrow_length. apply Rmax_r. Qed.

Lemma arrow_length_coincident p : arrow_length p p = 1%R.
Proof.
  unfold arrow_length.
  replace ((px p - px p) * (px p - px p) + (py p - py p) * (py p - py p))%R
    with 0%R by lra.
  rewrite sqrt_0. apply Rmax_right. lra.
Qed.

Lemma py_div_nonzero a b : b ≠ 0%R → py_div a b = Some (a / b)%R.
Proof. intros Hb. unfold py_div. by destruct (Req_dec_T b 0). Qed.

Lemma arrowhead_defined start end_ : is_Some (arrowhead start end_).
Proof.
  pose proof (arrow_length_ge_1 start end_) as Hlen.
  unfold arrowhead. rewrite !py_div_nonzero; try lra. simpl. eauto.
Qed.

(** C9: the divisor of the arrow head is at least 1 for every edge, so the
    construction never divides by zero and always yields a polygon; for an
    edge whose two anchor points coincide the divisor is 1 and the three
    corners of the polygon are the anchor point itself: the arrow head is
    drawn as a point. *)
Theorem arrowhead_zero_length_edge (p : QPointF) :
  (∀ start end_, arrow_length start end_ ≠ 0%R ∧ is_Some (arrowhead start end_)) ∧
  arrow_length p p = 1%R ∧
  arrowhead p p = Some [p; p; p].
Proof.
  split_and!.
  - intros start end_. split; [|apply arrowhead_defined].
    pose proof (arrow_length_ge_1 start end_). lra.
  - apply arrow_length_coincident.
  - unfold arrowhead. rewrite arrow_length_coincident.
    rewrite !py_div_nonzero; try lra. simpl. destruct p as [x y]. simpl.
    repeat f_equal; lra.
Qed.

(** ** update_node_highlights *)

Lemma incoming_nodes_elem edges F x : x ∈ incoming_nodes edges F ↔ (x, F) ∈ edges.
Proof.
  unfold incoming_nodes.
  enough (∀ acc : gset string,
    x ∈ foldl (λ acc e, if decide (e.2 = F) then acc ∪ {[e.1]} else acc) acc edges
    ↔ x ∈ acc ∨ (x, F) ∈ edges) as ->; [set_solver|].
  induction edges as [|[s d] edges IH]; intros acc; simpl.
  - set_solver.
  - rewrite IH elem_of_cons. destruct (decide (d = F)) as [->|]; set_solver.
Qed.

Lemma outgoing_nodes_elem edges F x : x ∈ outgoing_nodes edges F ↔ (F, x) ∈ edges.
Proof.
  unfold outgoing_nodes.
  enough (∀ acc : gset string,
    x ∈ foldl (λ acc e, if decide (e.1 = F) then acc ∪ {[e.2]} else acc) acc edges
    ↔ x ∈ acc ∨ (F, x) ∈ edges) as ->; [set_solver|].
  induction edges as [|[s d] edges IH]; intros acc; simpl.
  - set_solver.
  - rewrite IH elem_of_cons. destruct (decide (s = F)) as [->|]; set_solver.
Qed.

Lemma selected_nodes_only items F :
  only_selected items F →
  dom (filter (λ kv : string * node_item, isSelected kv.2 = true) items) = {[F]}.
Proof.
  intros [(item & HF & Hsel) Huniq]. apply set_eq. intros n.
  rewrite elem_of_dom elem_of_singleton. split.
  - intros [it (Hn & Hs)%map_lookup_filter_Some]. by eapply Huniq.
  - intros ->. exists item. by apply map_lookup_filter_Some.
Qed.

(** With one node [F] selected, every node is drawn in the class its edges
    to and from [F] give it; [incoming] is tested before [outgoing]. *)
Lemma update_node_highlights_classify items edges F n item' :
  only_selected items F →
  node_items (update_node_highlights (Scene items edges)) !! n = Some item' →
  classify item' =
    if decide (n = F) then focused
    else if decide ((n, F) ∈ edges) then tag_incoming
    else if decide ((F, n) ∈ edges) then tag_outgoing
    else tag_none.
Proof.
  intros Hsel. pose proof Hsel as [(itF & HF & HselF) Huniq].
  unfold update_node_highlights. simpl.
  rewrite (selected_nodes_only items F Hsel) elements_singleton. simpl.
  rewrite map_lookup_imap. destruct (items !! n) as [item|] eqn:Hn; simpl; [|done].
  intros [= <-]. unfold classify.
  destruct (decide (n = F)) as [->|Hne].
  - rewrite decide_True; [|set_solver]. simpl. rewrite HF in Hn. injection Hn as <-.
    by rewrite HselF.
  - rewrite decide_False; [|set_solver].
    assert (isSelected item = false) as Hns.
    { destruct (isSelected item) eqn:Hs; [|done]. exfalso. by eapply Hne, Huniq. }
    destruct (decide (n ∈ incoming_nodes edges F)) as [Hi|Hi];
      rewrite incoming_nodes_elem in Hi.
    { rewrite decide_True //. simpl. by rewrite Hns. }
    rewrite (decide_False _ _ Hi).
    destruct (decide (n ∈ outgoing_nodes edges F)) as [Ho|Ho];
      rewrite outgoing_nodes_elem in Ho.
    { rewrite decide_True //. simpl. by rewrite Hns. }
    rewrite (decide_False _ _ Ho). simpl. by rewrite Hns.
Qed.

Lemma update_node_highlights_dom sc :
  dom (node_items (update_node_highlights sc)) = dom (node_items sc).
Proof.
  unfold update_node_highlights.
  destruct (elements _) as [|F l]; simpl; [by rewrite dom_fmap_L|].
  apply set_eq. intros n. rewrite !elem_of_dom map_lookup_imap.
  destruct (node_items sc !! n); simpl; split; intros [? ?]; done || eauto.
Qed.

(** C6: with the edges A→B and B→C and B the selected node of the scene,
    [update_node_highlights] leaves every node of the scene in place and
    draws A as incoming, C as outgoing, B as the focused node and every
    other node without a highlight. *)
Theorem classify_focus_B (items : gmap string node_item) :
  only_selected items "B" →
  let sc := update_node_highlights (Scene items [("A", "B"); ("B", "C")]) in
  dom (node_items sc) = dom items ∧
  ∀ n item', node_items sc !! n = Some item' →
    classify item' =
      if decide (n = "B") then focused
      else if decide (n = "A") then tag_incoming
      else if decide (n = "C") then tag_outgoing
      else tag_none.
Proof.
  intros Hsel sc. split; [apply update_node_highlights_dom|].
  intros n item' Hn.
  rewrite (update_node_highlights_classify _ _ _ _ _ Hsel Hn).
  repeat case_decide; try done; set_solver.
Qed.

(** ** _build_dependency_scene: the layers *)

Lemma in_layer_length levels i n : in_layer levels i n → i < length levels.
Proof. intros (layer & Hl & _). by eapply lookup_lt_Some. Qed.

Lemma in_layer_snoc levels layer i n :
  in_layer (levels ++ [layer]) i n ↔
  in_layer levels i n ∨ (i = length levels ∧ n ∈ layer).
Proof.
  unfold in_layer. split.
  - intros (l & Hl & Hn). apply lookup_snoc_Some in Hl as [[? Hl]|[-> ->]]; eauto.
  - intros [(l & Hl & Hn)|[-> Hn]].
    + exists l. split; [|done]. apply lookup_snoc_Some. left.
      split; [by eapply lookup_lt_Some|done].
    + exists layer. split; [|done]. apply lookup_snoc_Some. by right.
Qed.

Section layers_proofs.

Variable nodes : gset string.
Variable edges : list (string * string).
Hypothesis Hinduced : induced nodes edges.

Lemma lookup_key_Some {V} (d : gmap string V) k v : d !! k = Some v → lookup_key d k = Ok v.
Proof. unfold lookup_key. by intros ->. Qed.

Lemma for_each_add_edge (l : list (string * string)) (m : gmap string (gset string)) :
  dom m = nodes → (∀ e, e ∈ l → e.1 ∈ nodes) →
  ∃ m', for_each l (λ e deps_map,
                      ds ← lookup_key deps_map e.1 ;
                      Ok (<[e.1 := ds ∪ {[e.2]}]> deps_map)) m = Ok m' ∧
        dom m' = nodes ∧
        ∀ s d, d ∈ get_set m' s ↔ d ∈ get_set m s ∨ (s, d) ∈ l.
Proof.
  revert m. induction l as [|[a b] l IH]; intros m Hdom Hl; simpl.
  - exists m. split_and!; [done..|]. set_solver.
  - assert (a ∈ dom m) as [ds Hds]%elem_of_dom.
    { rewrite Hdom. apply (Hl (a, b)). left. }
    rewrite (lookup_key_Some _ _ _ Hds). simpl.
    destruct (IH (<[a := ds ∪ {[b]}]> m)) as (m' & Hrun & Hdom' & Hget).
    + rewrite dom_insert_L -Hdom. apply elem_of_dom_2 in Hds. set_solver.
    + intros e He. apply Hl. by right.
    + exists m'. split_and!; [done..|]. intros s d. rewrite Hget get_set_insert.
      assert (get_set m a = ds) as Ha by (unfold get_set; by rewrite Hds).
      rewrite elem_of_cons. destruct (decide (a = s)) as [->|Hne].
      * rewrite Ha. set_solver.
      * split; [intros [?|?]; auto|]. intros [?|[[= -> ->]|?]]; auto. done.
Qed.

Lemma build_deps_map_spec :
  ∃ deps_map, build_deps_map nodes edges = Ok deps_map ∧
              dom deps_map = nodes ∧
              ∀ s d, d ∈ get_set deps_map s ↔ (s, d) ∈ edges.
Proof.
  unfold build_deps_map.
  destruct (for_each_add_edge edges (gset_to_gmap ∅ nodes)) as (m & Hrun & Hdom & Hget).
  - by rewrite dom_gset_to_gmap.
  - intros [s d] He. by apply (Hinduced s d).
  - exists m. split_and!; [done..|]. intros s d. rewrite Hget.
    assert (get_set (gset_to_gmap ∅ nodes) s = ∅) as ->; [|set_solver].
    unfold get_set. rewrite lookup_gset_to_gmap. by destruct (guard _).
Qed.

Section peeling.

Variable deps_map : gmap string (gset string).
Hypothesis Hdeps_dom : dom deps_map = nodes.
Hypothesis Hdeps : ∀ s d, d ∈ get_set deps_map s ↔ (s, d) ∈ edges.

#[local] Abbreviation ncnt := (cnt deps_map nodes).
#[local] Abbreviation npreds := (preds_left deps_map nodes).

Lemma deps_in_nodes u v : v ∈ get_set deps_map u → u ∈ nodes ∧ v ∈ nodes.
Proof. intros Hv%Hdeps. by apply Hinduced. Qed.

Lemma preds_left_elem S v u :
  u ∈ npreds S v ↔ (u, v) ∈ edges ∧ u ∉ S.
Proof.
  unfold preds_left. rewrite elem_of_filter elem_of_difference Hdeps.
  split; [naive_solver|]. intros [He ?]. split_and!; [done| |done].
  by apply (Hinduced u v).
Qed.

(** Peeling [u] takes one from the count of each of its successors. *)
Lemma cnt_step S u v :
  u ∈ nodes → u ∉ S →
  ncnt (S ∪ {[u]}) v + (if decide (v ∈ get_set deps_map u) then 1 else 0) = ncnt S v.
Proof.
  intros Hu HuS. unfold cnt.
  destruct (decide (v ∈ get_set deps_map u)) as [Hv|Hv].
  - replace (npreds S v) with (npreds (S ∪ {[u]}) v ∪ {[u]}).
    + rewrite size_union; [by rewrite size_singleton|].
      intros x Hx Hxu%elem_of_singleton. subst x.
      apply preds_left_elem in Hx. set_solver.
    + apply set_eq. intros x.
      rewrite elem_of_union !preds_left_elem elem_of_singleton not_elem_of_union
        elem_of_singleton.
      destruct (decide (x = u)) as [->|]; [|naive_solver].
      apply Hdeps in Hv. naive_solver.
  - rewrite Nat.add_0_r. f_equal. apply set_eq. intros x.
    rewrite !preds_left_elem not_elem_of_union elem_of_singleton.
    split; [naive_solver|]. intros [He Hx]. split_and!; [done..|].
    intros ->. by apply Hv, Hdeps.
Qed.

Lemma cnt_all v : ncnt nodes v = 0.
Proof.
  unfold cnt. apply size_empty_iff, elem_of_equiv_empty. intros x Hx%preds_left_elem.
  destruct Hx as [He Hx]. apply Hx. by apply (Hinduced x v).
Qed.

Lemma cnt_zero_preds S v s : ncnt S v = 0 → (s, v) ∈ edges → s ∈ S.
Proof.
  intros Hz He. apply size_empty_iff in Hz.
  destruct (decide (s ∈ S)) as [|Hs]; [done|].
  assert (s ∈ npreds S v) as Hin by by apply preds_left_elem.
  exfalso. clear -Hz Hin. set_solver.
Qed.

Lemma cnt_pos_pred S v : ncnt S v ≠ 0 → ∃ s, (s, v) ∈ edges ∧ s ∉ S.
Proof.
  intros Hz. apply size_non_empty_iff, set_choose in Hz as [s Hs].
  exists s. by apply preds_left_elem.
Qed.

(** The loop [for d in deps_map[s]: indeg[d] += 1]. *)
Lemma for_each_increment (l : list string) (m : gmap string Z) :
  NoDup l → (∀ x, x ∈ l → x ∈ dom m) →
  ∃ m', for_each l (λ d indeg, k ← lookup_key indeg d ; Ok (<[d := (k + 1)%Z]> indeg)) m
        = Ok m' ∧
        dom m' = dom m ∧
        ∀ v, m' !! v = if decide (v ∈ l) then (λ k, (k + 1)%Z) <$> m !! v else m !! v.
Proof.
  revert m. induction l as [|x l IH]; intros m Hnd Hl; simpl.
  - exists m. split_and!; [done..|]. intros v. repeat case_decide; set_solver.
  - apply NoDup_cons in Hnd as [Hx Hnd].
    assert (x ∈ dom m) as [k Hk]%elem_of_dom by (apply Hl; left).
    rewrite (lookup_key_Some _ _ _ Hk). simpl.
    destruct (IH (<[x := (k + 1)%Z]> m)) as (m' & Hrun & Hdom & Hget); [done|..].
    + intros y Hy. rewrite dom_insert_L. apply elem_of_union_r, Hl. by right.
    + exists m'. split_and!; [done| |].
      * rewrite Hdom dom_insert_L. apply elem_of_dom_2 in Hk. set_solver.
      * intros v. rewrite Hget lookup_insert.
        destruct (decide (x = v)) as [->|Hne].
        -- rewrite decide_False // decide_True; [|left]. by rewrite Hk.
        -- destruct (decide (v ∈ l)).
           ++ rewrite decide_True //. by right.
           ++ rewrite decide_False //. set_solver.
Qed.

Lemma build_indeg_loop (l : list string) (P : gset string) (m : gmap string Z) :
  NoDup l → (∀ x, x ∈ l → x ∈ nodes ∧ x ∉ P) →
  dom m = nodes →
  (∀ v, v ∈ nodes → m !! v = Some (Z.of_nat (ncnt (nodes ∖ P) v))) →
  ∃ m', for_each l
          (λ s indeg,
             ds ← lookup_key deps_map s ;
             for_each (elements ds)
               (λ d indeg, k ← lookup_key indeg d ; Ok (<[d := (k + 1)%Z]> indeg))
               indeg) m = Ok m' ∧
        dom m' = nodes ∧
        ∀ v, v ∈ nodes → m' !! v = Some (Z.of_nat (ncnt (nodes ∖ (P ∪ list_to_set l)) v)).
Proof.
  revert P m. induction l as [|s l IH]; intros P m Hnd Hl Hdom Hm; simpl.
  - exists m. split_and!; [done..|]. intros v Hv. rewrite Hm //.
    by rewrite union_empty_r_L.
  - apply NoDup_cons in Hnd as [Hs Hnd].
    destruct (Hl s) as [Hsn HsP]; [left|].
    assert (s ∈ dom deps_map) as [ds Hds]%elem_of_dom by by rewrite Hdeps_dom.
    rewrite (lookup_key_Some _ _ _ Hds). simpl.
    assert (get_set deps_map s = ds) as Hgs by (unfold get_set; by rewrite Hds).
    destruct (for_each_increment (elements ds) m) as (m1 & -> & Hdom1 & Hget1).
    { apply NoDup_elements. }
    { intros x Hx%elem_of_elements. rewrite Hdom. rewrite -Hgs in Hx.
      by apply deps_in_nodes in Hx as [_ ?]. }
    simpl. destruct (IH (P ∪ {[s]}) m1) as (m' & Hrun & Hdom' & Hget'); [done|..].
    + intros x Hx. destruct (Hl x) as [? ?]; [by right|]. split; [done|].
      intros [?|Hxs%elem_of_singleton]%elem_of_union; [done|]. by subst.
    + by rewrite Hdom1.
    + intros v Hv. rewrite Hget1 (Hm v Hv).
      assert (nodes ∖ P = nodes ∖ (P ∪ {[s]}) ∪ {[s]}) as HP.
      { apply set_eq. intros x. rewrite elem_of_union !elem_of_difference
          not_elem_of_union !elem_of_singleton.
        destruct (decide (x = s)) as [->|]; naive_solver. }
      assert (s ∉ nodes ∖ (P ∪ {[s]})) as Hns by set_solver.
      pose proof (cnt_step (nodes ∖ (P ∪ {[s]})) s v Hsn Hns) as Hstep.
      rewrite -HP in Hstep. rewrite -Hstep -Hgs.
      destruct (decide (v ∈ elements (get_set deps_map s))) as [Hin|Hin];
        rewrite elem_of_elements in Hin.
      * rewrite decide_True //. simpl. f_equal. lia.
      * rewrite decide_False //. simpl. f_equal. lia.
    + exists m'. split_and!; [done..|]. intros v Hv. rewrite (Hget' v Hv).
      do 3 f_equal. set_solver.
Qed.

Lemma build_indeg_spec :
  ∃ m, build_indeg nodes deps_map = Ok m ∧
       dom m = nodes ∧
       ∀ v, v ∈ nodes → m !! v = Some (Z.of_nat (ncnt ∅ v)).
Proof.
  unfold build_indeg.
  destruct (build_indeg_loop (elements nodes) ∅ (gset_to_gmap 0%Z nodes))
    as (m & Hrun & Hdom & Hget).
  - apply NoDup_elements.
  - intros x Hx%elem_of_elements. set_solver.
  - by rewrite dom_gset_to_gmap.
  - intros v Hv. rewrite difference_empty_L cnt_all.
    by apply lookup_gset_to_gmap_Some.
  - exists m. split_and!; [done..|]. intros v Hv. rewrite (Hget v Hv).
    do 3 f_equal. set_solver.
Qed.

(** The loop [for v in deps_map[u]] of one node: every successor loses one,
    and those that reach zero are appended. *)
Lemma for_each_decrement (l : list string) (m : gmap string Z) (sn : gset string)
    (nx : list string) :
  NoDup l → (∀ x, x ∈ l → x ∈ dom m) →
  ∃ m' added,
    for_each l decrement (Peel m sn nx) = Ok (Peel m' sn (nx ++ added)) ∧
    dom m' = dom m ∧
    (∀ v, m' !! v = if decide (v ∈ l) then (λ k, (k - 1)%Z) <$> m !! v else m !! v) ∧
    NoDup added ∧
    (∀ v, v ∈ added ↔ v ∈ l ∧ m !! v = Some 1%Z).
Proof.
  revert m nx. induction l as [|x l IH]; intros m nx Hnd Hl; simpl.
  - exists m, []. rewrite app_nil_r. split_and!; [done..| | |].
    + intros v. repeat case_decide; set_solver.
    + apply NoDup_nil_2.
    + set_solver.
  - apply NoDup_cons in Hnd as [Hx Hnd].
    assert (x ∈ dom m) as [k Hk]%elem_of_dom by (apply Hl; left).
    set (nx1 := if decide ((k - 1)%Z = 0%Z) then nx ++ [x] else nx).
    assert (decrement x (Peel m sn nx) = Ok (Peel (<[x := (k - 1)%Z]> m) sn nx1)) as ->
      by (unfold decrement, lookup_key; simpl; by rewrite Hk).
    simpl.
    destruct (IH (<[x := (k - 1)%Z]> m) nx1) as (m' & added & Hrun & Hdom & Hget & Hnda & Hadd);
      [done|..].
    { intros y Hy. rewrite dom_insert_L. apply elem_of_union_r, Hl. by right. }
    assert (∀ v, v ∈ added → v ≠ x) as Hne.
    { intros v [Hv _]%Hadd ->. done. }
    exists m', ((if decide ((k - 1)%Z = 0%Z) then [x] else []) ++ added).
    split_and!.
    + rewrite Hrun. do 2 f_equal. unfold nx1. destruct (decide _); simpl.
      * by rewrite -assoc.
      * done.
    + rewrite Hdom dom_insert_L. apply elem_of_dom_2 in Hk. set_solver.
    + intros v. rewrite Hget lookup_insert.
      destruct (decide (x = v)) as [->|Hxv].
      * rewrite decide_False // decide_True; [|left]. by rewrite Hk.
      * destruct (decide (v ∈ l)).
        -- rewrite decide_True //. by right.
        -- rewrite decide_False //. set_solver.
    + destruct (decide _); simpl; [|done]. apply NoDup_cons. split; [|done].
      intros Hin. by apply (Hne x).
    + intros v. rewrite elem_of_app Hadd elem_of_cons. split.
      * intros [Hv|[Hv Hm]].
        -- destruct (decide ((k - 1)%Z = 0%Z)) as [Hk0|]; [|by apply elem_of_nil in Hv].
           apply list_elem_of_singleton in Hv as ->. split; [by left|].
           rewrite Hk. f_equal. lia.
        -- assert (v ≠ x) by (intros ->; done).
           rewrite lookup_insert_ne // in Hm. auto.
      * intros [[->|Hv] Hm].
        -- left. rewrite Hk in Hm. injection Hm as ->. simpl. left.
        -- right. assert (v ≠ x) by (intros ->; done).
           rewrite lookup_insert_ne //.
Qed.

#[local] Abbreviation pinv := (peel_inv deps_map nodes).

(** One pass of [for u in current]. *)
Lemma peel_step u rest m sn nx :
  pinv m sn (u :: rest ++ nx) →
  ∃ m' added,
    peel deps_map u (Peel m sn nx) = Ok (Peel m' (sn ∪ {[u]}) (nx ++ added)) ∧
    pinv m' (sn ∪ {[u]}) (rest ++ nx ++ added).
Proof.
  intros [Hsn Hdom Hcnt Hnd Hfresh Hzero].
  destruct (Hfresh u) as [Hu HuS]; [left|].
  assert (ncnt sn u = 0) as Hu0 by (apply Hzero; [done|right; left]).
  assert (u ∈ dom deps_map) as [ds Hds]%elem_of_dom by by rewrite Hdeps_dom.
  assert (get_set deps_map u = ds) as Hgs by (unfold get_set; by rewrite Hds).
  unfold peel. simpl. rewrite (lookup_key_Some _ _ _ Hds). simpl.
  destruct (for_each_decrement (elements ds) m (sn ∪ {[u]}) nx)
    as (m' & added & Hrun & Hdom' & Hget & Hnda & Hadd).
  { apply NoDup_elements. }
  { intros x Hx%elem_of_elements. rewrite Hdom. rewrite -Hgs in Hx.
    by apply deps_in_nodes in Hx as [_ ?]. }
  assert (∀ v, v ∈ added ↔ v ∈ nodes ∧ v ∈ get_set deps_map u ∧ ncnt sn v = 1) as Hadd'.
  { intros v. rewrite Hadd elem_of_elements Hgs. split.
    - intros [Hv Hm]. assert (v ∈ nodes) as Hvn.
      { rewrite -Hgs in Hv. by apply deps_in_nodes in Hv as [_ ?]. }
      rewrite (Hcnt v Hvn) in Hm. split_and!; [done..|]. injection Hm. lia.
    - intros (Hvn & Hv & Hc). split; [done|]. rewrite (Hcnt v Hvn) Hc //. }
  assert (∀ v, ncnt (sn ∪ {[u]}) v +
               (if decide (v ∈ get_set deps_map u) then 1 else 0) = ncnt sn v) as Hstep
    by (intros v; by apply cnt_step).
  apply NoDup_cons in Hnd as [Hurest Hnd].
  exists m', added. split; [done|]. split.
  - set_solver.
  - by rewrite Hdom'.
  - intros v Hv. rewrite Hget (Hcnt v Hv). specialize (Hstep v).
    destruct (decide (v ∈ elements ds)) as [Hin|Hin]; rewrite elem_of_elements -Hgs in Hin.
    + rewrite decide_True // in Hstep. simpl. f_equal. lia.
    + rewrite decide_False // in Hstep. simpl. f_equal. lia.
  - rewrite assoc. apply NoDup_app. split_and!; [done| |done].
    intros v Hv (Hvn & _ & Hc)%Hadd'.
    assert (ncnt sn v = 0); [|lia]. apply Hzero; [done|]. right. by right.
  - intros v. rewrite assoc. intros [Hv|Hv]%elem_of_app.
    + destruct (Hfresh v) as [? ?]; [by right|]. split; [done|].
      intros [?|Hvu%elem_of_singleton]%elem_of_union; [done|]. by subst.
    + apply Hadd' in Hv as (Hvn & _ & Hc). split; [done|].
      intros [Hvs|Hvu%elem_of_singleton]%elem_of_union.
      * assert (ncnt sn v = 0); [|lia]. apply Hzero; auto.
      * subst. lia.
  - intros v Hv. specialize (Hstep v). rewrite assoc elem_of_app Hadd'.
    rewrite elem_of_union elem_of_singleton. split.
    + intros Hc. destruct (decide (v ∈ get_set deps_map u)) as [Hin|Hin].
      * right. right. split_and!; [done..|]. lia.
      * assert (ncnt sn v = 0) as Hc0 by lia.
        apply Hzero in Hc0 as [?|[->|?]%elem_of_cons]; auto.
    + intros [[Hvs| ->]|[Hvp|(_ & Hin & Hc)]].
      * assert (ncnt sn v = 0) by (apply Hzero; auto). lia.
      * lia.
      * assert (ncnt sn v = 0) by (apply Hzero; [done|]; right; by right). lia.
      * rewrite decide_True // in Hstep. lia.
Qed.

(** The whole loop [for u in current]. *)
Lemma peel_layer rest m sn nx :
  pinv m sn (rest ++ nx) →
  ∃ st, for_each rest (peel deps_map) (Peel m sn nx) = Ok st ∧
        peel_seen st = sn ∪ list_to_set rest ∧
        pinv (peel_indeg st) (peel_seen st) (next_level st).
Proof.
  revert m sn nx. induction rest as [|u rest IH]; intros m sn nx Hinv; simpl.
  - eexists. split; [done|]. simpl. split; [set_solver|done].
  - destruct (peel_step u rest m sn nx Hinv) as (m' & added & -> & Hinv'). simpl.
    destruct (IH m' (sn ∪ {[u]}) (nx ++ added)) as (st & Hrun & Hseen & Hst); [done|].
    exists st. split_and!; [done| |done]. rewrite Hseen. set_solver.
Qed.

(** The loop [while current]. *)
Lemma layers_loop_spec fuel levels current m sn :
  pinv m sn current → levels_inv edges levels sn → size (nodes ∖ sn) < fuel →
  ∃ levels' sn',
    layers_loop fuel deps_map levels current m sn = Ok (levels', sn') ∧
    levels_inv edges levels' sn' ∧
    sn' ⊆ nodes ∧
    (∀ v, v ∈ nodes → ncnt sn' v = 0 ↔ v ∈ sn').
Proof.
  revert levels current m sn.
  induction fuel as [|fuel IH]; intros levels current m sn Hinv Hlev Hfuel; [lia|].
  destruct current as [|u rest].
  - simpl. exists levels, sn. split_and!; [done..|apply Hinv|].
    intros v Hv. rewrite (peel_zero _ _ _ _ _ Hinv v Hv). set_solver.
  - cbn [layers_loop]. set (current := u :: rest) in *.
    destruct (peel_layer current m sn []) as (st & -> & Hseen & Hst).
    { by rewrite app_nil_r. }
    simpl. destruct Hinv as [Hsn Hdom Hcnt Hnd Hfresh Hzero].
    destruct Hlev as [Hls Hlu Hlr].
    apply (IH (levels ++ [current]) (next_level st) (peel_indeg st) (peel_seen st)); [done|..].
    + rewrite Hseen. split.
      * intros n. rewrite elem_of_union elem_of_list_to_set Hls.
        setoid_rewrite in_layer_snoc. naive_solver.
      * intros i j n [Hi|[-> Hi]]%in_layer_snoc [Hj|[-> Hj]]%in_layer_snoc.
        -- by eapply Hlu.
        -- destruct (Hfresh n Hj) as [_ []]. apply Hls. eauto.
        -- destruct (Hfresh n Hi) as [_ []]. apply Hls. eauto.
        -- done.
      * intros j s d [Hj|[-> Hd]]%in_layer_snoc He.
        -- destruct (Hlr j s d Hj He) as (i & Hij & Hi). exists i. split; [done|].
           apply in_layer_snoc. by left.
        -- destruct (Hfresh d Hd) as [Hdn _].
           assert (ncnt sn d = 0) as Hd0 by (apply Hzero; auto).
           pose proof (cnt_zero_preds sn d s Hd0 He) as Hs.
           apply Hls in Hs as [i Hi]. exists i. split; [by eapply in_layer_length|].
           apply in_layer_snoc. by left.
    + rewrite Hseen. destruct (Hfresh u) as [Hu HuS]; [left|].
      assert (nodes ∖ (sn ∪ list_to_set current) ⊂ nodes ∖ sn) as Hsub%subset_size; [|lia].
      split; [set_solver|]. intros Hsub. assert (u ∈ nodes ∖ sn) as Hin by set_solver.
      apply Hsub in Hin. apply elem_of_difference in Hin as [_ []].
      apply elem_of_union_r, elem_of_list_to_set. left.
Qed.

(** Where the nodes of [next_level] come from. *)
Lemma for_each_decrement_added (l : list string) (st st' : peel_state) :
  for_each l decrement st = Ok st' →
  ∀ v, v ∈ next_level st' → v ∈ next_level st ∨ v ∈ l.
Proof.
  revert st. induction l as [|x l IH]; intros st; simpl.
  - intros [= <-]. auto.
  - intros (st1 & Hx & Hl)%bind_Ok v Hv.
    destruct (IH st1 Hl v Hv) as [Hv1|Hv1]; [|right; by right].
    unfold decrement in Hx. apply bind_Ok in Hx as (k & _ & [= <-]). simpl in Hv1.
    destruct (decide _); [|by left].
    apply elem_of_app in Hv1 as [?|Hvx%list_elem_of_singleton]; [by left|].
    subst. right; left.
Qed.

Lemma peel_layer_added (current : list string) (st st' : peel_state) :
  for_each current (peel deps_map) st = Ok st' →
  ∀ v, v ∈ next_level st' →
       v ∈ next_level st ∨ ∃ u, u ∈ current ∧ (u, v) ∈ edges.
Proof.
  revert st. induction current as [|u current IH]; intros st; simpl.
  - intros [= <-]. auto.
  - intros (st1 & Hu & Hl)%bind_Ok v Hv.
    destruct (IH st1 Hl v Hv) as [Hv1|(u' & Hu' & He)].
    + unfold peel in Hu. apply bind_Ok in Hu as (ds & Hds & Hu).
      apply for_each_decrement_added with (v := v) in Hu; [|done]. simpl in Hu.
      destruct Hu as [?|Hvu%elem_of_elements]; [by left|].
      right. exists u. split; [left|]. apply Hdeps. unfold get_set.
      unfold lookup_key in Hds. destruct (deps_map !! u); by simplify_eq.
    + right. exists u'. split; [by right|done].
Qed.

(** The loop [while current] keeps the layers tight. *)
Lemma layers_loop_tight fuel levels current m sn :
  pinv m sn current → layers_tight edges levels →
  (∀ v k, v ∈ current → length levels = S k →
          ∃ u, in_layer levels k u ∧ (u, v) ∈ edges) →
  size (nodes ∖ sn) < fuel →
  ∃ levels' sn',
    layers_loop fuel deps_map levels current m sn = Ok (levels', sn') ∧
    layers_tight edges levels'.
Proof.
  revert levels current m sn.
  induction fuel as [|fuel IH]; intros levels current m sn Hinv Htight Hcur Hfuel; [lia|].
  destruct current as [|u rest].
  - simpl. by exists levels, sn.
  - cbn [layers_loop]. set (current := u :: rest) in *.
    destruct (peel_layer current m sn []) as (st & Hrun & Hseen & Hst).
    { by rewrite app_nil_r. }
    rewrite Hrun. simpl.
    pose proof (peel_layer_added current _ _ Hrun) as Hadded. simpl in Hadded.
    destruct Hinv as [Hsn Hdom Hcnt Hnd Hfresh Hzero].
    destruct Htight as [Hne Hndl Hpred].
    apply (IH (levels ++ [current]) (next_level st) (peel_indeg st) (peel_seen st)); [done|..].
    + split.
      * intros layer [?|Hl%list_elem_of_singleton]%elem_of_app; [by apply Hne|by subst].
      * intros layer [?|Hl%list_elem_of_singleton]%elem_of_app; [by apply Hndl|by subst].
      * intros j v [Hj|[Hj Hv]]%in_layer_snoc.
        -- destruct (Hpred j v Hj) as (x & Hx & He). exists x. split; [|done].
           apply in_layer_snoc. by left.
        -- destruct (Hcur v j Hv) as (x & Hx & He); [done|]. exists x. split; [|done].
           apply in_layer_snoc. by left.
    + intros v k Hv Hlen. rewrite length_app in Hlen. simpl in Hlen.
      destruct (Hadded v Hv) as [?%elem_of_nil|(x & Hx & He)]; [done|].
      exists x. split; [|done]. apply in_layer_snoc. right. split; [lia|done].
    + rewrite Hseen. destruct (Hfresh u) as [Hu HuS]; [left|].
      assert (nodes ∖ (sn ∪ list_to_set current) ⊂ nodes ∖ sn) as Hsub%subset_size; [|lia].
      split; [set_solver|]. intros Hsub. assert (u ∈ nodes ∖ sn) as Hin by set_solver.
      apply Hsub in Hin. apply elem_of_difference in Hin as [_ []].
      apply elem_of_union_r, elem_of_list_to_set. left.
Qed.

(** The state the loop starts from. *)
Lemma initial_peel_inv (m : gmap string Z) :
  dom m = nodes →
  (∀ v, v ∈ nodes → m !! v = Some (Z.of_nat (ncnt ∅ v))) →
  pinv m ∅ (filter (λ n, m !! n = Some 0%Z) (elements nodes)).
Proof.
  intros Hmdom Hm. split.
  - set_solver.
  - done.
  - done.
  - apply NoDup_filter, NoDup_elements.
  - intros v [_ Hv%elem_of_elements]%list_elem_of_filter. set_solver.
  - intros v Hv. rewrite list_elem_of_filter elem_of_elements (Hm v Hv). split.
    + intros ->. right. done.
    + intros [?%not_elem_of_empty|[[= Hz] _]]; [done|]. lia.
Qed.

End peeling.

Lemma topologicalLayers_spec :
  ∃ levels peeled sn,
    topologicalLayers nodes edges = Ok levels ∧ layering nodes edges levels peeled sn.
Proof.
  unfold topologicalLayers.
  destruct build_deps_map_spec as (deps_map & -> & Hdom & Hdeps). rewrite bind_Ok_l.
  destruct (build_indeg_spec deps_map Hdom Hdeps) as (m & -> & Hmdom & Hm).
  rewrite bind_Ok_l.
  set (current := filter (λ n, m !! n = Some 0%Z) (elements nodes)).
  destruct (layers_loop_spec deps_map Hdom Hdeps (S (size nodes)) [] current m ∅)
    as (peeled & sn & -> & Hinv & Hsub & Hzero).
  - split.
    + set_solver.
    + done.
    + done.
    + apply NoDup_filter, NoDup_elements.
    + intros v [_ Hv%elem_of_elements]%list_elem_of_filter. set_solver.
    + intros v Hv. unfold current.
      rewrite list_elem_of_filter elem_of_elements (Hm v Hv). split.
      * intros ->. right. done.
      * intros [?%not_elem_of_empty|[[= Hz] _]]; [done|]. lia.
  - split.
    + intros n. split; [set_solver|]. intros (i & l & Hl & _). by rewrite lookup_nil in Hl.
    + intros i j n (l & Hl & _). by rewrite lookup_nil in Hl.
    + intros j s d (l & Hl & _). by rewrite lookup_nil in Hl.
  - rewrite difference_empty_L. lia.
  - rewrite bind_Ok_l. cbn [fst snd].
    eexists _, peeled, sn. split; [done|]. split; [done..| |].
    + intros v Hv Hvs.
      destruct (cnt_pos_pred deps_map Hdom Hdeps sn v) as (s & He & Hs).
      { rewrite (Hzero v Hv). done. }
      exists s. split_and!; [done| |done]. by apply (Hinduced s v).
    + by destruct (filter (λ n, n ∉ sn) (elements nodes)).
Qed.

Lemma topologicalLayers_tight_spec :
  ∃ levels peeled sn,
    topologicalLayers nodes edges = Ok levels ∧
    layering nodes edges levels peeled sn ∧ layers_tight edges peeled.
Proof.
  unfold topologicalLayers.
  destruct build_deps_map_spec as (deps_map & -> & Hdom & Hdeps). rewrite bind_Ok_l.
  destruct (build_indeg_spec deps_map Hdom Hdeps) as (m & -> & Hmdom & Hm).
  rewrite bind_Ok_l.
  set (current := filter (λ n, m !! n = Some 0%Z) (elements nodes)).
  assert (peel_inv deps_map nodes m ∅ current) as Hinit by by eapply initial_peel_inv.
  assert (size (nodes ∖ ∅) < S (size nodes)) as Hfuel.
  { rewrite difference_empty_L. lia. }
  destruct (layers_loop_spec deps_map Hdom Hdeps (S (size nodes)) [] current m ∅)
    as (peeled & sn & Hloop & Hinv & Hsub & Hzero); [done| |done|].
  { split.
    - intros n. split; [set_solver|]. intros (i & l & Hl & _). by rewrite lookup_nil in Hl.
    - intros i j n (l & Hl & _). by rewrite lookup_nil in Hl.
    - intros j s d (l & Hl & _). by rewrite lookup_nil in Hl. }
  destruct (layers_loop_tight deps_map Hdom Hdeps (S (size nodes)) [] current m ∅)
    as (peeled' & sn' & Hloop' & Htight); [done| | |done|].
  { split.
    - by intros layer ?%elem_of_nil.
    - by intros layer ?%elem_of_nil.
    - intros j v (l & Hl & _). by rewrite lookup_nil in Hl. }
  { intros v k _ [=]. }
  rewrite Hloop in Hloop'. injection Hloop' as <- <-.
  rewrite Hloop bind_Ok_l. cbn [fst snd].
  eexists _, peeled, sn. split_and!; [done| |done]. split; [done..| |].
  - intros v Hv Hvs.
    destruct (cnt_pos_pred deps_map Hdom Hdeps sn v) as (s & He & Hs).
    { rewrite (Hzero v Hv). done. }
    exists s. split_and!; [done| |done]. by apply (Hinduced s v).
  - by destruct (filter (λ n, n ∉ sn) (elements nodes)).
Qed.

End layers_proofs.

Section layering_facts.

Variable nodes : gset string.
Variable edges : list (string * string).
Variables levels peeled : list (list string).
Variable sn : gset string.
Hypothesis HL : layering nodes edges levels peeled sn.

Lemma remain_elem n :
  n ∈ filter (λ n, n ∉ sn) (elements nodes) ↔ n ∈ nodes ∧ n ∉ sn.
Proof. rewrite list_elem_of_filter elem_of_elements. naive_solver. Qed.

Lemma layering_in_layer i n :
  in_layer levels i n ↔
  in_layer peeled i n ∨ (i = length peeled ∧ n ∈ nodes ∧ n ∉ sn).
Proof.
  rewrite (layering_levels _ _ _ _ _ HL).
  destruct (filter (λ n, n ∉ sn) (elements nodes)) as [|r remain] eqn:Hr.
  - split; [by left|]. intros [?|(_ & Hn & Hs)]; [done|].
    assert (n ∈ filter (λ n, n ∉ sn) (elements nodes)) as Hin by by apply remain_elem.
    rewrite Hr in Hin. by apply elem_of_nil in Hin.
  - rewrite in_layer_snoc -Hr remain_elem. naive_solver.
Qed.

Lemma layering_placed n : n ∈ nodes ↔ ∃ i, in_layer levels i n.
Proof.
  destruct HL as [[Hls _ _] Hsub _ _]. split.
  - intros Hn. destruct (decide (n ∈ sn)) as [Hs|Hs].
    + apply Hls in Hs as [i Hi]. exists i. apply layering_in_layer. by left.
    + exists (length peeled). apply layering_in_layer. by right.
  - intros [i [Hi|(_ & Hn & _)]%layering_in_layer]; [|done].
    apply Hsub, Hls. eauto.
Qed.

Lemma layering_unique i j n : in_layer levels i n → in_layer levels j n → i = j.
Proof.
  destruct HL as [[Hls Hlu _] _ _ _].
  intros [Hi|(-> & _ & Hi)]%layering_in_layer [Hj|(-> & _ & Hj)]%layering_in_layer.
  - by eapply Hlu.
  - destruct Hj. apply Hls. eauto.
  - destruct Hi. apply Hls. eauto.
  - done.
Qed.

Lemma layering_final n : n ∈ nodes → n ∉ sn → in_final_layer levels n.
Proof.
  intros Hn Hs. unfold in_final_layer. rewrite (layering_levels _ _ _ _ _ HL).
  assert (n ∈ filter (λ n, n ∉ sn) (elements nodes)) as Hin by by apply remain_elem.
  destruct (filter (λ n, n ∉ sn) (elements nodes)) as [|r remain].
  - by apply elem_of_nil in Hin.
  - eexists. split; [apply last_snoc|done].
Qed.

(** Whatever reaches a peeled node was peeled in an earlier layer. *)
Lemma peeled_ancestors a d j :
  tc (edge_of edges) a d → in_layer peeled j d →
  ∃ i, i < j ∧ in_layer peeled i a.
Proof.
  destruct HL as [[_ _ Hlr] _ _ _].
  intros Htc. revert j. induction Htc as [a d He|a b d He _ IH]; intros j Hj.
  - by eapply Hlr.
  - destruct (IH j Hj) as (i & Hij & Hi).
    destruct (Hlr i a b Hi He) as (i' & Hi'i & Hi'). exists i'. split; [lia|done].
Qed.

Lemma cycle_not_seen n : on_cycle edges n → n ∉ sn.
Proof.
  intros Hc Hs. pose proof HL as [[Hls Hlu _] _ _ _].
  apply Hls in Hs as [j Hj].
  destruct (peeled_ancestors n n j Hc Hj) as (i & Hij & Hi).
  assert (i = j) by by eapply Hlu. lia.
Qed.

Lemma successors_not_seen c z :
  c ∉ sn → rtc (edge_of edges) c z → z ∉ sn.
Proof.
  intros Hc [->|Htc]%rtc_tc Hz; [done|].
  pose proof HL as [[Hls _ _] _ _ _]. apply Hls in Hz as [j Hj].
  destruct (peeled_ancestors c z j Htc Hj) as (i & _ & Hi).
  apply Hc, Hls. eauto.
Qed.

Lemma tc_flip_edge x y :
  tc (λ a b, edge_of edges b a) x y → tc (edge_of edges) y x.
Proof.
  induction 1 as [x y He|x y z He _ IH].
  - by apply tc_once.
  - eapply tc_r; [done|done].
Qed.

(** Without a cycle every node is peeled: a node left over has a
    predecessor left over, and so on for ever inside a finite set. *)
Lemma acyclic_all_seen n : acyclic edges → n ∈ nodes → n ∈ sn.
Proof.
  intros Hac Hn. destruct (decide (n ∈ sn)) as [|Hs]; [done|]. exfalso.
  assert (Acc (flip (λ a b, edge_of edges b a)) n) as Hacc.
  { apply tc_finite_sn.
    - intros x Hx%tc_flip_edge. by apply (Hac x).
    - exists (edges.*1). intros y Hy.
      assert (∃ z, (y, z) ∈ edges) as [z Hz].
      { clear -Hy. induction Hy as [x y He|x y z He _ IH]; [by exists x|done]. }
      apply list_elem_of_fmap. by exists (y, z). }
  revert Hn Hs. induction Hacc as [n _ IH]. intros Hn Hs.
  destruct (layering_stuck _ _ _ _ _ HL n Hn Hs) as (s & He & Hsn & Hss).
  by apply (IH s).
Qed.

End layering_facts.

(** C3: on the nodes and the edges between them that the dialog is built
    from, [topologicalLayers] ends within its fuel and places every node in
    exactly one layer; when the edges have no cycle, the source of every
    edge is in a layer of smaller index than its destination; and every node
    that lies on a cycle is in the final layer. *)
Theorem topologicalLayers_order_and_cycles (nodes : gset string)
    (edges : list (string * string)) :
  induced nodes edges →
  ∃ levels, topologicalLayers nodes edges = Ok levels ∧
    (∀ n, n ∈ nodes ↔ ∃ i, in_layer levels i n) ∧
    (∀ i j n, in_layer levels i n → in_layer levels j n → i = j) ∧
    (acyclic edges →
       ∀ s d i j, (s, d) ∈ edges → in_layer levels i s → in_layer levels j d → i < j) ∧
    (∀ n, on_cycle edges n → in_final_layer levels n).
Proof.
  intros Hind.
  destruct (topologicalLayers_spec nodes edges Hind) as (levels & peeled & sn & Hrun & HL).
  exists levels. split_and!; [done|..].
  - by eapply layering_placed.
  - by eapply layering_unique.
  - intros Hac s d i j He Hi Hj.
    destruct (Hind s d He) as [Hs Hd].
    pose proof (acyclic_all_seen _ _ _ _ _ HL d Hac Hd) as Hdseen.
    pose proof HL as [[Hls _ Hlr] _ _ _].
    apply Hls in Hdseen as [j' Hj'].
    destruct (Hlr j' s d Hj' He) as (i' & Hij & Hi').
    assert (in_layer levels j' d) as Hj2 by (eapply layering_in_layer; [done|by left]).
    assert (in_layer levels i' s) as Hi2 by (eapply layering_in_layer; [done|by left]).
    assert (i = i') by by eapply layering_unique.
    assert (j = j') by by eapply layering_unique.
    lia.
  - intros n Hc. eapply layering_final; [done| |by eapply cycle_not_seen].
    assert (∃ z, (n, z) ∈ edges) as [z Hz].
    { clear -Hc. unfold on_cycle in Hc.
      inversion Hc as [? ? He|? y ? He]; by eexists. }
    by apply (Hind n z).
Qed.

(** C10: the nodes the loop never peels all go to the one final layer, and
    these are not the cycle members alone: every node that a cycle member
    reaches along forward edges is in the final layer too.  In X→Y, Y→X, X→Z
    the node Z, which is on no cycle, shares the single layer with X and
    Y. *)
Theorem final_layer_holds_cycle_successors :
  (∀ (nodes : gset string) (edges : list (string * string)),
     induced nodes edges →
     ∃ levels, topologicalLayers nodes edges = Ok levels ∧
       ∀ c z, on_cycle edges c → rtc (edge_of edges) c z → in_final_layer levels z) ∧
  (¬ on_cycle cycle_tail_edges "Z" ∧
   ∃ layer, topologicalLayers cycle_tail_nodes cycle_tail_edges = Ok [layer] ∧
            "X" ∈ layer ∧ "Y" ∈ layer ∧ "Z" ∈ layer).
Proof.
  split.
  - intros nodes edges Hind.
    destruct (topologicalLayers_spec nodes edges Hind) as (levels & peeled & sn & Hrun & HL).
    exists levels. split; [done|]. intros c z Hc Hcz.
    eapply layering_final; [done| |].
    + apply rtc_tc in Hcz as [<-|Hcz].
      * assert (∃ y, (c, y) ∈ edges) as [y Hy].
        { clear -Hc. inversion Hc as [? ? He|? y ? He]; by eexists. }
        by apply (Hind c y).
      * assert (∃ y, (y, z) ∈ edges) as [y Hy].
        { clear -Hcz. induction Hcz as [x z He|x y z He _ IH]; [by exists x|done]. }
        by apply (Hind y z).
    + eapply successors_not_seen; [done| |done]. by eapply cycle_not_seen.
  - split.
    + intros Hc. assert (∃ y, ("Z", y) ∈ cycle_tail_edges) as [y Hy].
      { inversion Hc as [? ? He|? y ? He]; by eexists. }
      unfold cycle_tail_edges in Hy. set_solver.
    + eexists. split; [vm_compute; reflexivity|]. set_solver.
Qed.

(** ** Selection propagation *)

Lemma for_each_ext_Ok {A S} (l : list A) (f g : A → S → result S) (s r : S) :
  (∀ x s r, x ∈ l → f x s = Ok r → g x s = Ok r) →
  for_each l f s = Ok r → for_each l g s = Ok r.
Proof.
  revert s. induction l as [|x l IH]; intros s Hfg; simpl; [done|].
  intros (s1 & Hx & Hl)%bind_Ok.
  assert (g x s = Ok s1) as -> by (apply Hfg; [left|done]). simpl.
  apply IH; [|done]. intros y s' r' Hy. apply Hfg. by right.
Qed.

(** More fuel never changes a result. *)
Lemma propagation_fuel_mono (n : nat) :
  (∀ p v s r, select_dependencies n p v s = Ok r →
     ∀ m, n ≤ m → select_dependencies m p v s = Ok r) ∧
  (∀ p v s r, deselect_dependent_packages n p v s = Ok r →
     ∀ m, n ≤ m → deselect_dependent_packages m p v s = Ok r) ∧
  (∀ p b s r, setChecked n p b s = Ok r →
     ∀ m, n ≤ m → setChecked m p b s = Ok r) ∧
  (∀ p s r, on_package_checkbox_changed n p s = Ok r →
     ∀ m, n ≤ m → on_package_checkbox_changed m p s = Ok r).
Proof.
  induction n as [|n (IHsel & IHdes & IHset & IHon)]; [by split_and!|].
  split_and!.
  - intros p v s r Hr [|m] Hm; [lia|]. simpl in *.
    destruct (decide (p ∈ v)); [done|].
    apply bind_Ok in Hr as (s1 & Hs1 & Hr). apply bind_Ok. exists s1. split.
    + destruct (decide (p ∈ dom (package_checkboxes s))); [|done].
      apply IHset; [done|lia].
    + eapply for_each_ext_Ok; [|done]. intros x vs r' _ Hx. apply IHsel; [done|lia].
  - intros p v s r Hr [|m] Hm; [lia|]. simpl in *.
    destruct (decide (p ∈ v)); [done|].
    eapply for_each_ext_Ok; [|done]. intros x vs r' _ Hx. simpl in *.
    destruct (decide (x ∈ dom (package_checkboxes vs.2))); [|done].
    apply bind_Ok in Hx as (s1 & Hs1 & Hx). apply bind_Ok. exists s1. split.
    + apply IHset; [done|lia].
    + apply IHdes; [done|lia].
  - intros p b s r Hr [|m] Hm; [lia|]. simpl in *.
    destruct (decide (package_checkboxes s !! p = Some b)); [done|].
    apply IHon; [done|lia].
  - intros p s r Hr [|m] Hm; [lia|]. simpl in *.
    destruct (package_checkboxes s !! p) as [[]|]; [| |done].
    + apply bind_Ok in Hr as (vs & Hvs & Hr). apply bind_Ok. exists vs. split; [|done].
      apply IHsel; [done|lia].
    + apply bind_Ok in Hr as (vs & Hvs & Hr). apply bind_Ok. exists vs. split; [|done].
      apply IHdes; [done|lia].
Qed.

Lemma boxes_in_elem b s q : q ∈ boxes_in b s ↔ package_checkboxes s !! q = Some b.
Proof.
  unfold boxes_in. rewrite elem_of_dom. split.
  - intros [b' [Hq Hb]%map_lookup_filter_Some]. simpl in Hb. by subst.
  - intros Hq. exists b. by apply map_lookup_filter_Some.
Qed.

Lemma boxes_in_set_checkbox p b s :
  package_checkboxes s !! p = Some (negb b) →
  boxes_in (negb b) s = {[p]} ∪ boxes_in (negb b) (set_checkbox p b s) ∧
  p ∉ boxes_in (negb b) (set_checkbox p b s).
Proof.
  intros Hp. split.
  - apply set_eq. intros q.
    rewrite elem_of_union elem_of_singleton !boxes_in_elem. simpl.
    destruct (decide (q = p)) as [->|Hne].
    + rewrite lookup_insert_eq. naive_solver.
    + rewrite lookup_insert_ne //. naive_solver.
  - rewrite boxes_in_elem. simpl. rewrite lookup_insert_eq. by destruct b.
Qed.

Lemma size_boxes_in_set_checkbox p b s :
  package_checkboxes s !! p = Some (negb b) →
  size (boxes_in (negb b) s) = S (size (boxes_in (negb b) (set_checkbox p b s))).
Proof.
  intros [-> Hp]%boxes_in_set_checkbox.
  rewrite size_union; [by rewrite size_singleton|]. set_solver.
Qed.

Lemma same_graph_refl s : same_graph s s.
Proof. by split. Qed.

Lemma same_graph_trans s1 s2 s3 : same_graph s1 s2 → same_graph s2 s3 → same_graph s1 s3.
Proof. intros [? ? ?] [? ? ?]. split; congruence. Qed.

Lemma same_graph_wf s s' : same_graph s s' → gui_wf s → gui_wf s'.
Proof.
  intros [Hf Hr Hd] [? ? ? ?]. split; rewrite ?Hf ?Hr ?Hd //.
Qed.

Lemma propagated_refl b s : propagated b s s.
Proof.
  split; [apply same_graph_refl|done|]. exists []. rewrite app_nil_r.
  split_and!; [done| |done]. by intros e ?%elem_of_nil.
Qed.

Lemma propagated_trans b s1 s2 s3 :
  propagated b s1 s2 → propagated b s2 s3 → propagated b s1 s3.
Proof.
  intros [Hg1 Hk1 (n1 & Hc1 & Hb1 & Hs1)] [Hg2 Hk2 (n2 & Hc2 & Hb2 & Hs2)]. split.
  - by eapply same_graph_trans.
  - auto.
  - exists (n1 ++ n2). split_and!.
    + by rewrite Hc2 Hc1 assoc.
    + intros e [?|?]%elem_of_app; auto.
    + rewrite length_app. lia.
Qed.

Lemma propagated_size b s s' :
  propagated b s s' → size (boxes_in (negb b) s') ≤ size (boxes_in (negb b) s).
Proof. intros [_ _ (new & _ & _ & Hsz)]. lia. Qed.

(** The first thing a changed box does: its handler logs a call. *)
Lemma propagated_flip b p s s' :
  package_checkboxes s !! p = Some (negb b) →
  propagated b (log_call p b (set_checkbox p b s)) s' →
  propagated b s s'.
Proof.
  intros Hp [[Hf Hr Hd] Hk (new & Hc & Hb & Hs)]. simpl in *. split.
  - split; [done..|]. rewrite Hd dom_insert_L. apply elem_of_dom_2 in Hp. set_solver.
  - intros q Hq. apply Hk. rewrite lookup_insert_ne //. intros ->.
    rewrite Hp in Hq. by destruct b.
  - exists ((p, b) :: new). split_and!.
    + by rewrite Hc -assoc.
    + intros e [->|?]%elem_of_cons; auto.
    + rewrite (size_boxes_in_set_checkbox p b s Hp). simpl.
      change (boxes_in (negb b) (log_call p b (set_checkbox p b s)))
        with (boxes_in (negb b) (set_checkbox p b s)) in Hs. lia.
Qed.

Lemma select_post_trans s v r1 r2 :
  select_post s v r1 → select_post r1.2 r1.1 r2 → select_post s v r2.
Proof.
  intros [Hp1 Hv1 Hc1 Hcl1 Hb1] [Hp2 Hv2 Hc2 Hcl2 Hb2].
  pose proof (prop_graph _ _ _ Hp1) as [Hf _ Hd]. split.
  - by eapply propagated_trans.
  - set_solver.
  - intros q Hq Hqv. destruct (decide (q ∈ r1.1)) as [Hq1|Hq1].
    + by apply (prop_keeps _ _ _ Hp2), Hc1.
    + by apply Hc2.
  - intros q d Hq Hqv Hd'. destruct (decide (q ∈ r1.1)) as [Hq1|Hq1].
    + apply Hv2. by eapply Hcl1.
    + eapply Hcl2; [done..|]. by rewrite Hf.
  - rewrite Hd in Hb2. set_solver.
Qed.

Lemma select_post_start s v : select_post s v (v, s).
Proof.
  split; simpl; [apply propagated_refl|done|done|done|set_solver].
Qed.

(** [setChecked(True)], given that the propagation it may start ends. *)
Lemma setChecked_true_runs (N : nat) :
  (∀ s p, gui_wf s → p ∈ dom (package_checkboxes s) → size (boxes_in false s) < N →
     ∃ fuel r, select_dependencies fuel p ∅ s = Ok r ∧ select_post s ∅ r) →
  ∀ s p, gui_wf s → p ∈ dom (package_checkboxes s) → size (boxes_in false s) ≤ N →
    ∃ fuel s', setChecked fuel p true s = Ok s' ∧ propagated true s s' ∧ checked s' p.
Proof.
  intros IH s p Hwf Hp Hsz.
  destruct (decide (package_checkboxes s !! p = Some true)) as [Ht|Hf].
  - exists 1, s. simpl. rewrite decide_True //. split_and!; [done| |done].
    apply propagated_refl.
  - assert (package_checkboxes s !! p = Some false) as Hpf.
    { apply elem_of_dom in Hp as [[] Hb]; [done|done]. }
    set (s0 := log_call p true (set_checkbox p true s)).
    assert (same_graph s s0) as Hsg.
    { split; [done..|]. simpl. rewrite dom_insert_L. set_solver. }
    destruct (IH s0 p) as (fuel & r & Hrun & Hpost).
    + by eapply same_graph_wf.
    + by rewrite (same_boxes _ _ Hsg).
    + pose proof (size_boxes_in_set_checkbox p true s Hpf) as Hs. simpl in Hs.
      change (boxes_in false s0) with (boxes_in false (set_checkbox p true s)). lia.
    + exists (S (S fuel)), r.2. split_and!.
      * simpl. rewrite decide_False //. simpl. rewrite lookup_insert_eq.
        fold s0. by rewrite Hrun.
      * eapply (propagated_flip true); [done|]. apply Hpost.
      * apply (prop_keeps _ _ _ (sel_propagated _ _ _ Hpost)). simpl.
        by rewrite lookup_insert_eq.
Qed.

(** The loop [for dep in ...: self.select_dependencies(dep, visited)], given
    that each of its calls ends. *)
Lemma select_loop_runs (n M : nat) :
  (∀ s p v, gui_wf s → p ∈ dom (package_checkboxes s) →
     size (boxes_in false s) ≤ n → size (dom (package_checkboxes s) ∖ v) < M →
     ∃ fuel r, select_dependencies fuel p v s = Ok r ∧ select_post s v r ∧ p ∈ r.1) →
  ∀ l s v, gui_wf s → (∀ d, d ∈ l → d ∈ dom (package_checkboxes s)) →
    size (boxes_in false s) ≤ n → size (dom (package_checkboxes s) ∖ v) < M →
    ∃ fuel r,
      for_each l (λ dep vs, select_dependencies fuel dep vs.1 vs.2) (v, s) = Ok r ∧
      select_post s v r ∧ ∀ d, d ∈ l → d ∈ r.1.
Proof.
  intros IH l. induction l as [|d l IHl]; intros s v Hwf Hl Hn HM.
  - exists 0, (v, s). split_and!; [done|apply select_post_start|].
    by intros d ?%elem_of_nil.
  - destruct (IH s d v) as (fuel0 & [v0 s0] & Hrun0 & Hpost0 & Hd0); [done| |done..|].
    { apply Hl. left. }
    pose proof (sel_propagated _ _ _ Hpost0) as Hprop0. simpl in *.
    pose proof (prop_graph _ _ _ Hprop0) as Hsg0.
    destruct (IHl s0 v0) as (fuel1 & r & Hrun1 & Hpost1 & Hl1).
    + by eapply same_graph_wf.
    + intros x Hx. rewrite (same_boxes _ _ Hsg0). apply Hl. by right.
    + pose proof (propagated_size _ _ _ Hprop0). simpl in *. lia.
    + rewrite (same_boxes _ _ Hsg0).
      assert (size (dom (package_checkboxes s) ∖ v0)
              ≤ size (dom (package_checkboxes s) ∖ v)); [|lia].
      apply subseteq_size. pose proof (sel_visited _ _ _ Hpost0). set_solver.
    + exists (fuel0 `max` fuel1), r. split_and!.
      * simpl.
        assert (select_dependencies (fuel0 `max` fuel1) d v s = Ok (v0, s0)) as ->
          by (apply (proj1 (propagation_fuel_mono fuel0)); [done|lia]).
        simpl. eapply for_each_ext_Ok; [|done]. intros x vs r' _ Hx.
        apply (proj1 (propagation_fuel_mono fuel1)); [done|lia].
      * by eapply select_post_trans.
      * intros x [->|Hx]%elem_of_cons; [|by apply Hl1].
        by apply (sel_visited _ _ _ Hpost1).
Qed.

(** [select_dependencies] ends on every state that [refresh_packages] can
    leave: by induction on the number of boxes not ticked, then on the number
    of packages not visited. *)
Lemma select_runs (n m : nat) :
  ∀ s p v, gui_wf s → p ∈ dom (package_checkboxes s) →
    size (boxes_in false s) ≤ n → size (dom (package_checkboxes s) ∖ v) ≤ m →
    ∃ fuel r, select_dependencies fuel p v s = Ok r ∧ select_post s v r ∧ p ∈ r.1.
Proof.
  revert m. induction n as [n IHn] using lt_wf_ind. intros m.
  induction m as [m IHm] using lt_wf_ind. intros s p v Hwf Hp Hn Hm.
  destruct (decide (p ∈ v)) as [Hpv|Hpv].
  { exists 1, (v, s). simpl. rewrite decide_True //.
    split_and!; [done|apply select_post_start|done]. }
  destruct (setChecked_true_runs n) with (s := s) (p := p)
    as (fuelA & s1 & HrunA & HpropA & Hchk); [|done..|].
  { intros s' p' Hwf' Hp' Hlt.
    destruct (IHn (size (boxes_in false s')) Hlt
                (size (dom (package_checkboxes s') ∖ ∅)) s' p' ∅)
      as (fuel & r & ? & ? & ?); eauto. }
  pose proof (prop_graph _ _ _ HpropA) as [Hf1 Hr1 Hd1].
  assert (gui_wf s1) as Hwf1 by (eapply same_graph_wf; [|done]; by split).
  assert (size (dom (package_checkboxes s) ∖ (v ∪ {[p]}))
          < size (dom (package_checkboxes s) ∖ v)) as Hlt.
  { apply subset_size. split; [set_solver|]. intros Hsub.
    assert (p ∈ dom (package_checkboxes s) ∖ v) as Hin by set_solver.
    apply Hsub in Hin. set_solver. }
  destruct (select_loop_runs n m) with
    (l := elements (get_set (package_dependencies s1) p)) (s := s1) (v := v ∪ {[p]})
    as (fuelB & r & HrunB & HpostB & HlB); [|done|..].
  { intros s' p' v' ? ? ? Hlt'.
    by apply (IHm (size (dom (package_checkboxes s') ∖ v')) Hlt'). }
  { intros d Hd%elem_of_elements. by eapply wf_forward_closed. }
  { pose proof (propagated_size _ _ _ HpropA). simpl in *. lia. }
  { rewrite Hd1. lia. }
  exists (S (fuelA `max` fuelB)), r. split_and!.
  - simpl. rewrite decide_False // decide_True //.
    assert (setChecked (fuelA `max` fuelB) p true s = Ok s1) as ->.
    { eapply (proj1 (proj2 (proj2 (propagation_fuel_mono fuelA)))); [done|lia]. }
    simpl. eapply for_each_ext_Ok; [|done]. intros x vs r' _ Hx.
    apply (proj1 (propagation_fuel_mono fuelB)); [done|lia].
  - destruct HpostB as [HpB HvB HcB HclB HbB]. split.
    + by eapply propagated_trans.
    + set_solver.
    + intros q Hq Hqv. destruct (decide (q = p)) as [->|Hne].
      * by apply (prop_keeps _ _ _ HpB).
      * apply HcB; [done|]. set_solver.
    + intros q d Hq Hqv Hd. rewrite -Hf1 in Hd. destruct (decide (q = p)) as [->|Hne].
      * apply HlB. by apply elem_of_elements.
      * eapply HclB; [done| |done]. set_solver.
    + rewrite Hd1 in HbB. set_solver.
  - apply (sel_visited _ _ _ HpostB). set_solver.
Qed.

(** C1: on a state that [refresh_packages] can leave, acyclic or cyclic, the
    top-level call [select_dependencies(P)] (a fresh [visited]) of a package
    of the graph ends, the same way for every larger fuel, and when it has
    ended the box of every package reachable from P along forward edges is
    ticked. *)
Theorem select_reaches_all_dependencies (s : gui) (p : string) :
  gui_wf s → p ∈ dom (package_dependencies s) →
  ∃ fuel visited s',
    (∀ fuel', fuel ≤ fuel' → select_dependencies fuel' p ∅ s = Ok (visited, s')) ∧
    package_dependencies s' = package_dependencies s ∧
    ∀ q, reachable (package_dependencies s) p q → checked s' q.
Proof.
  intros Hwf Hp. rewrite (wf_forward_dom _ Hwf) in Hp.
  destruct (select_runs (size (boxes_in false s))
              (size (dom (package_checkboxes s) ∖ ∅)) s p ∅)
    as (fuel & [visited s'] & Hrun & [Hprop Hv Hc Hcl Hb] & Hpv); [done..|].
  exists fuel, visited, s'. simpl in *. split_and!.
  - intros fuel' Hle. by apply (proj1 (propagation_fuel_mono fuel)).
  - apply (prop_graph _ _ _ Hprop).
  - intros q Hq. apply Hc; [|set_solver]. clear Hrun Hp. revert Hpv.
    induction Hq as [|a b c Hab _ IH]; intros Ha; [done|].
    apply IH. eapply Hcl; [done|set_solver|done].
Qed.

Lemma deselect_post_start s v : deselect_post s v ∅ (v, s).
Proof. split; simpl; [apply propagated_refl|done|done|done]. Qed.

Lemma deselect_post_trans s v r1 r2 :
  deselect_post s v ∅ r1 → deselect_post r1.2 r1.1 ∅ r2 → deselect_post s v ∅ r2.
Proof.
  intros [Hp1 Hv1 Hc1 Hcl1] [Hp2 Hv2 Hc2 Hcl2].
  pose proof (prop_graph _ _ _ Hp1) as [_ Hr _]. split.
  - by eapply propagated_trans.
  - set_solver.
  - intros q Hq Hqv Hroot. destruct (decide (q ∈ r1.1)) as [Hq1|Hq1].
    + by apply (prop_keeps _ _ _ Hp2), Hc1.
    + by apply Hc2.
  - intros q d Hq Hqv Hd. destruct (decide (q ∈ r1.1)) as [Hq1|Hq1].
    + apply Hv2. by eapply Hcl1.
    + eapply Hcl2; [done..|]. by rewrite Hr.
Qed.

(** [setChecked(False)], given that the propagation it may start ends. *)
Lemma setChecked_false_runs (N : nat) :
  (∀ s p, gui_wf s → p ∈ dom (package_checkboxes s) → size (boxes_in true s) < N →
     ∃ fuel r, deselect_dependent_packages fuel p ∅ s = Ok r ∧
               deselect_post s ∅ {[p]} r) →
  ∀ s p, gui_wf s → p ∈ dom (package_checkboxes s) → size (boxes_in true s) ≤ N →
    ∃ fuel s', setChecked fuel p false s = Ok s' ∧ propagated false s s' ∧
               package_checkboxes s' !! p = Some false.
Proof.
  intros IH s p Hwf Hp Hsz.
  destruct (decide (package_checkboxes s !! p = Some false)) as [Ht|Hf].
  - exists 1, s. simpl. rewrite decide_True //. split_and!; [done| |done].
    apply propagated_refl.
  - assert (package_checkboxes s !! p = Some true) as Hpf.
    { apply elem_of_dom in Hp as [[] Hb]; [done|done]. }
    set (s0 := log_call p false (set_checkbox p false s)).
    assert (same_graph s s0) as Hsg.
    { split; [done..|]. simpl. rewrite dom_insert_L. set_solver. }
    destruct (IH s0 p) as (fuel & r & Hrun & Hpost).
    + by eapply same_graph_wf.
    + by rewrite (same_boxes _ _ Hsg).
    + pose proof (size_boxes_in_set_checkbox p false s Hpf) as Hs. simpl in Hs.
      change (boxes_in true s0) with (boxes_in true (set_checkbox p false s)). lia.
    + exists (S (S fuel)), r.2. split_and!.
      * simpl. rewrite decide_False //. simpl. rewrite lookup_insert_eq.
        fold s0. by rewrite Hrun.
      * eapply (propagated_flip false); [done|]. apply Hpost.
      * apply (prop_keeps _ _ _ (des_propagated _ _ _ _ Hpost)). simpl.
        by rewrite lookup_insert_eq.
Qed.

(** The loop of [deselect_dependent_packages] over the dependents. *)
Lemma deselect_loop_runs (n M : nat) :
  (∀ s p v, gui_wf s → p ∈ dom (package_checkboxes s) →
     size (boxes_in true s) ≤ n → size (dom (package_checkboxes s) ∖ v) < M →
     ∃ fuel r, deselect_dependent_packages fuel p v s = Ok r ∧
               deselect_post s v {[p]} r ∧ p ∈ r.1) →
  (∀ s p, gui_wf s → p ∈ dom (package_checkboxes s) → size (boxes_in true s) ≤ n →
     ∃ fuel s', setChecked fuel p false s = Ok s' ∧ propagated false s s' ∧
                package_checkboxes s' !! p = Some false) →
  ∀ l s v, gui_wf s → (∀ d, d ∈ l → d ∈ dom (package_checkboxes s)) →
    size (boxes_in true s) ≤ n → size (dom (package_checkboxes s) ∖ v) < M →
    ∃ fuel r,
      for_each l
        (λ dep vs,
           if decide (dep ∈ dom (package_checkboxes vs.2))
           then s' ← setChecked fuel dep false vs.2 ;
                deselect_dependent_packages fuel dep vs.1 s'
           else Ok vs) (v, s) = Ok r ∧
      deselect_post s v ∅ r ∧ ∀ d, d ∈ l → d ∈ r.1.
Proof.
  intros IH IHset l. induction l as [|d l IHl]; intros s v Hwf Hl Hn HM.
  - exists 0, (v, s). split_and!; [done|apply deselect_post_start|].
    by intros d ?%elem_of_nil.
  - assert (d ∈ dom (package_checkboxes s)) as Hd by (apply Hl; left).
    destruct (IHset s d) as (fuelA & s1 & HrunA & HpropA & HdA); [done..|].
    pose proof (prop_graph _ _ _ HpropA) as HsgA.
    pose proof (propagated_size _ _ _ HpropA) as HszA. simpl in HszA.
    destruct (IH s1 d v) as (fuel0 & [v0 s0] & Hrun0 & Hpost0 & Hd0).
    { by eapply same_graph_wf. }
    { by rewrite (same_boxes _ _ HsgA). }
    { lia. }
    { by rewrite (same_boxes _ _ HsgA). }
    destruct Hpost0 as [Hp0 Hv0 Hc0 Hcl0]. simpl in *.
    assert (propagated false s s0) as Hprop by by eapply propagated_trans.
    pose proof (prop_graph _ _ _ Hprop) as Hsg.
    assert (deselect_post s v ∅ (v0, s0)) as Hpost.
    { split; simpl; [done|done| |].
      - intros q Hq Hqv _. destruct (decide (q = d)) as [->|Hne].
        + by apply (prop_keeps _ _ _ Hp0).
        + apply Hc0; [done..|set_solver].
      - intros q x Hq Hqv Hx. eapply Hcl0; [done..|].
        by rewrite (same_reverse _ _ HsgA). }
    destruct (IHl s0 v0) as (fuel1 & r & Hrun1 & Hpost1 & Hl1).
    + by eapply same_graph_wf.
    + intros x Hx. rewrite (same_boxes _ _ Hsg). apply Hl. by right.
    + pose proof (propagated_size _ _ _ Hprop). simpl in *. lia.
    + rewrite (same_boxes _ _ Hsg).
      assert (size (dom (package_checkboxes s) ∖ v0)
              ≤ size (dom (package_checkboxes s) ∖ v)); [|lia].
      apply subseteq_size. set_solver.
    + exists (fuelA `max` (fuel0 `max` fuel1)), r. split_and!.
      * simpl. rewrite decide_True //.
        assert (setChecked (fuelA `max` (fuel0 `max` fuel1)) d false s = Ok s1) as ->.
        { eapply (proj1 (proj2 (proj2 (propagation_fuel_mono fuelA)))); [done|lia]. }
        simpl.
        assert (deselect_dependent_packages (fuelA `max` (fuel0 `max` fuel1)) d v s1
                = Ok (v0, s0)) as ->.
        { eapply (proj1 (proj2 (propagation_fuel_mono fuel0))); [done|lia]. }
        simpl. eapply for_each_ext_Ok; [|done]. intros x vs r' _ Hx. simpl in *.
        destruct (decide (x ∈ dom (package_checkboxes vs.2))); [|done].
        apply bind_Ok in Hx as (s2 & Hs2 & Hx). apply bind_Ok. exists s2. split.
        -- eapply (proj1 (proj2 (proj2 (propagation_fuel_mono fuel1)))); [done|lia].
        -- eapply (proj1 (proj2 (propagation_fuel_mono fuel1))); [done|lia].
      * by eapply deselect_post_trans.
      * intros x [->|Hx]%elem_of_cons; [|by apply Hl1].
        by apply (des_visited _ _ _ _ Hpost1).
Qed.

(** [deselect_dependent_packages] ends on every state that
    [refresh_packages] can leave. *)
Lemma deselect_runs (n m : nat) :
  ∀ s p v, gui_wf s → p ∈ dom (package_checkboxes s) →
    size (boxes_in true s) ≤ n → size (dom (package_checkboxes s) ∖ v) ≤ m →
    ∃ fuel r, deselect_dependent_packages fuel p v s = Ok r ∧
              deselect_post s v {[p]} r ∧ p ∈ r.1.
Proof.
  revert m. induction n as [n IHn] using lt_wf_ind. intros m.
  induction m as [m IHm] using lt_wf_ind. intros s p v Hwf Hp Hn Hm.
  destruct (decide (p ∈ v)) as [Hpv|Hpv].
  { exists 1, (v, s). simpl. rewrite decide_True //.
    split_and!; [done| |done]. split; simpl; [apply propagated_refl|done..]. }
  assert (size (dom (package_checkboxes s) ∖ (v ∪ {[p]}))
          < size (dom (package_checkboxes s) ∖ v)) as Hlt.
  { apply subset_size. split; [set_solver|]. intros Hsub.
    assert (p ∈ dom (package_checkboxes s) ∖ v) as Hin by set_solver.
    apply Hsub in Hin. set_solver. }
  destruct (deselect_loop_runs n m) with
    (l := elements (get_set (reverse_dependencies s) p)) (s := s) (v := v ∪ {[p]})
    as (fuelB & r & HrunB & HpostB & HlB); [| |done|..].
  { intros s' p' v' ? ? ? Hlt'.
    by apply (IHm (size (dom (package_checkboxes s') ∖ v')) Hlt'). }
  { apply setChecked_false_runs. intros s' p' Hwf' Hp' Hlt'.
    destruct (IHn (size (boxes_in true s')) Hlt'
                (size (dom (package_checkboxes s') ∖ ∅)) s' p' ∅)
      as (fuel & r & ? & ? & ?); eauto. }
  { intros d Hd%elem_of_elements. by eapply wf_reverse_closed. }
  { done. }
  { lia. }
  exists (S fuelB), r. split_and!.
  - simpl. rewrite decide_False //.
  - destruct HpostB as [HpB HvB HcB HclB]. split.
    + done.
    + set_solver.
    + intros q Hq Hqv Hroot. apply HcB; [done|set_solver|done].
    + intros q d Hq Hqv Hd. destruct (decide (q = p)) as [->|Hne].
      * apply HlB. by apply elem_of_elements.
      * eapply HclB; [done| |done]. set_solver.
  - apply (des_visited _ _ _ _ HpostB). set_solver.
Qed.

(** ** The scenario A→B→C *)

Lemma scenario_refresh : refresh_packages scenario_walk [] = Ok scenario_gui.
Proof. vm_compute. reflexivity. Qed.

Lemma scenario_gui_wf : gui_wf scenario_gui.
Proof. exact (refresh_packages_wf _ _ _ scenario_refresh). Qed.

(** C2: in the workspace A→B→C with nothing selected, ticking A leaves A, B
    and C ticked; unticking B then leaves B and A unticked and C ticked.
    Twenty units of fuel are enough for either propagation, and more fuel
    gives the same states. *)
Theorem scenario_select_A_then_deselect_B :
  ∃ s0 s1 s2,
    refresh_packages scenario_walk [] = Ok s0 ∧
    package_checkboxes s0 = {[ "A" := false; "B" := false; "C" := false ]} ∧
    (∀ fuel, 20 ≤ fuel → setChecked fuel "A" true s0 = Ok s1) ∧
    package_checkboxes s1 = {[ "A" := true; "B" := true; "C" := true ]} ∧
    (∀ fuel, 20 ≤ fuel → setChecked fuel "B" false s1 = Ok s2) ∧
    package_checkboxes s2 = {[ "A" := false; "B" := false; "C" := true ]}.
Proof.
  eexists scenario_gui, _, _. split_and!.
  - apply scenario_refresh.
  - reflexivity.
  - intros fuel Hfuel.
    eapply (proj1 (proj2 (proj2 (propagation_fuel_mono 20)))); [|done].
    vm_compute. reflexivity.
  - vm_compute. reflexivity.
  - intros fuel Hfuel.
    eapply (proj1 (proj2 (proj2 (propagation_fuel_mono 20)))); [|done].
    vm_compute. reflexivity.
  - vm_compute. reflexivity.
Qed.

(** ** Calls started by one toggle *)




(** ** The theorems at concrete inputs *)

Lemma select_reaches_all_dependencies_witness :
  gui_wf scenario_gui ∧ "A" ∈ dom (package_dependencies scenario_gui) ∧
  ∃ fuel visited s',
    (∀ fuel', fuel ≤ fuel' →
       select_dependencies fuel' "A" ∅ scenario_gui = Ok (visited, s')) ∧
    package_dependencies s' = package_dependencies scenario_gui ∧
    ∀ q, reachable (package_dependencies scenario_gui) "A" q → checked s' q.
Proof.
  split; [exact scenario_gui_wf|]. split; [vm_compute; reflexivity|].
  apply (select_reaches_all_dependencies scenario_gui "A").
  - exact scenario_gui_wf.
  - vm_compute. reflexivity.
Defined.

Lemma topologicalLayers_order_and_cycles_witness :
  induced chain_nodes chain_edges ∧
  ∃ levels, topologicalLayers chain_nodes chain_edges = Ok levels ∧
    (∀ n, n ∈ chain_nodes ↔ ∃ i, in_layer levels i n) ∧
    (∀ i j n, in_layer levels i n → in_layer levels j n → i = j) ∧
    (acyclic chain_edges →
       ∀ s d i j, (s, d) ∈ chain_edges →
                  in_layer levels i s → in_layer levels j d → i < j) ∧
    (∀ n, on_cycle chain_edges n → in_final_layer levels n).
Proof.
  assert (induced chain_nodes chain_edges) as Hind.
  { intros s d. unfold chain_edges, chain_nodes. set_solver. }
  split; [exact Hind|].
  exact (topologicalLayers_order_and_cycles chain_nodes chain_edges Hind).
Defined.


Lemma scenario_walk_readable : Forall readable scenario_walk.
Proof. repeat (constructor; [exact I|]). constructor. Qed.

Lemma refresh_reverse_is_transpose_witness :
  Forall readable scenario_walk ∧
  ∃ s, refresh_packages scenario_walk [] = Ok s ∧
       (∀ a b, a ∈ get_set (reverse_dependencies s) b ↔
               b ∈ get_set (package_dependencies s) a) ∧
       dom (reverse_dependencies s) = dom (package_dependencies s) ∧
       (∀ p, p ∈ dom (package_dependencies s) ↔
             ∃ f, f ∈ scenario_walk ∧ get_package_name_from_xml f = Ok (Some p) ∧
                  truthy (Some p) = true).
Proof.
  split; [exact scenario_walk_readable|].
  exact (refresh_reverse_is_transpose scenario_walk [] scenario_walk_readable).
Defined.

Lemma malformed_manifest_excluded_witness :
  malformed broken_manifest ∧ Forall readable (scenario_walk ++ []) ∧
  get_package_name_from_xml broken_manifest = Ok None ∧
  (∃ s, refresh_packages (scenario_walk ++ broken_manifest :: []) [] = Ok s) ∧
  refresh_packages (scenario_walk ++ broken_manifest :: []) []
  = refresh_packages (scenario_walk ++ []) [].
Proof.
  split; [left; reflexivity|]. split; [exact scenario_walk_readable|].
  apply (malformed_manifest_excluded scenario_walk [] broken_manifest []).
  - left. reflexivity.
  - exact scenario_walk_readable.
Defined.

Lemma focus_B_only_selected : only_selected focus_B_items "B".
Proof.
  split.
  - eexists. split; [vm_compute; reflexivity|reflexivity].
  - refine (proj1 (map_Forall_lookup
               (λ n (item : node_item), isSelected item = true → n = "B")
               focus_B_items) _).
    apply (bool_decide_unpack _). vm_compute. reflexivity.
Qed.

Lemma classify_focus_B_witness :
  only_selected focus_B_items "B" ∧
  let sc := update_node_highlights (Scene focus_B_items [("A", "B"); ("B", "C")]) in
  dom (node_items sc) = dom focus_B_items ∧
  ∀ n item', node_items sc !! n = Some item' →
    classify item' =
      if decide (n = "B") then focused
      else if decide (n = "A") then tag_incoming
      else if decide (n = "C") then tag_outgoing
      else tag_none.
Proof.
  split; [exact focus_B_only_selected|].
  exact (classify_focus_B focus_B_items focus_B_only_selected).
Defined.

(** ** What a propagation leaves alone *)

Lemma frame_refl Q s : frame Q s s.
Proof. split; [apply same_graph_refl|done]. Qed.

Lemma frame_trans Q s1 s2 s3 : frame Q s1 s2 → frame Q s2 s3 → frame Q s1 s3.
Proof.
  intros [Hg1 H1] [Hg2 H2]. split; [by eapply same_graph_trans|].
  intros q Hq.
  destruct (decide (package_checkboxes s2 !! q = package_checkboxes s1 !! q)) as [He|Hne].
  - apply H2. by rewrite He.
  - by apply H1.
Qed.

Lemma frame_weaken (Q Q' : string → Prop) s s' :
  (∀ q, Q q → Q' q) → frame Q s s' → frame Q' s s'.
Proof. intros HQ [Hg H]. split; [done|]. auto. Qed.

Lemma for_each_frame {A} (l : list A) (body : A → gset string * gui → result (gset string * gui))
    (Q : string → Prop) (vs r : gset string * gui) :
  (∀ x vs1 r1, x ∈ l → same_graph vs.2 vs1.2 → body x vs1 = Ok r1 → frame Q vs1.2 r1.2) →
  for_each l body vs = Ok r → frame Q vs.2 r.2.
Proof.
  revert vs. induction l as [|x l IH]; intros vs Hbody; simpl.
  - intros [= <-]. apply frame_refl.
  - intros (vs1 & Hx & Hl)%bind_Ok.
    assert (frame Q vs.2 vs1.2) as Hf1.
    { eapply Hbody; [left|apply same_graph_refl|done]. }
    eapply frame_trans; [done|]. apply IH; [|done].
    intros y vs2 r2 Hy Hsg Hr2. eapply Hbody; [by right| |done].
    eapply same_graph_trans; [apply Hf1|done].
Qed.

Lemma same_graph_reachable s s' p q :
  same_graph s s' →
  reachable (package_dependencies s') p q → reachable (package_dependencies s) p q.
Proof. intros [-> _ _]. done. Qed.

Lemma same_graph_dependents s s' p q :
  same_graph s s' → dependents_of s' p q → dependents_of s p q.
Proof. unfold dependents_of. intros [_ -> _]. done. Qed.

(** Whatever the fuel, a propagation that returns has changed no box
    outside the packages reachable from where it started: along forward
    edges when it selects, along reverse edges when it deselects. *)
Lemma propagation_frame (n : nat) :
  (∀ p v s r, select_dependencies n p v s = Ok r →
     frame (reachable (package_dependencies s) p) s r.2) ∧
  (∀ p v s r, deselect_dependent_packages n p v s = Ok r →
     frame (dependents_of s p) s r.2) ∧
  (∀ p b s r, p ∈ dom (package_checkboxes s) → setChecked n p b s = Ok r →
     frame (if b then reachable (package_dependencies s) p else dependents_of s p) s r) ∧
  (∀ p s r, on_package_checkbox_changed n p s = Ok r →
     frame (match package_checkboxes s !! p with
            | Some true => reachable (package_dependencies s) p
            | Some false => dependents_of s p
            | None => λ _, False
            end) s r).
Proof.
  induction n as [|n (IHsel & IHdes & IHset & IHon)]; [by split_and!|].
  split_and!.
  - intros p v s r Hr. simpl in Hr.
    destruct (decide (p ∈ v)); [injection Hr as <-; apply frame_refl|].
    apply bind_Ok in Hr as (s1 & Hs1 & Hr).
    assert (frame (reachable (package_dependencies s) p) s s1) as Hf1.
    { destruct (decide (p ∈ dom (package_checkboxes s))) as [Hp|Hp].
      - apply (IHset p true s s1 Hp Hs1).
      - injection Hs1 as <-. apply frame_refl. }
    eapply frame_trans; [done|].
    refine (for_each_frame _ _ (reachable (package_dependencies s) p)
              (v ∪ {[p]}, s1) r _ Hr).
    intros x vs1 r1 Hx%elem_of_elements Hsg Hr1. simpl in *.
    eapply frame_weaken; [|by apply IHsel in Hr1].
    intros q Hq. destruct Hf1 as [Hsg1 _].
    pose proof (same_graph_trans _ _ _ Hsg1 Hsg) as Hsg2.
    apply (same_graph_reachable _ _ _ _ Hsg2) in Hq.
    eapply rtc_l; [|done]. unfold depends_on.
    by rewrite -(same_forward _ _ Hsg1).
  - intros p v s r Hr. simpl in Hr.
    destruct (decide (p ∈ v)); [injection Hr as <-; apply frame_refl|].
    refine (for_each_frame _ _ (dependents_of s p) (v ∪ {[p]}, s) r _ Hr).
    intros x vs1 r1 Hx%elem_of_elements Hsg Hr1. simpl in *.
    destruct (decide (x ∈ dom (package_checkboxes vs1.2))) as [Hxd|Hxd];
      [|injection Hr1 as <-; apply frame_refl].
    apply bind_Ok in Hr1 as (s1 & Hs1 & Hr1).
    pose proof (IHset x false vs1.2 s1 Hxd Hs1) as Hf1. simpl in Hf1.
    pose proof (IHdes _ _ _ _ Hr1) as Hf2.
    assert (∀ s', same_graph s s' → ∀ q, dependents_of s' x q → dependents_of s p q) as Hw.
    { intros s' Hsg' q Hq%(same_graph_dependents _ _ _ _ Hsg').
      eapply rtc_l; [|done]. done. }
    eapply frame_trans.
    + eapply frame_weaken; [|done]. by apply Hw.
    + eapply frame_weaken; [|done]. apply Hw.
      eapply same_graph_trans; [done|apply Hf1].
  - intros p b s r Hp Hr. simpl in Hr.
    destruct (decide (package_checkboxes s !! p = Some b)); [injection Hr as <-; apply frame_refl|].
    apply IHon in Hr. simpl in Hr. rewrite lookup_insert_eq in Hr.
    destruct Hr as [[Hf Hrv Hd] Hch]. simpl in *. split.
    + split; [done..|]. rewrite Hd dom_insert_L. set_solver.
    + intros q Hq. destruct (decide (q = p)) as [->|Hne].
      * destruct b; apply rtc_refl.
      * destruct b; apply Hch; by rewrite lookup_insert_ne.
  - intros p s r Hr. simpl in Hr.
    destruct (package_checkboxes s !! p) as [[]|]; [| |done].
    + apply bind_Ok in Hr as (vs & Hvs & [= <-]). apply IHsel in Hvs.
      destruct Hvs as [[? ? ?] ?]. split; [split|]; done.
    + apply bind_Ok in Hr as (vs & Hvs & [= <-]). apply IHdes in Hvs.
      destruct Hvs as [[? ? ?] ?]. split; [split|]; done.
Qed.

(** ** What a propagation can raise *)

Lemma for_each_Err {A S} (l : list A) (body : A → S → result S) (s : S) (e : exn)
    (P : exn → Prop) :
  (∀ x s e, x ∈ l → body x s = Err e → P e) → for_each l body s = Err e → P e.
Proof.
  revert s. induction l as [|x l IH]; intros s Hbody; cbn [for_each]; [done|].
  destruct (body x s) as [s1|e1] eqn:Hx; simpl.
  - apply IH. intros y s' e' Hy. apply Hbody. by right.
  - intros [= <-]. eapply Hbody; [left|done].
Qed.

(** A propagation raises nothing but [RecursionError]: the handler finds
    the box of every package [setChecked] calls it for. *)
Lemma propagation_errors (n : nat) :
  (∀ p v s e, select_dependencies n p v s = Err e → e = OutOfFuel) ∧
  (∀ p v s e, deselect_dependent_packages n p v s = Err e → e = OutOfFuel) ∧
  (∀ p b s e, setChecked n p b s = Err e → e = OutOfFuel) ∧
  (∀ p s e, p ∈ dom (package_checkboxes s) →
     on_package_checkbox_changed n p s = Err e → e = OutOfFuel).
Proof.
  induction n as [|n (IHsel & IHdes & IHset & IHon)].
  { split_and!; intros; simpl in *; congruence. }
  split_and!.
  - intros p v s e Hr. simpl in Hr.
    destruct (decide (p ∈ v)); [done|].
    destruct (if decide (p ∈ dom (package_checkboxes s))
              then setChecked n p true s else Ok s) as [s1|e1] eqn:Hs1; simpl in Hr.
    + eapply (for_each_Err _ _ _ _ (λ e, e = OutOfFuel)); [|exact Hr].
      intros x vs e' _ Hx. simpl in Hx. simpl. by eapply IHsel.
    + injection Hr as <-.
      destruct (decide (p ∈ dom (package_checkboxes s))); [by eapply IHset|done].
  - intros p v s e Hr. simpl in Hr.
    destruct (decide (p ∈ v)); [done|].
    eapply (for_each_Err _ _ _ _ (λ e, e = OutOfFuel)); [|exact Hr].
    intros x vs e' _ Hx. simpl in Hx. simpl.
    destruct (decide (x ∈ dom (package_checkboxes vs.2))); [|done].
    destruct (setChecked n x false vs.2) as [s1|e1] eqn:Hs1; simpl in Hx.
    + by eapply IHdes.
    + injection Hx as <-. by eapply IHset.
  - intros p b s e Hr. simpl in Hr.
    destruct (decide (package_checkboxes s !! p = Some b)); [done|].
    eapply IHon; [|exact Hr]. simpl. rewrite dom_insert_L. set_solver.
  - intros p s e Hp Hr. simpl in Hr.
    apply elem_of_dom in Hp as [b Hb]. rewrite Hb in Hr. destruct b.
    + destruct (select_dependencies n p ∅ (log_call p true s)) as [vs|e1] eqn:Hvs;
        simpl in Hr; [done|]. injection Hr as <-. by eapply IHsel.
    + destruct (deselect_dependent_packages n p ∅ (log_call p false s)) as [vs|e1] eqn:Hvs;
        simpl in Hr; [done|]. injection Hr as <-. by eapply IHdes.
Qed.

(** A run whose result does not change with more fuel and that raises
    nothing but [OutOfFuel]: under every bound it is out of fuel or returns
    the one result. *)
Lemma fuel_dichotomy {A} (run : nat → result A) (P : A → Prop) :
  (∀ n r, run n = Ok r → ∀ m, n ≤ m → run m = Ok r) →
  (∀ n e, run n = Err e → e = OutOfFuel) →
  (∃ n r, (∀ m, n ≤ m → run m = Ok r) ∧ P r) →
  ∀ n, run n = Err OutOfFuel ∨ ∃ r, run n = Ok r ∧ P r.
Proof.
  intros Hmono Herr (n0 & r0 & Hrun & HP) n.
  destruct (run n) as [r|e] eqn:Hn.
  - right. exists r. split; [done|].
    assert (run (n `max` n0) = Ok r) as H1 by (eapply Hmono; [done|lia]).
    assert (run (n `max` n0) = Ok r0) as H2 by (apply Hrun; lia).
    rewrite H1 in H2. by injection H2 as ->.
  - left. f_equal. by eapply Herr.
Qed.

(** ** One toggle, from the user's side *)

Lemma closed_reachable (deps : gmap string (gset string)) (v : gset string) p q :
  (∀ a d, a ∈ v → d ∈ get_set deps a → d ∈ v) →
  p ∈ v → rtc (depends_on deps) p q → q ∈ v.
Proof.
  intros Hcl Hp Hq. induction Hq as [|a b c Hab _ IH]; [done|].
  apply IH. by eapply Hcl.
Qed.

Lemma setChecked_tick_spec (s : gui) (p : string) :
  gui_wf s → package_checkboxes s !! p = Some false →
  ∃ fuel s',
    (∀ fuel', fuel ≤ fuel' → setChecked fuel' p true s = Ok s') ∧
    same_graph s s' ∧
    (∀ q, reachable (package_dependencies s) p q → checked s' q) ∧
    (∀ q, package_checkboxes s' !! q ≠ package_checkboxes s !! q →
          reachable (package_dependencies s) p q).
Proof.
  intros Hwf Hp.
  set (s0 := log_call p true (set_checkbox p true s)).
  assert (p ∈ dom (package_checkboxes s)) as Hpd by by apply elem_of_dom_2 in Hp.
  assert (same_graph s s0) as Hsg.
  { split; [done..|]. simpl. rewrite dom_insert_L. set_solver. }
  destruct (select_runs (size (boxes_in false s0))
              (size (dom (package_checkboxes s0) ∖ ∅)) s0 p ∅)
    as (fuel & [v s'] & Hrun & [Hprop Hv Hc Hcl Hb] & Hpv); [|by rewrite (same_boxes _ _ Hsg)|done..|].
  { by eapply same_graph_wf. }
  simpl in *.
  assert (setChecked (S (S fuel)) p true s = Ok s') as Hset.
  { simpl. rewrite decide_False; [|by rewrite Hp]. simpl. rewrite lookup_insert_eq.
    fold s0. by rewrite Hrun. }
  exists (S (S fuel)), s'. split_and!.
  - intros fuel' Hle.
    by eapply (proj1 (proj2 (proj2 (propagation_fuel_mono (S (S fuel)))))).
  - eapply same_graph_trans; [done|apply Hprop].
  - intros q Hq. apply Hc; [|set_solver].
    eapply closed_reachable; [|done..]. intros a d Ha Hd. eapply Hcl; [done|set_solver|done].
  - apply (proj1 (proj2 (proj2 (propagation_frame (S (S fuel))))) p true s s' Hpd Hset).
Qed.

(** Ticking a box that is not ticked, under any bound [fuel] on the depth
    of nested calls: either the bound is exceeded (the source's
    [RecursionError], as on a long chain of dependencies) or the call
    returns, having ticked every package reachable along forward edges and
    changed no other box; nothing else is raised, and some bound is enough. *)
Theorem tick_selects_exactly_the_dependencies (s : gui) (p : string) :
  gui_wf s → package_checkboxes s !! p = Some false →
  (∃ fuel s', ∀ fuel', fuel ≤ fuel' → setChecked fuel' p true s = Ok s') ∧
  ∀ fuel,
    setChecked fuel p true s = Err OutOfFuel ∨
    ∃ s', setChecked fuel p true s = Ok s' ∧
          same_graph s s' ∧
          (∀ q, reachable (package_dependencies s) p q → checked s' q) ∧
          (∀ q, package_checkboxes s' !! q ≠ package_checkboxes s !! q →
                reachable (package_dependencies s) p q).
Proof.
  intros Hwf Hp.
  destruct (setChecked_tick_spec s p Hwf Hp) as (fuel0 & s0 & Hrun & Hprops).
  split; [eauto|].
  apply (fuel_dichotomy (λ fuel, setChecked fuel p true s)).
  - intros n r Hr m Hm. by eapply (proj1 (proj2 (proj2 (propagation_fuel_mono n)))).
  - intros n e. apply (proj1 (proj2 (proj2 (propagation_errors n)))).
  - eauto.
Qed.

Lemma setChecked_untick_spec (s : gui) (p : string) :
  gui_wf s → package_checkboxes s !! p = Some true →
  ∃ fuel s',
    (∀ fuel', fuel ≤ fuel' → setChecked fuel' p false s = Ok s') ∧
    same_graph s s' ∧
    (∀ q, dependents_of s p q → package_checkboxes s' !! q = Some false) ∧
    (∀ q, package_checkboxes s' !! q ≠ package_checkboxes s !! q → dependents_of s p q).
Proof.
  intros Hwf Hp.
  set (s0 := log_call p false (set_checkbox p false s)).
  assert (p ∈ dom (package_checkboxes s)) as Hpd by by apply elem_of_dom_2 in Hp.
  assert (same_graph s s0) as Hsg.
  { split; [done..|]. simpl. rewrite dom_insert_L. set_solver. }
  destruct (deselect_runs (size (boxes_in true s0))
              (size (dom (package_checkboxes s0) ∖ ∅)) s0 p ∅)
    as (fuel & [v s'] & Hrun & [Hprop Hv Hc Hcl] & Hpv); [|by rewrite (same_boxes _ _ Hsg)|done..|].
  { by eapply same_graph_wf. }
  simpl in *.
  assert (setChecked (S (S fuel)) p false s = Ok s') as Hset.
  { simpl. rewrite decide_False; [|by rewrite Hp]. simpl. rewrite lookup_insert_eq.
    fold s0. by rewrite Hrun. }
  exists (S (S fuel)), s'. split_and!.
  - intros fuel' Hle.
    by eapply (proj1 (proj2 (proj2 (propagation_fuel_mono (S (S fuel)))))).
  - eapply same_graph_trans; [done|apply Hprop].
  - intros q Hq. destruct (decide (q = p)) as [->|Hne].
    + apply (prop_keeps _ _ _ Hprop). simpl. by rewrite lookup_insert_eq.
    + apply Hc; [|set_solver|set_solver].
      eapply closed_reachable; [|done..]. intros a d Ha Hd.
      eapply Hcl; [done|set_solver|done].
  - apply (proj1 (proj2 (proj2 (propagation_frame (S (S fuel))))) p false s s' Hpd Hset).
Qed.

(** Unticking a ticked box, under any bound [fuel] on the depth of nested
    calls: either the bound is exceeded (the source's [RecursionError]) or
    the call returns, having left that box and the box of every package that
    depends on it, directly or not, unticked, and changed no other box;
    nothing else is raised, and some bound is enough. *)
Theorem untick_deselects_exactly_the_dependents (s : gui) (p : string) :
  gui_wf s → package_checkboxes s !! p = Some true →
  (∃ fuel s', ∀ fuel', fuel ≤ fuel' → setChecked fuel' p false s = Ok s') ∧
  ∀ fuel,
    setChecked fuel p false s = Err OutOfFuel ∨
    ∃ s', setChecked fuel p false s = Ok s' ∧
          same_graph s s' ∧
          (∀ q, dependents_of s p q → package_checkboxes s' !! q = Some false) ∧
          (∀ q, package_checkboxes s' !! q ≠ package_checkboxes s !! q →
                dependents_of s p q).
Proof.
  intros Hwf Hp.
  destruct (setChecked_untick_spec s p Hwf Hp) as (fuel0 & s0 & Hrun & Hprops).
  split; [eauto|].
  apply (fuel_dichotomy (λ fuel, setChecked fuel p false s)).
  - intros n r Hr m Hm. by eapply (proj1 (proj2 (proj2 (propagation_fuel_mono n)))).
  - intros n e. apply (proj1 (proj2 (proj2 (propagation_errors n)))).
  - eauto.
Qed.

(** A toggle keeps the selection closed under dependencies: if every ticked
    package had its dependencies ticked before the user ticks or unticks one
    box, the same holds when the propagation has ended. *)
Theorem toggle_keeps_selection_closed (s : gui) (p : string) (b : bool) :
  gui_wf s → transposed s → dependency_closed s →
  package_checkboxes s !! p = Some (negb b) →
  ∃ fuel s',
    (∀ fuel', fuel ≤ fuel' → setChecked fuel' p b s = Ok s') ∧
    same_graph s s' ∧ dependency_closed s'.
Proof.
  intros Hwf Htr Hcl Hp. destruct b; simpl in Hp.
  - destruct (setChecked_tick_spec s p Hwf Hp)
      as (fuel & s' & Hrun & Hsg & Hreach & Hframe).
    exists fuel, s'. split_and!; [done..|].
    intros a d Ha Hd. rewrite (same_forward _ _ Hsg) in Hd.
    destruct (decide (package_checkboxes s' !! a = package_checkboxes s !! a)) as [Heq|Hne].
    + assert (checked s d) as Hds.
      { eapply Hcl; [|done]. unfold checked. by rewrite -Heq. }
      destruct (decide (package_checkboxes s' !! d = package_checkboxes s !! d)) as [Heqd|Hned].
      * unfold checked. by rewrite Heqd.
      * by apply Hreach, Hframe.
    + apply Hreach. eapply rtc_r; [by apply Hframe|done].
  - destruct (setChecked_untick_spec s p Hwf Hp)
      as (fuel & s' & Hrun & Hsg & Hreach & Hframe).
    exists fuel, s'. split_and!; [done..|].
    intros a d Ha Hd. rewrite (same_forward _ _ Hsg) in Hd.
    destruct (decide (package_checkboxes s' !! a = package_checkboxes s !! a)) as [Heq|Hne].
    + assert (checked s d) as Hds.
      { eapply Hcl; [|done]. unfold checked. by rewrite -Heq. }
      destruct (decide (package_checkboxes s' !! d = package_checkboxes s !! d)) as [Heqd|Hned].
      * unfold checked. by rewrite Heqd.
      * assert (dependents_of s p a) as Hpa.
        { eapply rtc_r; [by apply Hframe|]. by apply Htr. }
        apply Hreach in Hpa. unfold checked in Ha. congruence.
    + apply Hframe, Hreach in Hne. unfold checked in Ha. congruence.
Qed.

(** ** select_all_packages, deselect_all_packages *)

Lemma checkbox_order_elem s x : x ∈ checkbox_order s ↔ x ∈ dom (package_checkboxes s).
Proof.
  unfold checkbox_order, sorted. by rewrite merge_sort_Permutation elem_of_elements.
Qed.

Lemma setChecked_true_total s p :
  gui_wf s → p ∈ dom (package_checkboxes s) →
  ∃ fuel s', setChecked fuel p true s = Ok s' ∧ propagated true s s' ∧ checked s' p.
Proof.
  intros Hwf Hp. eapply (setChecked_true_runs (size (boxes_in false s))); [|done..].
  intros s1 p1 Hwf1 Hp1 _.
  destruct (select_runs (size (boxes_in false s1))
              (size (dom (package_checkboxes s1) ∖ ∅)) s1 p1 ∅)
    as (fuel & r & ? & ? & _); eauto.
Qed.

Lemma setChecked_false_total s p :
  gui_wf s → p ∈ dom (package_checkboxes s) →
  ∃ fuel s', setChecked fuel p false s = Ok s' ∧ propagated false s s' ∧
             package_checkboxes s' !! p = Some false.
Proof.
  intros Hwf Hp. eapply (setChecked_false_runs (size (boxes_in true s))); [|done..].
  intros s1 p1 Hwf1 Hp1 _.
  destruct (deselect_runs (size (boxes_in true s1))
              (size (dom (package_checkboxes s1) ∖ ∅)) s1 p1 ∅)
    as (fuel & r & ? & ? & _); eauto.
Qed.

Lemma set_all_loop (b : bool) (l : list string) :
  ∀ s, gui_wf s → (∀ x, x ∈ l → x ∈ dom (package_checkboxes s)) →
    ∃ fuel s', for_each l (λ package_name s, setChecked fuel package_name b s) s = Ok s' ∧
               propagated b s s' ∧
               ∀ x, x ∈ l → package_checkboxes s' !! x = Some b.
Proof.
  induction l as [|x l IH]; intros s Hwf Hl.
  - exists 0, s. split_and!; [done|apply propagated_refl|]. by intros x ?%elem_of_nil.
  - assert (∃ fuel s1, setChecked fuel x b s = Ok s1 ∧ propagated b s s1 ∧
                       package_checkboxes s1 !! x = Some b)
      as (fuel0 & s1 & Hrun0 & Hprop0 & Hx).
    { destruct b; [apply setChecked_true_total|apply setChecked_false_total];
        (done || apply Hl; left). }
    pose proof (prop_graph _ _ _ Hprop0) as Hsg.
    destruct (IH s1) as (fuel1 & s' & Hrun1 & Hprop1 & Hl1).
    + by eapply same_graph_wf.
    + intros y Hy. rewrite (same_boxes _ _ Hsg). apply Hl. by right.
    + exists (fuel0 `max` fuel1), s'. split_and!.
      * simpl.
        assert (setChecked (fuel0 `max` fuel1) x b s = Ok s1) as ->.
        { eapply (proj1 (proj2 (proj2 (propagation_fuel_mono fuel0)))); [done|lia]. }
        simpl. eapply for_each_ext_Ok; [|done]. intros y s2 r _ Hy.
        eapply (proj1 (proj2 (proj2 (propagation_fuel_mono fuel1)))); [done|lia].
      * by eapply propagated_trans.
      * intros y [->|Hy]%elem_of_cons; [|by apply Hl1].
        by apply (prop_keeps _ _ _ Hprop1).
Qed.

Lemma set_all_packages_spec (b : bool) (s : gui) :
  gui_wf s →
  ∃ fuel s',
    (∀ fuel', fuel ≤ fuel' → set_all_packages fuel' b s = Ok s') ∧
    same_graph s s' ∧
    (∀ p, p ∈ dom (package_checkboxes s) → package_checkboxes s' !! p = Some b) ∧
    length (top_level_calls s') = length (top_level_calls s) + size (boxes_in (negb b) s).
Proof.
  intros Hwf.
  destruct (set_all_loop b (checkbox_order s) s Hwf) as (fuel & s' & Hrun & Hprop & Hall).
  { intros x. by rewrite checkbox_order_elem. }
  assert (∀ p, p ∈ dom (package_checkboxes s) → package_checkboxes s' !! p = Some b) as Hall'.
  { intros q Hq. by apply Hall, checkbox_order_elem. }
  exists fuel, s'. split_and!.
  - intros fuel' Hle. unfold set_all_packages.
    eapply for_each_ext_Ok; [|done]. intros y s2 r _ Hy.
    eapply (proj1 (proj2 (proj2 (propagation_fuel_mono fuel)))); [done|lia].
  - apply Hprop.
  - done.
  - destruct Hprop as [[_ _ Hd] _ (new & -> & _ & Hsz)].
    assert (boxes_in (negb b) s' = ∅) as Hempty.
    { apply set_eq. intros q. rewrite boxes_in_elem. split; [|set_solver].
      intros Hq. assert (q ∈ dom (package_checkboxes s)) as Hqd.
      { rewrite -Hd. by apply elem_of_dom_2 in Hq. }
      rewrite (Hall' q Hqd) in Hq. by destruct b. }
    rewrite Hempty size_empty in Hsz. rewrite length_app. lia.
Qed.

(** The two buttons, on a state that [refresh_packages] can leave and under
    any bound [fuel] on the depth of nested calls: either the bound is
    exceeded (the source's [RecursionError]) or the loop over the boxes
    returns, having left the graph alone and every box in the state asked
    for, and started one top-level propagation for each box that was in the
    other state, none more; nothing else is raised, and some bound is
    enough. *)
Theorem set_all_packages_sets_every_box (b : bool) (s : gui) :
  gui_wf s →
  (∃ fuel s', ∀ fuel', fuel ≤ fuel' → set_all_packages fuel' b s = Ok s') ∧
  ∀ fuel,
    set_all_packages fuel b s = Err OutOfFuel ∨
    ∃ s', set_all_packages fuel b s = Ok s' ∧
          same_graph s s' ∧
          (∀ p, p ∈ dom (package_checkboxes s) → package_checkboxes s' !! p = Some b) ∧
          length (top_level_calls s') =
            length (top_level_calls s) + size (boxes_in (negb b) s).
Proof.
  intros Hwf. destruct (set_all_packages_spec b s Hwf) as (fuel0 & s0 & Hrun & Hprops).
  split; [eauto|].
  apply (fuel_dichotomy (λ fuel, set_all_packages fuel b s)).
  - intros n r Hr m Hm. unfold set_all_packages in *.
    eapply for_each_ext_Ok; [|done]. intros y s2 r' _ Hy.
    by eapply (proj1 (proj2 (proj2 (propagation_fuel_mono n)))).
  - intros n e He. unfold set_all_packages in He.
    eapply (for_each_Err _ _ _ _ (λ e, e = OutOfFuel)); [|exact He].
    intros x s1 e' _ Hx. simpl in Hx. simpl.
    by eapply (proj1 (proj2 (proj2 (propagation_errors n)))).
  - eauto.
Qed.

(** ** The manifest parser *)

Lemma truthy_Some t : truthy (Some t) = true ↔ t ≠ "".
Proof.
  simpl. rewrite negb_true_iff. split.
  - intros H ->. by rewrite String.eqb_refl in H.
  - intros H. by apply String.eqb_neq.
Qed.

Lemma collect_texts_elem (es : list element) (acc : gset string) t :
  t ∈ foldl (λ deps dep,
               match text dep with
               | Some t => if truthy (Some t) then deps ∪ {[t]} else deps
               | None => deps
               end) acc es ↔
  t ∈ acc ∨ ∃ e, e ∈ es ∧ text e = Some t ∧ t ≠ "".
Proof.
  revert acc. induction es as [|e es IH]; intros acc; cbn [foldl].
  - split; [auto|]. intros [?|(e & ?%elem_of_nil & _)]; done.
  - rewrite IH. destruct (text e) as [t'|] eqn:He.
    + destruct (truthy (Some t')) eqn:Ht.
      * apply truthy_Some in Ht.
        assert (t ∈ acc ∪ {[t']} ↔ t ∈ acc ∨ t = t') as -> by set_solver. split.
        -- intros [[?| ->]|(e' & ? & ?)]; [by left| |].
           ++ right. exists e. split; [left|done].
           ++ right. exists e'. split; [by right|done].
        -- intros [?|(e' & [->|?]%elem_of_cons & He' & ?)]; [by left; left| |].
           ++ left. right. congruence.
           ++ right. eauto.
      * assert (¬ t' ≠ "") as Hn by (rewrite -truthy_Some Ht; done). split.
        -- intros [?|(e' & ? & ?)]; [by left|]. right. exists e'. split; [by right|done].
        -- intros [?|(e' & [->|?]%elem_of_cons & He' & ?)]; [by left| |right; eauto].
           exfalso. apply Hn. congruence.
    + split.
      * intros [?|(e' & ? & ?)]; [by left|]. right. exists e'. split; [by right|done].
      * intros [?|(e' & [->|?]%elem_of_cons & He' & ?)]; [by left| |right; eauto].
        congruence.
Qed.

(** [get_package_dependencies] on a manifest [ET.parse] reads returns the
    set of the non-empty texts of the elements of the five dependency kinds:
    a name declared under several kinds, or several times, is in the set
    once, and an element without text adds nothing.  A manifest rejected
    with [ParseError] has no dependency; any other exception of [ET.parse]
    is not caught and leaves the function. *)
Theorem get_package_dependencies_elem (f : manifest_file) :
  match content f with
  | ParseError => get_package_dependencies f = Ok ∅
  | Tree children =>
      ∃ deps, get_package_dependencies f = Ok deps ∧
              ∀ t, t ∈ deps ↔
                   ∃ e, e ∈ children ∧ tag e ∈ dep_types ∧ text e = Some t ∧ t ≠ ""
  | Raises e => get_package_dependencies f = Err e
  end.
Proof.
  unfold get_package_dependencies. destruct (content f) as [|children|e]; [done| |done].
  eexists. split; [done|]. intros t.
  unfold dep_types. simpl. rewrite !collect_texts_elem. unfold findall.
  setoid_rewrite list_elem_of_filter. split.
  - intros [[[[[?%not_elem_of_empty|H]|H]|H]|H]|H]; [done|..];
      destruct H as (e & [Htag He] & Ht & Hne);
      exists e; rewrite Htag; set_solver.
  - intros (e & He & Htag & Ht & Hne).
    repeat (apply elem_of_cons in Htag as [Htag|Htag]);
      [..|by apply elem_of_nil in Htag].
    + do 4 left. right. eauto.
    + do 3 left. right. eauto.
    + do 2 left. right. eauto.
    + left. right. eauto.
    + right. eauto.
Qed.

(** ** What the scan leaves in the window *)

Lemma first_pass_snoc walk f :
  first_pass (walk ++ [f]) = first_pass walk ≫= λ sc, first_pass_step sc f.
Proof.
  unfold first_pass. rewrite for_each_app.
  destruct (for_each walk _ scan_empty) as [sc|e]; [|done].
  rewrite !bind_Ok_l. cbn [for_each]. by destruct (first_pass_step sc f).
Qed.

Lemma manifest_of_snoc walk f n :
  manifest_of (walk ++ [f]) n =
  if decide (get_package_name_from_xml f = Ok (Some n)) then Some f else manifest_of walk n.
Proof.
  unfold manifest_of. rewrite filter_app.
  destruct (decide (get_package_name_from_xml f = Ok (Some n))) as [Hn|Hn].
  - rewrite filter_cons_True // filter_nil. apply last_snoc.
  - rewrite filter_cons_False // filter_nil. by rewrite app_nil_r.
Qed.

Lemma first_pass_lookup walk sc n :
  first_pass walk = Ok sc →
  available_packages sc !! n = if truthy (Some n) then manifest_of walk n else None.
Proof.
  revert sc. induction walk as [|f walk IH] using rev_ind; intros sc.
  - intros [= <-]. unfold manifest_of. simpl. rewrite lookup_empty. by destruct (negb _).
  - rewrite first_pass_snoc manifest_of_snoc.
    intros (sc0 & Hsc0 & (o & Ho & ->)%first_pass_step_Ok)%bind_Ok.
    specialize (IH sc0 Hsc0). rewrite Ho.
    destruct o as [m|].
    + destruct (truthy (Some m)) eqn:Ht; cbn [available_packages].
      * destruct (decide (Ok (Some m) = Ok (Some n))) as [[= ->]|Hne].
        -- by rewrite lookup_insert_eq Ht.
        -- rewrite lookup_insert_ne; [done|congruence].
      * destruct (decide (Ok (Some m) = Ok (Some n))) as [[= ->]|Hne]; [|done].
        rewrite IH. by rewrite Ht.
    + destruct (decide (Ok None = Ok (Some n))); done.
Qed.

(** The forward edges after a scan of parsed manifests: [p] depends on [d]
    in the window exactly when both are packages of the workspace and the
    last manifest that declares [p] lists [d]; a dependency on anything
    outside the workspace gives no edge. *)
Theorem refresh_forward_edges (walk : list manifest_file) (last : list string) :
  Forall readable walk →
  ∃ s, refresh_packages walk last = Ok s ∧
       ∀ p d, d ∈ get_set (package_dependencies s) p ↔
              p ∈ dom (package_dependencies s) ∧ d ∈ dom (package_dependencies s) ∧
              ∃ f deps, manifest_of walk p = Some f ∧
                        get_package_dependencies f = Ok deps ∧ d ∈ deps.
Proof.
  intros Hw. destruct (for_each_first_pass_total walk scan_empty Hw) as (sc & Hsc).
  destruct (refresh_packages_spec walk last sc Hsc) as (s & Hs & H). simpl in H.
  destruct H as (_ & Hf & _ & Hdeps & _ & _).
  exists s. split; [done|]. intros p d. rewrite Hf. split.
  - intros Hd. assert (p ∈ dom (package_dependencies s)) as Hp.
    { apply get_set_elem in Hd as (? & ?%elem_of_dom_2 & _). done. }
    rewrite Hf in Hp. pose proof Hp as [f Hpf]%elem_of_dom.
    destruct (Hdeps p f Hpf) as (deps & Hdf & Heq).
    rewrite Heq in Hd. apply elem_of_intersection in Hd as [Hd1 Hd2].
    split_and!; [done..|]. exists f, deps. split_and!; [|done..].
    rewrite (first_pass_lookup walk sc p Hsc) in Hpf. by destruct (truthy (Some p)).
  - intros (Hp & Hd & f & deps & Hpf & Hdf & Hdd).
    pose proof Hp as [f' Hpf']%elem_of_dom.
    destruct (Hdeps p f' Hpf') as (deps' & Hdf' & ->).
    rewrite (first_pass_lookup walk sc p Hsc) in Hpf'.
    destruct (truthy (Some p)); [|done].
    rewrite Hpf in Hpf'. injection Hpf' as <-.
    rewrite Hdf in Hdf'. injection Hdf' as <-. set_solver.
Qed.

Lemma make_checkboxes_lookup names last p :
  make_checkboxes names last !! p =
  if decide (p ∈ names) then Some (bool_decide (p ∈ last)) else None.
Proof.
  unfold make_checkboxes.
  enough (∀ m : gmap string bool,
    foldl (λ cbs n, <[n := bool_decide (n ∈ last)]> cbs) m names !! p
    = if decide (p ∈ names) then Some (bool_decide (p ∈ last)) else m !! p) as ->.
  { by rewrite lookup_empty. }
  induction names as [|n names IH]; intros m; cbn [foldl].
  - destruct (decide (p ∈ [])) as [?%elem_of_nil|]; done.
  - rewrite IH. destruct (decide (p ∈ names)) as [Hp|Hp].
    + rewrite decide_True //. by right.
    + destruct (decide (n = p)) as [->|Hne].
      * rewrite lookup_insert_eq decide_True //. left.
      * rewrite lookup_insert_ne // decide_False //.
        by intros [->|?]%elem_of_cons.
Qed.

Lemma refresh_packages_graph walk last1 last2 s1 s2 :
  refresh_packages walk last1 = Ok s1 → refresh_packages walk last2 = Ok s2 →
  package_dependencies s2 = package_dependencies s1 ∧
  reverse_dependencies s2 = reverse_dependencies s1.
Proof.
  unfold refresh_packages.
  intros (sc & Hsc & ([fwd rev] & H1 & [= <-])%bind_Ok)%bind_Ok
         (sc' & Hsc' & ([fwd' rev'] & H2 & [= <-])%bind_Ok)%bind_Ok.
  rewrite Hsc in Hsc'. injection Hsc' as <-.
  rewrite H1 in H2. by injection H2 as <- <-.
Qed.

(** The boxes a scan that returned leaves. *)
Lemma refresh_packages_selection (walk : list manifest_file)
    (last : list string) (s : gui) :
  refresh_packages walk last = Ok s →
  ∀ p, package_checkboxes s !! p =
       if decide (p ∈ dom (package_dependencies s))
       then Some (bool_decide (p ∈ last)) else None.
Proof.
  intros Hs. destruct (refresh_packages_Ok walk last s Hs) as (sc & Hsc).
  destruct (refresh_packages_spec walk last sc Hsc) as (s' & Hs' & H). simpl in H.
  rewrite Hs in Hs'. injection Hs' as <-.
  destruct H as (Hc & Hf & _ & _ & _ & _ & Hcb).
  intros p. rewrite Hcb make_checkboxes_lookup.
  assert (p ∈ available_order sc ↔ p ∈ dom (package_dependencies s)) as Hiff.
  { rewrite Hf (scan_keys _ (first_pass_inv walk sc Hsc)). set_solver. }
  destruct (decide (p ∈ available_order sc)) as [Hp|Hp].
  - rewrite decide_True //. by apply Hiff.
  - rewrite decide_False //. by rewrite -Hiff.
Qed.

(** The scan of parsed manifests returns and restores the saved selection
    as it is: a package of the workspace has a box, ticked exactly when its
    name is in [last_selected_packages], and nothing else has a box.  The
    boxes are set before the handler is connected: a dependency of a saved
    package that is not saved itself stays unticked. *)
Theorem refresh_restores_saved_selection (walk : list manifest_file)
    (last : list string) :
  Forall readable walk →
  ∃ s, refresh_packages walk last = Ok s ∧
       (∀ p, package_checkboxes s !! p =
             if decide (p ∈ dom (package_dependencies s))
             then Some (bool_decide (p ∈ last)) else None) ∧
       (∀ p, checked s p ↔ p ∈ dom (package_dependencies s) ∧ p ∈ last).
Proof.
  intros Hw. destruct (refresh_packages_total walk last Hw) as (s & Hs).
  pose proof (refresh_packages_selection walk last s Hs) as Hcb.
  exists s. split_and!; [done..|].
  intros p. unfold checked. rewrite Hcb.
  destruct (decide (p ∈ dom (package_dependencies s))) as [Hp|Hp].
  - split.
    + intros [= Hb]. split; [done|]. by apply bool_decide_eq_true in Hb.
    + intros [_ Hl]. f_equal. by apply bool_decide_eq_true.
  - split; [done|]. by intros [? _].
Qed.

Lemma selected_packages_elem s p :
  p ∈ selected_packages s ↔ package_checkboxes s !! p = Some true.
Proof.
  unfold selected_packages. rewrite list_elem_of_filter checkbox_order_elem.
  split; [by intros [? _]|]. intros Hp. split; [done|]. by apply elem_of_dom_2 in Hp.
Qed.

(** Saving and scanning again: when the selection of a window is stored as
    [save_config] stores it and the same workspace is scanned with it, every
    box is restored and the graph is the same. *)
Theorem save_then_refresh_restores_boxes (walk : list manifest_file)
    (last : list string) (s s1 : gui) :
  refresh_packages walk last = Ok s → same_graph s s1 →
  ∃ s2, refresh_packages walk (selected_packages s1) = Ok s2 ∧
        package_checkboxes s2 = package_checkboxes s1 ∧
        package_dependencies s2 = package_dependencies s ∧
        reverse_dependencies s2 = reverse_dependencies s.
Proof.
  intros Hs [_ _ Hd].
  destruct (refresh_packages_Ok walk last s Hs) as (sc & Hsc).
  destruct (refresh_packages_spec walk (selected_packages s1) sc Hsc) as (s2 & Hs2 & _).
  pose proof (refresh_packages_selection walk (selected_packages s1) s2 Hs2) as Hcb.
  destruct (refresh_packages_graph walk last (selected_packages s1) s s2 Hs Hs2) as [Hf Hr].
  exists s2. split_and!; [done| |done..].
  apply map_eq. intros p. rewrite Hcb Hf.
  pose proof (refresh_packages_wf _ _ _ Hs) as Hwf.
  rewrite (wf_forward_dom _ Hwf) -Hd.
  destruct (decide (p ∈ dom (package_checkboxes s1))) as [Hp|Hp].
  - apply elem_of_dom in Hp as [b Hb]. rewrite Hb. f_equal.
    destruct b.
    + apply bool_decide_eq_true. by apply selected_packages_elem.
    + apply bool_decide_eq_false. rewrite selected_packages_elem. congruence.
  - by apply not_elem_of_dom in Hp.
Qed.

(** ** The dependency graph dialog *)

(** The closure loop computes the packages reachable from the seeds along
    forward edges, no more and no less, on every dependency map. *)
Theorem closure_is_the_reachable_set (deps : gmap string (gset string))
    (seeds : list string) :
  ∃ nodes, closure deps seeds = Ok nodes ∧
           ∀ x, x ∈ nodes ↔ ∃ s, s ∈ seeds ∧ reachable deps s x.
Proof. apply closure_spec. Qed.

(** The closure of two seed lists together is the union of their closures:
    the order of the seeds does not matter and the closure of each seed is
    inside. *)
Theorem closure_app (deps : gmap string (gset string)) (l1 l2 : list string) :
  ∃ n1 n2, closure deps l1 = Ok n1 ∧ closure deps l2 = Ok n2 ∧
           closure deps (l1 ++ l2) = Ok (n1 ∪ n2).
Proof.
  destruct (closure_spec deps l1) as (n1 & H1 & Hn1).
  destruct (closure_spec deps l2) as (n2 & H2 & Hn2).
  destruct (closure_spec deps (l1 ++ l2)) as (n & H & Hn).
  exists n1, n2. split_and!; [done..|]. rewrite H. f_equal.
  apply set_eq. intros x. rewrite elem_of_union Hn Hn1 Hn2. unfold reachable_from.
  setoid_rewrite elem_of_app. naive_solver.
Qed.

Lemma induced_edges_elem deps nodes a b :
  (a, b) ∈ induced_edges deps nodes ↔ a ∈ nodes ∧ b ∈ get_set deps a ∧ b ∈ nodes.
Proof.
  unfold induced_edges. rewrite list_elem_of_bind. split.
  - intros (src & (dep & Hin & Hdep%elem_of_elements)%list_elem_of_bind & Hsrc%elem_of_elements).
    destruct (decide (dep ∈ nodes)); [|by apply elem_of_nil in Hin].
    apply list_elem_of_singleton in Hin as [= -> ->]. done.
  - intros (Ha & Hb & Hbn). exists a. split; [|by apply elem_of_elements].
    apply list_elem_of_bind. exists b. split; [|by apply elem_of_elements].
    rewrite decide_True //. left.
Qed.

Lemma induced_edges_induced deps nodes : induced nodes (induced_edges deps nodes).
Proof. intros a b (? & _ & ?)%induced_edges_elem. done. Qed.

Lemma graph_nodes_spec s :
  gui_wf s →
  ∃ nodes, graph_nodes s = Ok nodes ∧
           (∀ p, checked s p → p ∈ nodes) ∧
           nodes ⊆ dom (package_checkboxes s) ∧
           (∀ a b, a ∈ nodes → b ∈ get_set (package_dependencies s) a → b ∈ nodes) ∧
           (∀ x, x ∈ nodes →
              (∀ p, ¬ checked s p) ∨ ∃ p, checked s p ∧ reachable (package_dependencies s) p x).
Proof.
  intros Hwf. unfold graph_nodes.
  destruct (selected_packages s) as [|p0 sel] eqn:Hsel.
  - assert (∀ p, ¬ checked s p) as Hnone.
    { intros p Hp%selected_packages_elem. rewrite Hsel in Hp. by apply elem_of_nil in Hp. }
    eexists. split_and!; [done| |done| |by left].
    + intros p Hp. by apply Hnone in Hp.
    + intros a b _ Hb. by eapply wf_forward_closed.
  - rewrite -Hsel.
    destruct (closure_spec (package_dependencies s) (selected_packages s))
      as (nodes & -> & Hn).
    exists nodes. split_and!; [done|..].
    + intros p Hp. apply Hn. exists p. split; [by apply selected_packages_elem|apply rtc_refl].
    + intros x (p & Hp%selected_packages_elem & Hpx)%Hn.
      apply elem_of_dom_2 in Hp. clear Hn Hsel.
      induction Hpx as [|a b c Hab _ IH]; [done|].
      apply IH. by eapply wf_forward_closed.
    + intros a b (p & Hp & Hpa)%Hn Hb. apply Hn. exists p. split; [done|].
      by eapply rtc_r.
    + intros x (p & Hp%selected_packages_elem & Hpx)%Hn. right. eauto.
Qed.

Lemma graph_nodes_exact s nodes :
  graph_nodes s = Ok nodes →
  ((∀ p, ¬ checked s p) → nodes = dom (package_checkboxes s)) ∧
  ((∃ p, checked s p) →
   ∀ x, x ∈ nodes ↔ ∃ p, checked s p ∧ reachable (package_dependencies s) p x).
Proof.
  unfold graph_nodes. destruct (selected_packages s) as [|p0 sel] eqn:Hsel.
  - intros [= <-]. split; [done|]. intros [p Hp%selected_packages_elem].
    rewrite Hsel in Hp. by apply elem_of_nil in Hp.
  - rewrite -Hsel. intros Hrun.
    destruct (closure_spec (package_dependencies s) (selected_packages s))
      as (nodes' & Hrun' & Hn).
    rewrite Hrun in Hrun'. injection Hrun' as <-. split.
    + intros Hnone. exfalso. apply (Hnone p0), selected_packages_elem.
      rewrite Hsel. left.
    + intros _ x. rewrite Hn. unfold reachable_from.
      by setoid_rewrite selected_packages_elem.
Qed.

(** The dialog on a scanned workspace with at least one package (so that
    [show_dependency_graph] does not scan again): it never raises; when no
    package is ticked it shows every package, otherwise exactly the ticked
    packages and whatever they reach along forward edges; the set shown is
    closed under dependencies, its edges are the dependencies between shown
    packages, and every shown package is in exactly one layer. *)
Theorem dependency_graph_layers_total (s : gui) :
  gui_wf s → package_dependencies s ≠ ∅ →
  ∃ nodes levels,
    graph_nodes s = Ok nodes ∧ dependency_graph_layers s = Ok levels ∧
    ((∀ p, ¬ checked s p) → nodes = dom (package_checkboxes s)) ∧
    ((∃ p, checked s p) →
     ∀ x, x ∈ nodes ↔ ∃ p, checked s p ∧ reachable (package_dependencies s) p x) ∧
    (∀ p, checked s p → p ∈ nodes) ∧
    nodes ⊆ dom (package_checkboxes s) ∧
    (∀ a b, (a, b) ∈ induced_edges (package_dependencies s) nodes ↔
            a ∈ nodes ∧ b ∈ get_set (package_dependencies s) a) ∧
    (∀ n, n ∈ nodes ↔ ∃ i, in_layer levels i n) ∧
    (∀ i j n, in_layer levels i n → in_layer levels j n → i = j).
Proof.
  intros Hwf _. destruct (graph_nodes_spec s Hwf) as (nodes & Hn & Hsel & Hsub & Hcl & _).
  destruct (graph_nodes_exact s nodes Hn) as [Hnone Hsome].
  destruct (topologicalLayers_spec nodes (induced_edges (package_dependencies s) nodes)
              (induced_edges_induced _ _)) as (levels & peeled & sn & Hrun & HL).
  exists nodes, levels. split_and!; [done| |done..| | |].
  - unfold dependency_graph_layers. by rewrite Hn.
  - intros a b. rewrite induced_edges_elem. split; [by intros (? & ? & _)|].
    intros [Ha Hb]. split_and!; [done..|]. by eapply Hcl.
  - by eapply layering_placed.
  - by eapply layering_unique.
Qed.

(** ** The shape of the layers *)

Lemma remain_nil_all_seen (nodes : gset string) (sn : gset string) :
  (∀ n, n ∈ nodes → n ∈ sn) → filter (λ n, n ∉ sn) (elements nodes) = [].
Proof.
  intros Hall. destruct (filter _ _) as [|r remain] eqn:Hr; [done|].
  assert (r ∈ filter (λ n, n ∉ sn) (elements nodes)) as Hin by (rewrite Hr; left).
  apply list_elem_of_filter in Hin as [Hrs Hrn%elem_of_elements]. by apply Hall in Hrn.
Qed.

(** No layer is empty and no layer holds a node twice.  When the edges
    have no cycle the layering is as early as it can be: the first layer is
    the set of the nodes without incoming edge, and every node of a later
    layer has a predecessor in the layer just before its own. *)
Theorem topologicalLayers_layers_are_tight (nodes : gset string)
    (edges : list (string * string)) :
  induced nodes edges →
  ∃ levels, topologicalLayers nodes edges = Ok levels ∧
    (∀ layer, layer ∈ levels → layer ≠ [] ∧ NoDup layer) ∧
    (acyclic edges →
       (∀ v, in_layer levels 0 v ↔ v ∈ nodes ∧ ∀ u, (u, v) ∉ edges) ∧
       (∀ j v, in_layer levels (S j) v → ∃ u, in_layer levels j u ∧ (u, v) ∈ edges)).
Proof.
  intros Hind.
  destruct (topologicalLayers_tight_spec nodes edges Hind)
    as (levels & peeled & sn & Hrun & HL & [Hne Hnd Hpred]).
  exists levels. split_and!; [done|..].
  - intros layer. rewrite (layering_levels _ _ _ _ _ HL).
    destruct (filter (λ n, n ∉ sn) (elements nodes)) as [|r remain] eqn:Hr.
    + intros Hl. split; [by apply Hne|by apply Hnd].
    + intros [Hl|Hl%list_elem_of_singleton]%elem_of_app; [split; [by apply Hne|by apply Hnd]|].
      subst layer. split; [done|]. rewrite -Hr. apply NoDup_filter, NoDup_elements.
  - intros Hac.
    assert (levels = peeled) as ->.
    { rewrite (layering_levels _ _ _ _ _ HL) remain_nil_all_seen //.
      intros n Hn. by eapply acyclic_all_seen. }
    pose proof HL as [[Hls Hlu Hlr] Hsub _ _]. split.
    + intros v. split.
      * intros Hv. split; [apply Hsub, Hls; eauto|].
        intros u He. destruct (Hlr 0 u v Hv He) as (i & Hi & _). lia.
      * intros [Hv Hnone].
        assert (v ∈ sn) as [j Hj]%Hls by by eapply acyclic_all_seen.
        destruct j as [|j]; [done|].
        destruct (Hpred j v Hj) as (u & _ & He). by apply Hnone in He.
    + done.
Qed.

(** ** Highlights *)

Lemma selected_nodes_none (items : gmap string node_item) :
  (∀ n item, items !! n = Some item → isSelected item = false) →
  dom (filter (λ kv : string * node_item, isSelected kv.2 = true) items) = ∅.
Proof.
  intros Hnone. apply set_eq. intros n. split; [|set_solver].
  intros [item [Hn Hs]%map_lookup_filter_Some]%elem_of_dom. simpl in Hs.
  rewrite (Hnone n item Hn) in Hs. done.
Qed.

(** With no node selected, [update_node_highlights] keeps every node and
    leaves none with a highlight, whatever highlight it had, and every edge
    gets the default pen. *)
Theorem no_focus_clears_highlights (items : gmap string node_item)
    (edges : list (string * string)) (edge_items : list edge_item) :
  (∀ n item, items !! n = Some item → isSelected item = false) →
  let sc := update_node_highlights (Scene items edges) in
  dom (node_items sc) = dom items ∧
  (∀ n item', node_items sc !! n = Some item' →
     highlight_type item' = None ∧ classify item' = tag_none) ∧
  (∀ e, e ∈ update_edge_highlights (Scene items edges) edge_items →
     pen_color e = default_color ∧ pen_width e = 1).
Proof.
  intros Hnone sc. split_and!.
  - apply update_node_highlights_dom.
  - intros n item'. unfold sc, update_node_highlights. simpl.
    rewrite (selected_nodes_none items Hnone) elements_empty. simpl.
    rewrite lookup_fmap. destruct (items !! n) as [item|] eqn:Hn; simpl; [|done].
    intros [= <-]. split; [done|]. unfold classify. simpl.
    by rewrite (Hnone n item Hn).
  - intros e. unfold update_edge_highlights. simpl.
    rewrite (selected_nodes_none items Hnone) elements_empty.
    unfold _reset_edge_colors. intros (e0 & -> & _)%list_elem_of_fmap. done.
Qed.

(** With one node [F] selected, every node is drawn by its edges to and from
    [F], for any edges: [F] is the focused node, a node with an edge into [F]
    is incoming, a node that only has an edge from [F] is outgoing, the rest
    have no highlight.  A node on a cycle of two with [F] is drawn
    incoming: that test comes first. *)
Theorem focus_classifies_neighbours (items : gmap string node_item)
    (edges : list (string * string)) (F : string) :
  only_selected items F →
  ∀ n item', node_items (update_node_highlights (Scene items edges)) !! n = Some item' →
    classify item' =
      (if decide (n = F) then focused
       else if decide ((n, F) ∈ edges) then tag_incoming
       else if decide ((F, n) ∈ edges) then tag_outgoing
       else tag_none) ∧
    (n ≠ F → (n, F) ∈ edges → (F, n) ∈ edges → classify item' = tag_incoming).
Proof.
  intros Hsel n item' Hn.
  rewrite (update_node_highlights_classify _ _ _ _ _ Hsel Hn). split; [done|].
  intros Hne Hin _. rewrite decide_False // decide_True //.
Qed.

(** With one node [F] selected, an edge item that is an edge of the scene
    is drawn yellow exactly when it ends in [F], red exactly when it starts
    in [F] and does not end there, and with the default pen otherwise; the
    ends of the item are left as they are. *)
Theorem focus_colours_edges (items : gmap string node_item)
    (edges : list (string * string)) (F : string) (edge_items : list edge_item) :
  only_selected items F →
  (∀ e, e ∈ edge_items → (edge_src e, edge_dest e) ∈ edges) →
  let coloured := update_edge_highlights (Scene items edges) edge_items in
  (edge_src <$> coloured) = (edge_src <$> edge_items) ∧
  (edge_dest <$> coloured) = (edge_dest <$> edge_items) ∧
  ∀ e, e ∈ coloured →
    (pen_color e, pen_width e) =
      if decide (edge_dest e = F) then (yellow_color, 2)
      else if decide (edge_src e = F) then (red_color, 2)
      else (default_color, 1).
Proof.
  intros Hsel Hitems coloured. unfold coloured, update_edge_highlights. simpl.
  rewrite (selected_nodes_only items F Hsel) elements_singleton.
  unfold _update_edge_colors. split_and!.
  - rewrite -list_fmap_compose. apply list_fmap_ext. intros i e _. simpl.
    by repeat case_decide.
  - rewrite -list_fmap_compose. apply list_fmap_ext. intros i e _. simpl.
    by repeat case_decide.
  - intros e (e0 & -> & He0)%list_elem_of_fmap. specialize (Hitems e0 He0).
    destruct (decide (edge_dest e0 = F ∧ edge_src e0 ∈ incoming_nodes edges F))
      as [[Hd Hs]|Hn]; simpl.
    + by rewrite decide_True.
    + assert (edge_dest e0 ≠ F) as Hd.
      { intros Hd. apply Hn. split; [done|]. apply incoming_nodes_elem. by rewrite -Hd. }
      destruct (decide (edge_src e0 = F ∧ edge_dest e0 ∈ outgoing_nodes edges F))
        as [[Hs Ho]|Hn2]; simpl.
      * rewrite decide_False // decide_True //.
      * rewrite decide_False //.
        destruct (decide (edge_src e0 = F)) as [Hs|Hs]; [|done].
        exfalso. apply Hn2. split; [done|]. apply outgoing_nodes_elem. by rewrite -Hs.
Qed.

(** ** The positions of the nodes *)

Lemma sorted_elem (l : list string) x : x ∈ sorted l ↔ x ∈ l.
Proof. unfold sorted. by rewrite merge_sort_Permutation. Qed.

Lemma sorted_NoDup (l : list string) : NoDup l → NoDup (sorted l).
Proof. unfold sorted. by rewrite merge_sort_Permutation. Qed.

Lemma fold_positions (f : nat → nat * nat) (l : list string) :
  ∀ k (pos : gmap string (nat * nat)), NoDup l →
    let r := foldl (λ pos jn, <[jn.2 := f jn.1]> pos) pos (zip (seq k (length l)) l) in
    (∀ j n, l !! j = Some n → r !! n = Some (f (k + j))) ∧
    (∀ n, n ∉ l → r !! n = pos !! n).
Proof.
  induction l as [|x l IH]; intros k pos Hnd; simpl.
  - split; [by intros j n ?|done].
  - apply NoDup_cons in Hnd as [Hx Hnd].
    destruct (IH (S k) (<[x := f k]> pos) Hnd) as [IH1 IH2]. split.
    + intros [|j] n Hn; simpl in Hn.
      * injection Hn as <-. rewrite (IH2 x Hx) lookup_insert_eq. do 2 f_equal. lia.
      * rewrite (IH1 j n Hn). do 2 f_equal. lia.
    + intros n Hn. apply not_elem_of_cons in Hn as [Hne Hn].
      rewrite (IH2 n Hn) lookup_insert_ne //.
Qed.

Lemma layer_positions_lookup i layer pos :
  NoDup layer →
  (∀ j n, sorted layer !! j = Some n →
     layer_positions i layer pos !! n = Some (i * X_SPACING, j * Y_SPACING)) ∧
  (∀ n, n ∉ layer → layer_positions i layer pos !! n = pos !! n).
Proof.
  intros Hnd. unfold layer_positions, enumerate.
  destruct (fold_positions (λ j, (i * X_SPACING, j * Y_SPACING)) (sorted layer) 0 pos)
    as [H1 H2]; [by apply sorted_NoDup|]. split.
  - intros j n Hn. by rewrite (H1 j n Hn).
  - intros n Hn. apply H2. by rewrite sorted_elem.
Qed.

Lemma fold_levels (levels : list (list string)) :
  ∀ k (pos : gmap string (nat * nat)), NoDup (concat levels) →
    let r := foldl (λ pos il, layer_positions il.1 il.2 pos) pos
               (zip (seq k (length levels)) levels) in
    (∀ i layer j n, levels !! i = Some layer → sorted layer !! j = Some n →
       r !! n = Some ((k + i) * X_SPACING, j * Y_SPACING)) ∧
    (∀ n, n ∉ concat levels → r !! n = pos !! n).
Proof.
  induction levels as [|L levels IH]; intros k pos Hnd; simpl.
  - split; [by intros i layer j n ?|done].
  - simpl in Hnd. apply NoDup_app in Hnd as (HL & Hdisj & Hnd).
    destruct (layer_positions_lookup k L pos HL) as [HL1 HL2].
    destruct (IH (S k) (layer_positions k L pos) Hnd) as [IH1 IH2]. split.
    + intros [|i] layer j n Hl Hn; simpl in Hl.
      * injection Hl as <-. rewrite IH2.
        -- rewrite (HL1 j n Hn). do 3 f_equal. lia.
        -- apply Hdisj, sorted_elem. by eapply list_elem_of_lookup_2.
      * rewrite (IH1 i layer j n Hl Hn). do 3 f_equal. lia.
    + intros n Hn. apply not_elem_of_app in Hn as [HnL Hn].
      by rewrite (IH2 n Hn) (HL2 n HnL).
Qed.

Lemma in_layer_cons L levels i n :
  in_layer (L :: levels) i n ↔
  (i = 0 ∧ n ∈ L) ∨ ∃ i', i = S i' ∧ in_layer levels i' n.
Proof.
  unfold in_layer. destruct i as [|i]; simpl; split.
  - intros (l & [= <-] & Hn). by left.
  - intros [[_ Hn]|(i' & ? & _)]; [eauto|done].
  - intros (l & Hl & Hn). right. exists i. eauto.
  - intros [[? _]|(i' & [= <-] & H)]; done.
Qed.

Lemma concat_elem_in_layer levels n :
  n ∈ concat levels ↔ ∃ i, in_layer levels i n.
Proof.
  induction levels as [|L levels IH]; simpl.
  - split; [by intros ?%elem_of_nil|]. intros (i & l & Hl & _). by rewrite lookup_nil in Hl.
  - rewrite elem_of_app IH. setoid_rewrite in_layer_cons. split.
    + intros [Hn|[i Hi]]; [exists 0; by left|]. exists (S i). right. eauto.
    + intros (i & [[_ Hn]|(i' & _ & Hi')]); [by left|right; eauto].
Qed.

Lemma NoDup_concat_layers levels :
  (∀ layer, layer ∈ levels → NoDup layer) →
  (∀ i j n, in_layer levels i n → in_layer levels j n → i = j) →
  NoDup (concat levels).
Proof.
  induction levels as [|L levels IH]; intros Hnd Hu; simpl; [constructor|].
  apply NoDup_app. split_and!.
  - apply Hnd. left.
  - intros n HnL [i Hi]%concat_elem_in_layer.
    assert (0 = S i) as Heq; [|done].
    apply (Hu 0 (S i) n); apply in_layer_cons; [by left|right; eauto].
  - apply IH.
    + intros layer Hl. apply Hnd. by right.
    + intros i j n Hi Hj.
      assert (S i = S j) as Heq; [|by injection Heq].
      apply (Hu (S i) (S j) n); apply in_layer_cons; right; eauto.
Qed.

Lemma layering_layers_NoDup nodes edges levels peeled sn :
  layering nodes edges levels peeled sn → layers_tight edges peeled →
  ∀ layer, layer ∈ levels → NoDup layer.
Proof.
  intros HL [_ Hnd _] layer. rewrite (layering_levels _ _ _ _ _ HL).
  destruct (filter (λ n, n ∉ sn) (elements nodes)) as [|r remain] eqn:Hr; [by apply Hnd|].
  intros [Hl|Hl%list_elem_of_singleton]%elem_of_app; [by apply Hnd|].
  subst layer. rewrite -Hr. apply NoDup_filter, NoDup_elements.
Qed.

(** Every node of the dialog gets a position, in the column of its layer;
    two different nodes never overlap: their rectangles (140 by 36) are in
    columns at least 100 apart, or in the same column with at least 44
    between them. *)
Theorem node_positions_do_not_overlap (nodes : gset string)
    (edges : list (string * string)) :
  induced nodes edges →
  ∃ levels, topologicalLayers nodes edges = Ok levels ∧
    let pos := node_positions levels in
    dom pos = nodes ∧
    (∀ n i, in_layer levels i n → ∃ j, pos !! n = Some (i * X_SPACING, j * Y_SPACING)) ∧
    (∀ a b xa ya xb yb, a ≠ b → pos !! a = Some (xa, ya) → pos !! b = Some (xb, yb) →
       xa + RECT_W + 100 ≤ xb ∨ xb + RECT_W + 100 ≤ xa ∨
       (xa = xb ∧ (ya + RECT_H + 44 ≤ yb ∨ yb + RECT_H + 44 ≤ ya))).
Proof.
  intros Hind.
  destruct (topologicalLayers_tight_spec nodes edges Hind)
    as (levels & peeled & sn & Hrun & HL & Htight).
  exists levels. split; [done|]. intros pos.
  assert (NoDup (concat levels)) as Hnd.
  { apply NoDup_concat_layers.
    - by eapply layering_layers_NoDup.
    - by eapply layering_unique. }
  destruct (fold_levels levels 0 ∅ Hnd) as [H1 H2]. fold (enumerate levels) in H1, H2.
  fold (node_positions levels) in H1, H2. fold pos in H1, H2.
  assert (∀ n i, in_layer levels i n →
            ∃ layer j, levels !! i = Some layer ∧ sorted layer !! j = Some n ∧
                       pos !! n = Some (i * X_SPACING, j * Y_SPACING)) as Hpos.
  { intros n i (layer & Hl & Hn).
    apply sorted_elem in Hn. apply list_elem_of_lookup_1 in Hn as [j Hj].
    exists layer, j. split_and!; [done..|]. by rewrite (H1 i layer j n Hl Hj). }
  split_and!.
  - apply set_eq. intros n. rewrite (layering_placed _ _ _ _ _ HL). split.
    + intros Hn. destruct (decide (n ∈ concat levels)) as [Hin|Hin].
      * by apply concat_elem_in_layer.
      * rewrite elem_of_dom (H2 n Hin) lookup_empty in Hn. by destruct Hn.
    + intros [i Hi]. destruct (Hpos n i Hi) as (? & ? & _ & _ & Hp).
      by apply elem_of_dom_2 in Hp.
  - intros n i Hi. destruct (Hpos n i Hi) as (? & j & _ & _ & Hp). eauto.
  - intros a b xa ya xb yb Hab Ha Hb.
    assert (∃ i, in_layer levels i a) as [ia Hia].
    { apply concat_elem_in_layer. destruct (decide (a ∈ concat levels)); [done|].
      by rewrite (H2 a) // lookup_empty in Ha. }
    assert (∃ i, in_layer levels i b) as [ib Hib].
    { apply concat_elem_in_layer. destruct (decide (b ∈ concat levels)); [done|].
      by rewrite (H2 b) // lookup_empty in Hb. }
    destruct (Hpos a ia Hia) as (la & ja & Hla & Hja & Hpa).
    destruct (Hpos b ib Hib) as (lb & jb & Hlb & Hjb & Hpb).
    rewrite Hpa in Ha. rewrite Hpb in Hb. injection Ha as <- <-. injection Hb as <- <-.
    unfold X_SPACING, Y_SPACING, RECT_W, RECT_H.
    destruct (decide (ia = ib)) as [->|Hi]; [|lia].
    rewrite Hla in Hlb. injection Hlb as <-.
    destruct (decide (ja = jb)) as [->|Hj]; [|lia].
    rewrite Hja in Hjb. by injection Hjb.
Qed.

Lemma induced_edges_tc deps nodes a b :
  tc (edge_of (induced_edges deps nodes)) a b → tc (depends_on deps) a b.
Proof.
  induction 1 as [a b He|a b c He _ IH].
  - apply tc_once. by apply induced_edges_elem in He as (_ & ? & _).
  - eapply tc_l; [|done]. by apply induced_edges_elem in He as (_ & ? & _).
Qed.

(** On a scanned workspace with at least one package, when no package
    depends on itself through a chain of dependencies, the dialog puts every
    shown package in a layer of smaller index than each of its dependencies:
    a package is drawn to the left of what it depends on. *)
Theorem dependency_graph_layers_order (s : gui) :
  gui_wf s → package_dependencies s ≠ ∅ →
  (∀ p, ¬ tc (depends_on (package_dependencies s)) p p) →
  ∃ nodes levels,
    graph_nodes s = Ok nodes ∧ dependency_graph_layers s = Ok levels ∧
    ∀ a b i j, a ∈ nodes → b ∈ get_set (package_dependencies s) a →
               in_layer levels i a → in_layer levels j b → i < j.
Proof.
  intros Hwf _ Hac. destruct (graph_nodes_spec s Hwf) as (nodes & Hn & _ & _ & Hcl & _).
  set (edges := induced_edges (package_dependencies s) nodes).
  destruct (topologicalLayers_spec nodes edges (induced_edges_induced _ _))
    as (levels & peeled & sn & Hrun & HL).
  exists nodes, levels. split_and!; [done| |].
  - unfold dependency_graph_layers. by rewrite Hn.
  - intros a b i j Ha Hb Hi Hj.
    assert ((a, b) ∈ edges) as He.
    { apply induced_edges_elem. split_and!; [done..|]. by eapply Hcl. }
    assert (acyclic edges) as Hacyc.
    { intros n Hc. apply (Hac n). by eapply induced_edges_tc. }
    assert (b ∈ nodes) as Hbn by by eapply Hcl.
    pose proof (acyclic_all_seen _ _ _ _ _ HL b Hacyc Hbn) as Hbs.
    pose proof HL as [[Hls _ Hlr] _ _ _].
    apply Hls in Hbs as [j' Hj'].
    destruct (Hlr j' a b Hj' He) as (i' & Hij & Hi').
    assert (in_layer levels j' b) as Hj2 by (eapply layering_in_layer; [done|by left]).
    assert (in_layer levels i' a) as Hi2 by (eapply layering_in_layer; [done|by left]).
    assert (i = i') by by eapply layering_unique.
    assert (j = j') by by eapply layering_unique.
    lia.
Qed.

(** ** The properties above at concrete inputs *)

Lemma refresh_packages_transposed walk last s :
  refresh_packages walk last = Ok s → transposed s.
Proof.
  intros Hs. destruct (refresh_packages_Ok walk last s Hs) as (sc & Hsc).
  destruct (refresh_packages_spec walk last sc Hsc) as (s' & Hs' & H).
  rewrite Hs in Hs'. injection Hs' as <-. simpl in H.
  by destruct H as (_ & _ & _ & _ & Htr & _).
Qed.

Lemma scenario_same_graph : same_graph scenario_gui scenario_gui_selected.
Proof. split; [reflexivity|reflexivity|]. vm_compute. reflexivity. Qed.

Lemma scenario_gui_selected_wf : gui_wf scenario_gui_selected.
Proof. exact (same_graph_wf _ _ scenario_same_graph scenario_gui_wf). Qed.

Lemma scenario_gui_selected_transposed : transposed scenario_gui_selected.
Proof. exact (refresh_packages_transposed _ _ _ scenario_refresh). Qed.

Lemma scenario_gui_selected_closed : dependency_closed scenario_gui_selected.
Proof.
  intros a b _ Hb. apply (wf_forward_closed _ scenario_gui_selected_wf) in Hb.
  apply elem_of_dom in Hb as [v Hv]. unfold checked. rewrite Hv. f_equal.
  revert b v Hv.
  refine (proj1 (map_Forall_lookup (λ (_ : string) (v : bool), v = true)
                   (package_checkboxes scenario_gui_selected)) _).
  apply (bool_decide_unpack _). vm_compute. reflexivity.
Qed.

Lemma ranked_no_cycle (deps : gmap string (gset string)) (rank : string → nat) :
  (∀ a b, b ∈ get_set deps a → rank b < rank a) →
  ∀ p, ¬ tc (depends_on deps) p p.
Proof.
  intros Hr.
  assert (∀ a b, tc (depends_on deps) a b → rank b < rank a) as Htc.
  { induction 1 as [a b H|a b c H _ IH]; [by apply Hr|]. apply Hr in H. lia. }
  intros p Hp%Htc. lia.
Qed.

Lemma scenario_no_cycle :
  ∀ p, ¬ tc (depends_on (package_dependencies scenario_gui)) p p.
Proof.
  apply (ranked_no_cycle _ scenario_rank).
  intros a b (v & Ha & Hb)%get_set_elem. revert b Hb.
  change (set_Forall (λ b, scenario_rank b < scenario_rank a) v).
  revert a v Ha.
  refine (proj1 (map_Forall_lookup
            (λ (a : string) (v : gset string),
               set_Forall (λ b, scenario_rank b < scenario_rank a) v)
            (package_dependencies scenario_gui)) _).
  apply (bool_decide_unpack _). vm_compute. reflexivity.
Qed.

Lemma scenario_gui_scanned : package_dependencies scenario_gui ≠ ∅.
Proof.
  intros H. apply (f_equal (λ m : gmap string (gset string), m !! "A")) in H.
  vm_compute in H. discriminate H.
Qed.

Lemma chain_induced : induced chain_nodes chain_edges.
Proof. intros s d. unfold chain_edges, chain_nodes. set_solver. Qed.

Lemma unfocused_items_none :
  ∀ n item, unfocused_items !! n = Some item → isSelected item = false.
Proof.
  refine (proj1 (map_Forall_lookup
            (λ (_ : string) (item : node_item), isSelected item = false)
            unfocused_items) _).
  apply (bool_decide_unpack _). vm_compute. reflexivity.
Qed.

Lemma chain_edge_items_edges :
  ∀ e, e ∈ chain_edge_items → (edge_src e, edge_dest e) ∈ chain_edges.
Proof.
  intros e He. unfold chain_edge_items in He.
  apply elem_of_cons in He as [->|He]; [left|].
  apply elem_of_cons in He as [->|He]; [right; left|].
  by apply elem_of_nil in He.
Qed.

Lemma refresh_forward_edges_witness :
  Forall readable scenario_walk ∧
  ∃ s, refresh_packages scenario_walk [] = Ok s ∧
       ∀ p d, d ∈ get_set (package_dependencies s) p ↔
              p ∈ dom (package_dependencies s) ∧ d ∈ dom (package_dependencies s) ∧
              ∃ f deps, manifest_of scenario_walk p = Some f ∧
                        get_package_dependencies f = Ok deps ∧ d ∈ deps.
Proof.
  split; [exact scenario_walk_readable|].
  exact (refresh_forward_edges scenario_walk [] scenario_walk_readable).
Defined.

Lemma refresh_restores_saved_selection_witness :
  Forall readable scenario_walk ∧
  ∃ s, refresh_packages scenario_walk ["A"] = Ok s ∧
       (∀ p, package_checkboxes s !! p =
             if decide (p ∈ dom (package_dependencies s))
             then Some (bool_decide (p ∈ ["A"])) else None) ∧
       (∀ p, checked s p ↔ p ∈ dom (package_dependencies s) ∧ p ∈ ["A"]).
Proof.
  split; [exact scenario_walk_readable|].
  exact (refresh_restores_saved_selection scenario_walk ["A"] scenario_walk_readable).
Defined.

Lemma tick_selects_exactly_the_dependencies_witness :
  gui_wf scenario_gui ∧ package_checkboxes scenario_gui !! "B" = Some false ∧
  (∃ fuel s', ∀ fuel', fuel ≤ fuel' → setChecked fuel' "B" true scenario_gui = Ok s') ∧
  ∀ fuel,
    setChecked fuel "B" true scenario_gui = Err OutOfFuel ∨
    ∃ s', setChecked fuel "B" true scenario_gui = Ok s' ∧
          same_graph scenario_gui s' ∧
          (∀ q, reachable (package_dependencies scenario_gui) "B" q → checked s' q) ∧
          (∀ q, package_checkboxes s' !! q ≠ package_checkboxes scenario_gui !! q →
                reachable (package_dependencies scenario_gui) "B" q).
Proof.
  split; [exact scenario_gui_wf|]. split; [vm_compute; reflexivity|].
  apply (tick_selects_exactly_the_dependencies scenario_gui "B").
  - exact scenario_gui_wf.
  - vm_compute. reflexivity.
Defined.

Lemma untick_deselects_exactly_the_dependents_witness :
  gui_wf scenario_gui_selected ∧
  package_checkboxes scenario_gui_selected !! "B" = Some true ∧
  (∃ fuel s', ∀ fuel', fuel ≤ fuel' →
                setChecked fuel' "B" false scenario_gui_selected = Ok s') ∧
  ∀ fuel,
    setChecked fuel "B" false scenario_gui_selected = Err OutOfFuel ∨
    ∃ s', setChecked fuel "B" false scenario_gui_selected = Ok s' ∧
          same_graph scenario_gui_selected s' ∧
          (∀ q, dependents_of scenario_gui_selected "B" q →
                package_checkboxes s' !! q = Some false) ∧
          (∀ q, package_checkboxes s' !! q ≠ package_checkboxes scenario_gui_selected !! q →
                dependents_of scenario_gui_selected "B" q).
Proof.
  split; [exact scenario_gui_selected_wf|]. split; [vm_compute; reflexivity|].
  apply (untick_deselects_exactly_the_dependents scenario_gui_selected "B").
  - exact scenario_gui_selected_wf.
  - vm_compute. reflexivity.
Defined.

Lemma toggle_keeps_selection_closed_witness :
  gui_wf scenario_gui_selected ∧ transposed scenario_gui_selected ∧
  dependency_closed scenario_gui_selected ∧
  package_checkboxes scenario_gui_selected !! "B" = Some (negb false) ∧
  ∃ fuel s',
    (∀ fuel', fuel ≤ fuel' → setChecked fuel' "B" false scenario_gui_selected = Ok s') ∧
    same_graph scenario_gui_selected s' ∧ dependency_closed s'.
Proof.
  split; [exact scenario_gui_selected_wf|].
  split; [exact scenario_gui_selected_transposed|].
  split; [exact scenario_gui_selected_closed|].
  split; [vm_compute; reflexivity|].
  apply (toggle_keeps_selection_closed scenario_gui_selected "B" false).
  - exact scenario_gui_selected_wf.
  - exact scenario_gui_selected_transposed.
  - exact scenario_gui_selected_closed.
  - vm_compute. reflexivity.
Defined.

Lemma set_all_packages_sets_every_box_witness :
  gui_wf scenario_gui ∧
  (∃ fuel s', ∀ fuel', fuel ≤ fuel' → set_all_packages fuel' true scenario_gui = Ok s') ∧
  ∀ fuel,
    set_all_packages fuel true scenario_gui = Err OutOfFuel ∨
    ∃ s', set_all_packages fuel true scenario_gui = Ok s' ∧
          same_graph scenario_gui s' ∧
          (∀ p, p ∈ dom (package_checkboxes scenario_gui) →
                package_checkboxes s' !! p = Some true) ∧
          length (top_level_calls s') =
            length (top_level_calls scenario_gui)
            + size (boxes_in (negb true) scenario_gui).
Proof.
  split; [exact scenario_gui_wf|].
  apply (set_all_packages_sets_every_box true scenario_gui). exact scenario_gui_wf.
Defined.

Lemma save_then_refresh_restores_boxes_witness :
  refresh_packages scenario_walk [] = Ok scenario_gui ∧
  same_graph scenario_gui scenario_gui_selected ∧
  ∃ s2, refresh_packages scenario_walk (selected_packages scenario_gui_selected) = Ok s2 ∧
        package_checkboxes s2 = package_checkboxes scenario_gui_selected ∧
        package_dependencies s2 = package_dependencies scenario_gui ∧
        reverse_dependencies s2 = reverse_dependencies scenario_gui.
Proof.
  split; [exact scenario_refresh|]. split; [exact scenario_same_graph|].
  apply (save_then_refresh_restores_boxes scenario_walk [] scenario_gui
           scenario_gui_selected).
  - exact scenario_refresh.
  - exact scenario_same_graph.
Defined.

Lemma dependency_graph_layers_total_witness :
  gui_wf scenario_gui ∧ package_dependencies scenario_gui ≠ ∅ ∧
  ∃ nodes levels,
    graph_nodes scenario_gui = Ok nodes ∧ dependency_graph_layers scenario_gui = Ok levels ∧
    ((∀ p, ¬ checked scenario_gui p) → nodes = dom (package_checkboxes scenario_gui)) ∧
    ((∃ p, checked scenario_gui p) →
     ∀ x, x ∈ nodes ↔
          ∃ p, checked scenario_gui p ∧ reachable (package_dependencies scenario_gui) p x) ∧
    (∀ p, checked scenario_gui p → p ∈ nodes) ∧
    nodes ⊆ dom (package_checkboxes scenario_gui) ∧
    (∀ a b, (a, b) ∈ induced_edges (package_dependencies scenario_gui) nodes ↔
            a ∈ nodes ∧ b ∈ get_set (package_dependencies scenario_gui) a) ∧
    (∀ n, n ∈ nodes ↔ ∃ i, in_layer levels i n) ∧
    (∀ i j n, in_layer levels i n → in_layer levels j n → i = j).
Proof.
  split; [exact scenario_gui_wf|]. split; [exact scenario_gui_scanned|].
  apply (dependency_graph_layers_total scenario_gui).
  - exact scenario_gui_wf.
  - exact scenario_gui_scanned.
Defined.

Lemma dependency_graph_layers_order_witness :
  gui_wf scenario_gui ∧ package_dependencies scenario_gui ≠ ∅ ∧
  (∀ p, ¬ tc (depends_on (package_dependencies scenario_gui)) p p) ∧
  ∃ nodes levels,
    graph_nodes scenario_gui = Ok nodes ∧ dependency_graph_layers scenario_gui = Ok levels ∧
    ∀ a b i j, a ∈ nodes → b ∈ get_set (package_dependencies scenario_gui) a →
               in_layer levels i a → in_layer levels j b → i < j.
Proof.
  split; [exact scenario_gui_wf|]. split; [exact scenario_gui_scanned|].
  split; [exact scenario_no_cycle|].
  apply (dependency_graph_layers_order scenario_gui).
  - exact scenario_gui_wf.
  - exact scenario_gui_scanned.
  - exact scenario_no_cycle.
Defined.

Lemma topologicalLayers_layers_are_tight_witness :
  induced chain_nodes chain_edges ∧
  ∃ levels, topologicalLayers chain_nodes chain_edges = Ok levels ∧
    (∀ layer, layer ∈ levels → layer ≠ [] ∧ NoDup layer) ∧
    (acyclic chain_edges →
       (∀ v, in_layer levels 0 v ↔ v ∈ chain_nodes ∧ ∀ u, (u, v) ∉ chain_edges) ∧
       (∀ j v, in_layer levels (S j) v →
               ∃ u, in_layer levels j u ∧ (u, v) ∈ chain_edges)).
Proof.
  split; [exact chain_induced|].
  exact (topologicalLayers_layers_are_tight chain_nodes chain_edges chain_induced).
Defined.

Lemma node_positions_do_not_overlap_witness :
  induced chain_nodes chain_edges ∧
  ∃ levels, topologicalLayers chain_nodes chain_edges = Ok levels ∧
    let pos := node_positions levels in
    dom pos = chain_nodes ∧
    (∀ n i, in_layer levels i n → ∃ j, pos !! n = Some (i * X_SPACING, j * Y_SPACING)) ∧
    (∀ a b xa ya xb yb, a ≠ b → pos !! a = Some (xa, ya) → pos !! b = Some (xb, yb) →
       xa + RECT_W + 100 ≤ xb ∨ xb + RECT_W + 100 ≤ xa ∨
       (xa = xb ∧ (ya + RECT_H + 44 ≤ yb ∨ yb + RECT_H + 44 ≤ ya))).
Proof.
  split; [exact chain_induced|].
  exact (node_positions_do_not_overlap chain_nodes chain_edges chain_induced).
Defined.

Lemma no_focus_clears_highlights_witness :
  (∀ n item, unfocused_items !! n = Some item → isSelected item = false) ∧
  let sc := update_node_highlights (Scene unfocused_items chain_edges) in
  dom (node_items sc) = dom unfocused_items ∧
  (∀ n item', node_items sc !! n = Some item' →
     highlight_type item' = None ∧ classify item' = tag_none) ∧
  (∀ e, e ∈ update_edge_highlights (Scene unfocused_items chain_edges) chain_edge_items →
     pen_color e = default_color ∧ pen_width e = 1).
Proof.
  split; [exact unfocused_items_none|].
  exact (no_focus_clears_highlights unfocused_items chain_edges chain_edge_items
           unfocused_items_none).
Defined.

Lemma focus_classifies_neighbours_witness :
  only_selected focus_B_items "B" ∧
  ∀ n item',
    node_items (update_node_highlights (Scene focus_B_items chain_edges)) !! n = Some item' →
    classify item' =
      (if decide (n = "B") then focused
       else if decide ((n, "B") ∈ chain_edges) then tag_incoming
       else if decide (("B", n) ∈ chain_edges) then tag_outgoing
       else tag_none) ∧
    (n ≠ "B" → (n, "B") ∈ chain_edges → ("B", n) ∈ chain_edges →
     classify item' = tag_incoming).
Proof.
  split; [exact focus_B_only_selected|].
  exact (focus_classifies_neighbours focus_B_items chain_edges "B" focus_B_only_selected).
Defined.

Lemma focus_colours_edges_witness :
  only_selected focus_B_items "B" ∧
  (∀ e, e ∈ chain_edge_items → (edge_src e, edge_dest e) ∈ chain_edges) ∧
  let coloured := update_edge_highlights (Scene focus_B_items chain_edges) chain_edge_items in
  (edge_src <$> coloured) = (edge_src <$> chain_edge_items) ∧
  (edge_dest <$> coloured) = (edge_dest <$> chain_edge_items) ∧
  ∀ e, e ∈ coloured →
    (pen_color e, pen_width e) =
      if decide (edge_dest e = "B") then (yellow_color, 2)
      else if decide (edge_src e = "B") then (red_color, 2)
      else (default_color, 1).
Proof.
  split; [exact focus_B_only_selected|]. split; [exact chain_edge_items_edges|].
  exact (focus_colours_edges focus_B_items chain_edges "B" chain_edge_items
           focus_B_only_selected chain_edge_items_edges).
Defined.
